(** * sqlite_extract: the SQLite on-disk decoder of [extract.py]

    A shallow embedding of the decoder core of [src/extract.py]
    ([read_varint], [parse_serial_type], [parse_record], [parse_page],
    [get_freelist_pages] and [main] from the loaded file on) together with
    the properties the specification states about it.

    Python integers are unbounded, so they are modelled by [Z]; a [bytes]
    object is a [list byte]; exceptions are an explicit result type, and
    the one loop that need not end, the free-list walk, takes fuel.  The
    first part holds the program, the second the definitions the
    properties are stated with, the third the properties. *)

From Stdlib Require Import ZArith List Lia Bool.
From Stdlib.Strings Require Import Byte.
Import ListNotations.
Open Scope Z_scope.

(** * The program *)

(** ** Python values and control effects *)

Module Py.

(** The exceptions the decoder can meet.  [SystemExit] is what [sys.exit]
    raises; it is not an [Exception] subclass, so [except Exception] lets it
    through. *)
Inductive exn : Type :=
| IndexError
| StructError
| ZeroDivisionError
| SystemExit (code : Z).

Definition is_Exception (e : exn) : bool :=
  match e with
  | SystemExit _ => false
  | _ => true
  end.

(** Outcome of running a piece of code: a value, a raised exception, or
    [OutOfFuel] when a loop modelled with fuel did not finish within it. *)
Inductive res (A : Type) : Type :=
| Ok (a : A)
| Raise (e : exn)
| OutOfFuel.
Arguments Ok {A} a.
Arguments Raise {A} e.
Arguments OutOfFuel {A}.

Definition bind {A B} (m : res A) (k : A -> res B) : res B :=
  match m with
  | Ok a => k a
  | Raise e => Raise e
  | OutOfFuel => OutOfFuel
  end.

(** [try: body  except Exception: handler]. *)
Definition try_except {A} (body : res A) (handler : exn -> res A) : res A :=
  match body with
  | Raise e => if is_Exception e then handler e else Raise e
  | r => r
  end.

Definition bytes := list byte.

Definition Z_of_byte (b : byte) : Z := Z.of_N (Byte.to_N b).

(** The byte of value [z mod 256]; the program never builds bytes, this
    serves to state what it reads back. *)
Definition byte_of_Z (z : Z) : byte :=
  match Byte.of_N (Z.to_N (z mod 256)) with
  | Some b => b
  | None => x00
  end.

Definition len {A} (l : list A) : Z := Z.of_nat (length l).

(** [data[k]] on a sequence: negative indices count from the end. *)
Definition index (data : bytes) (k : Z) : res Z :=
  if (0 <=? k) && (k <? len data) then
    Ok (Z_of_byte (nth (Z.to_nat k) data x00))
  else if (- len data <=? k) && (k <? 0) then
    Ok (Z_of_byte (nth (Z.to_nat (k + len data)) data x00))
  else Raise IndexError.

(** Normalisation of one slice bound, as [PySlice_AdjustIndices] does. *)
Definition clamp (n i : Z) : Z :=
  if i <? 0 then Z.max 0 (i + n) else Z.min i n.

(** [data[start:stop]]; never raises. *)
Definition slice {A} (data : list A) (start stop : Z) : list A :=
  let a := clamp (len data) start in
  let b := clamp (len data) stop in
  firstn (Z.to_nat (b - a)) (skipn (Z.to_nat a) data).

(** Big-endian unsigned reading of a byte string. *)
Definition be_uint (bs : bytes) : Z :=
  fold_left (fun acc b => acc * 256 + Z_of_byte b) bs 0.

Definition to_signed (nbytes : Z) (u : Z) : Z :=
  if u >=? 2 ^ (8 * nbytes - 1) then u - 2 ^ (8 * nbytes) else u.

(** [int.from_bytes(bs, 'big', signed=True)]: the width is the number of
    bytes actually given; the empty string reads as 0. *)
Definition int_from_bytes_signed (bs : bytes) : Z :=
  match bs with
  | [] => 0
  | _ => to_signed (len bs) (be_uint bs)
  end.

(** [struct.unpack(fmt, bs)[0]] for the fixed-width big-endian formats the
    program uses: the buffer must have exactly the format's size. *)
Definition unpack_unsigned (size : Z) (bs : bytes) : res Z :=
  if len bs =? size then Ok (be_uint bs) else Raise StructError.

Definition unpack_signed (size : Z) (bs : bytes) : res Z :=
  if len bs =? size then Ok (to_signed size (be_uint bs)) else Raise StructError.

Definition unpack_H := unpack_unsigned 2.   (* '>H' *)
Definition unpack_I := unpack_unsigned 4.   (* '>I' *)
Definition unpack_b := unpack_signed 1.     (* '>b' *)
Definition unpack_h := unpack_signed 2.     (* '>h' *)
Definition unpack_i := unpack_signed 4.     (* '>i' *)
Definition unpack_q := unpack_signed 8.     (* '>q' *)
(** ['>d']: the double is represented by its IEEE-754 binary64 bit pattern. *)
Definition unpack_d := unpack_unsigned 8.

End Py.
Import Py.

Declare Scope py_scope.
Delimit Scope py_scope with py.
Notation "x <- m ;; k" := (bind m (fun x => k))
  (at level 61, m at next level, right associativity) : py_scope.
Notation "' pat <- m ;; k" := (bind m (fun x => match x with pat => k end))
  (at level 61, pat pattern, m at next level, right associativity) : py_scope.
Open Scope py_scope.

(** ** 4.1 Varint decoder: [read_varint] *)

(** The body of [for i in range(9)], with [k] iterations left. *)
Fixpoint read_varint_loop (k : nat) (data : bytes) (offset i value : Z)
  : res (Z * Z) :=
  match k with
  | O => Ok (value, 9)
  | S k' =>
      if offset + i >=? len data then Raise IndexError
      else
        byte <- index data (offset + i) ;;
        if byte <? 0x80 then
          Ok (Z.lor (Z.shiftl value 7) byte, i + 1)
        else
          read_varint_loop k' data offset (i + 1)
            (Z.lor (Z.shiftl value 7) (Z.land byte 0x7F))
  end.

Definition read_varint (data : bytes) (offset : Z) : res (Z * Z) :=
  read_varint_loop 9 data offset 0 0.

(** ** 4.2 Serial-type decoder: [parse_serial_type] *)

(** A decoded column value: [None], an [int], a [float] (kept as its
    binary64 bit pattern), a [bytes] blob or a [str] (its code points). *)
Inductive value : Type :=
| VNone
| VInt (z : Z)
| VFloat (bits : Z)
| VBytes (b : bytes)
| VStr (s : list Z).

Module Utf8.

Definition replacement : Z := 0xFFFD.

Definition is_cont (b : Z) : bool := (0x80 <=? b) && (b <? 0xC0).

(** [bs.decode('utf-8', errors='replace')] as CPython's decoder does it:
    one U+FFFD for an invalid start byte, for a lead byte with the valid
    part of its continuation (the decoder resumes at the first offending
    byte), and for a sequence cut short by the end of the input. *)
Fixpoint decode (s : bytes) : list Z :=
  match s with
  | [] => []
  | b1 :: t1 =>
    let ch := Z_of_byte b1 in
    if ch <? 0x80 then ch :: decode t1
    else if ch <? 0xC2 then replacement :: decode t1
    else if ch <? 0xE0 then
      match t1 with
      | [] => [replacement]
      | b2 :: t2 =>
        let ch2 := Z_of_byte b2 in
        if negb (is_cont ch2) then replacement :: decode t1
        else (Z.shiftl ch 6 + ch2 - (Z.shiftl 0xC0 6 + 0x80)) :: decode t2
      end
    else if ch <? 0xF0 then
      match t1 with
      | [] => [replacement]
      | b2 :: t2 =>
        let ch2 := Z_of_byte b2 in
        if negb (is_cont ch2)
           || (if ch2 <? 0xA0 then ch =? 0xE0 else ch =? 0xED)
        then replacement :: decode t1
        else
          match t2 with
          | [] => [replacement]
          | b3 :: t3 =>
            let ch3 := Z_of_byte b3 in
            if negb (is_cont ch3) then replacement :: decode t2
            else (Z.shiftl ch 12 + Z.shiftl ch2 6 + ch3
                  - (Z.shiftl 0xE0 12 + Z.shiftl 0x80 6 + 0x80)) :: decode t3
          end
      end
    else if ch <? 0xF5 then
      match t1 with
      | [] => [replacement]
      | b2 :: t2 =>
        let ch2 := Z_of_byte b2 in
        if negb (is_cont ch2)
           || (if ch2 <? 0x90 then ch =? 0xF0 else ch =? 0xF4)
        then replacement :: decode t1
        else
          match t2 with
          | [] => [replacement]
          | b3 :: t3 =>
            let ch3 := Z_of_byte b3 in
            if negb (is_cont ch3) then replacement :: decode t2
            else
              match t3 with
              | [] => [replacement]
              | b4 :: t4 =>
                let ch4 := Z_of_byte b4 in
                if negb (is_cont ch4) then replacement :: decode t3
                else (Z.shiftl ch 18 + Z.shiftl ch2 12 + Z.shiftl ch3 6 + ch4
                      - (Z.shiftl 0xF0 18 + Z.shiftl 0x80 12
                         + Z.shiftl 0x80 6 + 0x80)) :: decode t4
              end
          end
      end
    else replacement :: decode t1
  end.

(** The code points a [str] made by decoding can hold: all but the
    surrogates.  This and the encoder below are not part of the program,
    which only decodes; they serve to state what decoding gives back. *)
Definition is_scalar (cp : Z) : bool :=
  ((0 <=? cp) && (cp <? 0xD800)) || ((0xE000 <=? cp) && (cp <=? 0x10FFFF)).

(** The UTF-8 form of one code point, and of a string. *)
Definition encode_cp (cp : Z) : bytes :=
  if cp <? 0x80 then [byte_of_Z cp]
  else if cp <? 0x800 then
    [byte_of_Z (0xC0 + cp / 64); byte_of_Z (0x80 + cp mod 64)]
  else if cp <? 0x10000 then
    [byte_of_Z (0xE0 + cp / 4096); byte_of_Z (0x80 + (cp / 64) mod 64);
     byte_of_Z (0x80 + cp mod 64)]
  else
    [byte_of_Z (0xF0 + cp / 262144); byte_of_Z (0x80 + (cp / 4096) mod 64);
     byte_of_Z (0x80 + (cp / 64) mod 64); byte_of_Z (0x80 + cp mod 64)].

Definition encode (s : list Z) : bytes := flat_map encode_cp s.

End Utf8.

Definition parse_serial_type (data : bytes) (offset serial_type : Z)
  : res (value * Z) :=
  if (serial_type >=? 12) && (serial_type mod 2 =? 0) then
    let length := (serial_type - 12) / 2 in
    let value := slice data offset (offset + length) in
    Ok (VBytes value, length)
  else if (serial_type >=? 13) && (serial_type mod 2 =? 1) then
    let length := (serial_type - 13) / 2 in
    let value := Utf8.decode (slice data offset (offset + length)) in
    Ok (VStr value, length)
  else if serial_type =? 0 then Ok (VNone, 0)
  else if serial_type =? 1 then
    value <- unpack_b (slice data offset (offset + 1)) ;; Ok (VInt value, 1)
  else if serial_type =? 2 then
    value <- unpack_h (slice data offset (offset + 2)) ;; Ok (VInt value, 2)
  else if serial_type =? 3 then
    Ok (VInt (int_from_bytes_signed (slice data offset (offset + 3))), 3)
  else if serial_type =? 4 then
    value <- unpack_i (slice data offset (offset + 4)) ;; Ok (VInt value, 4)
  else if serial_type =? 5 then
    Ok (VInt (int_from_bytes_signed (slice data offset (offset + 6))), 6)
  else if serial_type =? 6 then
    value <- unpack_q (slice data offset (offset + 8)) ;; Ok (VInt value, 8)
  else if serial_type =? 7 then
    value <- unpack_d (slice data offset (offset + 8)) ;; Ok (VFloat value, 8)
  else if serial_type =? 8 then Ok (VInt 0, 0)
  else if serial_type =? 9 then Ok (VInt 1, 0)
  else Ok (VNone, 0).

(** ** 4.3 Record decoder: [parse_record] *)

(** [while bytes_read < header_length: ...]; every turn consumes at least
    one byte of [data], so [fuel] is only a bound on the turns. *)
Fixpoint read_serial_types (fuel : nat) (data : bytes)
    (header_offset bytes_read header_length : Z) (serial_types : list Z)
  : res (list Z) :=
  if bytes_read <? header_length then
    match fuel with
    | O => OutOfFuel
    | S fuel' =>
        '(serial_type, n) <- read_varint data header_offset ;;
        read_serial_types fuel' data (header_offset + n) (bytes_read + n)
          header_length (serial_types ++ [serial_type])
    end
  else Ok serial_types.

(** [for serial_type in serial_types: ...]. *)
Fixpoint decode_values (data : bytes) (value_offset : Z)
    (serial_types : list Z) (values : list value) : res (list value) :=
  match serial_types with
  | [] => Ok values
  | serial_type :: rest =>
      '(value, length) <- parse_serial_type data value_offset serial_type ;;
      decode_values data (value_offset + length) rest (values ++ [value])
  end.

Definition header_fuel (data : bytes) (header_offset : Z) : nat :=
  S (Z.to_nat (len data - header_offset)).

(** The result is Python's [None] ([None] here) or the list of values. *)
Definition parse_record (data : bytes) (offset payload_length : Z)
  : res (option (list value)) :=
  try_except
    (let header_offset := offset in
     '(header_length, n) <- read_varint data header_offset ;;
     let header_offset := header_offset + n in
     if header_length >? payload_length then Ok None
     else
       serial_types <- read_serial_types (header_fuel data header_offset)
                         data header_offset n header_length [] ;;
       values <- decode_values data (offset + header_length) serial_types [] ;;
       Ok (Some values))
    (fun _ => Ok None).

(** ** 4.4 Page parser: [parse_page] *)

Definition range (n : Z) : list Z := map Z.of_nat (seq 0 (Z.to_nat n)).

(** The first loop of [parse_page]: collect the cell pointers. *)
Fixpoint read_cell_pointers (idxs : list Z) (page_data : bytes)
    (header_size : Z) (cell_pointers : list Z) : res (list Z) :=
  match idxs with
  | [] => Ok cell_pointers
  | i :: rest =>
      let ptr_offset := header_size + i * 2 in
      if ptr_offset + 2 >? len page_data then
        read_cell_pointers rest page_data header_size cell_pointers
      else
        ptr <- unpack_H (slice page_data ptr_offset (ptr_offset + 2)) ;;
        read_cell_pointers rest page_data header_size (cell_pointers ++ [ptr])
  end.

(** The [try] block of the second loop, up to the decoded record. *)
Definition read_cell (page_type : Z) (page_data : bytes) (cell_pointer : Z)
  : res (option (list value)) :=
  let cell_offset := cell_pointer in
  '(payload_length, n) <- read_varint page_data cell_offset ;;
  let cell_offset := cell_offset + n in
  cell_offset <-
    (if page_type =? 0x05 then
       '(left_child_page, n) <- read_varint page_data cell_offset ;;
       Ok (cell_offset + n)
     else Ok cell_offset) ;;
  '(rowid, n) <- read_varint page_data cell_offset ;;
  let cell_offset := cell_offset + n in
  let payload := slice page_data cell_offset (cell_offset + payload_length) in
  parse_record payload 0 payload_length.

(** [if record: records.append(record)]: [None] and the empty list are
    both false. *)
Definition append_if_truthy (records : list (list value))
    (record : option (list value)) : list (list value) :=
  match record with
  | Some (v :: vs) => records ++ [v :: vs]
  | _ => records
  end.

(** One turn of the second loop: the body under [try], with
    [except Exception: continue]. *)
Definition parse_cell (page_type : Z) (page_data : bytes)
    (records : list (list value)) (cell_pointer : Z)
  : res (list (list value)) :=
  try_except
    (record <- read_cell page_type page_data cell_pointer ;;
     Ok (append_if_truthy records record))
    (fun _ => Ok records).

Fixpoint parse_cells (page_type : Z) (page_data : bytes)
    (cell_pointers : list Z) (records : list (list value))
  : res (list (list value)) :=
  match cell_pointers with
  | [] => Ok records
  | cell_pointer :: rest =>
      records' <- parse_cell page_type page_data records cell_pointer ;;
      parse_cells page_type page_data rest records'
  end.

(** [parse_page] appends to [records] in place; the model returns the
    list as it is when the call returns. *)
Definition parse_page (data : bytes) (page_number page_size : Z)
    (records : list (list value)) : res (list (list value)) :=
  let page_offset := page_number * page_size in
  let page_data := slice data page_offset (page_offset + page_size) in
  if len page_data =? 0 then Ok records
  else
    page_type <- index page_data 0 ;;
    if negb ((page_type =? 0x0D) || (page_type =? 0x05)) then Ok records
    else
      num_cells <- unpack_H (slice page_data 3 5) ;;
      let header_size := if page_type =? 0x0D then 8 else 12 in
      cell_pointers <- read_cell_pointers (range num_cells) page_data
                         header_size [] ;;
      parse_cells page_type page_data cell_pointers records.

(** ** 4.5 Free-list walker: [get_freelist_pages] *)

(** The lines the program prints, with the values their f-strings show. *)
Inductive message : Type :=
| PageOffsetOutOfBounds (page_offset : Z)
| InsufficientTrunkData (next_trunk_page : Z)
| InsufficientLeafData (i next_trunk_page : Z)
| ErrorReadingFreelist (e : exn)
| FileTooSmall
| NotSQLite3
| NoFreelistPages
| NoRecordsRecovered.

(** The local variables of [get_freelist_pages] and what it has printed. *)
Record walker : Type := Walker {
  freelist_pages : list Z;
  pages_collected : Z;
  next_trunk_page : Z;
  printed : list message
}.

Definition print (m : message) (w : walker) : walker :=
  Walker (freelist_pages w) (pages_collected w) (next_trunk_page w)
         (printed w ++ [m]).

Definition append_page (p : Z) (w : walker) : walker :=
  Walker (freelist_pages w ++ [p]) (pages_collected w) (next_trunk_page w)
         (printed w).

Definition collect_leaf (p : Z) (w : walker) : walker :=
  Walker (freelist_pages w ++ [p]) (pages_collected w + 1)
         (next_trunk_page w) (printed w).

Definition set_next_trunk (p : Z) (w : walker) : walker :=
  Walker (freelist_pages w) (pages_collected w) p (printed w).

(** How a loop body ends: falls through to the next turn, leaves the loop
    with [break], raises, or is cut by lack of fuel. *)
Inductive flow : Type :=
| Next
| Break
| Raised (e : exn)
| Stalled.

(** Go on with the value of [r], or stop where [r] stops. *)
Definition attempt {A} (r : res A) (w : walker) (k : A -> walker * flow)
  : walker * flow :=
  match r with
  | Ok a => k a
  | Raise e => (w, Raised e)
  | OutOfFuel => (w, Stalled)
  end.

(** [for i in range(n): ...] with [k] turns left, at index [i]. *)
Fixpoint leaf_loop (k : nat) (i : Z) (page_data : bytes) (w : walker)
  : walker * flow :=
  match k with
  | O => (w, Next)
  | S k' =>
      let offset := 8 + i * 4 in
      if offset + 4 >? len page_data then
        (print (InsufficientLeafData i (next_trunk_page w)) w, Break)
      else
        attempt (unpack_I (slice page_data offset (offset + 4))) w
          (fun page_num =>
             leaf_loop k' (i + 1) page_data (collect_leaf (page_num - 1) w))
  end.

(** The body of the [while] loop.  A [break] of the inner loop only ends
    the inner loop. *)
Definition trunk_body (data : bytes) (page_size : Z) (w : walker)
  : walker * flow :=
  let page_offset := (next_trunk_page w - 1) * page_size in
  if page_offset + page_size >? len data then
    (print (PageOffsetOutOfBounds page_offset) w, Break)
  else
    let page_data := slice data page_offset (page_offset + page_size) in
    let w := append_page (next_trunk_page w - 1) w in
    if len page_data <? 8 then
      (print (InsufficientTrunkData (next_trunk_page w)) w, Break)
    else
      attempt (unpack_I (slice page_data 0 4)) w (fun next =>
      let w := set_next_trunk next w in
      attempt (unpack_I (slice page_data 4 8)) w (fun n =>
      match leaf_loop (Z.to_nat n) 0 page_data w with
      | (w', Break) => (w', Next)
      | ended => ended
      end)).

(** [while next_trunk_page != 0 and pages_collected < total: ...], run for
    at most [fuel] turns.  [Ok (w, None)]: the loop ended; [Ok (w, Some e)]:
    it raised [e]; [OutOfFuel]: it is still running after [fuel] turns. *)
Fixpoint trunk_loop (fuel : nat) (data : bytes)
    (page_size total_freelist_pages : Z) (w : walker)
  : res (walker * option exn) :=
  if negb (next_trunk_page w =? 0)
     && (pages_collected w <? total_freelist_pages) then
    match fuel with
    | O => OutOfFuel
    | S fuel' =>
        match trunk_body data page_size w with
        | (w', Next) =>
            trunk_loop fuel' data page_size total_freelist_pages w'
        | (w', Break) => Ok (w', None)
        | (w', Raised e) => Ok (w', Some e)
        | (w', Stalled) => OutOfFuel
        end
    end
  else Ok (w, None).

(** Returns what was printed and the list of pages.  The lists of the
    walk grow without bound here: a walk that never ends is [OutOfFuel] for
    every fuel, where on a machine it lasts until [list.append] raises
    [MemoryError], which the [except] clause would catch. *)
Definition get_freelist_pages (fuel : nat) (data : bytes)
    (page_size freelist_trunk_page total_freelist_pages : Z)
  : res (list message * list Z) :=
  '(w, raised) <- trunk_loop fuel data page_size total_freelist_pages
                    (Walker [] 0 freelist_trunk_page []) ;;
  match raised with
  | None => Ok (printed w, freelist_pages w)
  | Some e =>
      if is_Exception e then
        Ok (printed w ++ [ErrorReadingFreelist e], freelist_pages w)
      else Raise e
  end.

(** ** 4.6 Recovery driver: [main], from the loaded file on *)

(** What the run shows to the outside: printed lines and the rows handed
    to the writer. *)
Inductive event : Type :=
| Print (m : message)
| Emit (row : list value).

Definition io (A : Type) : Type := list event * res A.

Definition io_ret {A} (a : A) : io A := ([], Ok a).

Definition io_bind {A B} (m : io A) (k : A -> io B) : io B :=
  match m with
  | (out, Ok a) => let '(out', r) := k a in (out ++ out', r)
  | (out, Raise e) => (out, Raise e)
  | (out, OutOfFuel) => (out, OutOfFuel)
  end.

Definition lift {A} (r : res A) : io A := ([], r).
Definition say (m : message) : io unit := ([Print m], Ok tt).
Definition emit (row : list value) : io unit := ([Emit row], Ok tt).
Definition sys_exit {A} (code : Z) : io A := ([], Raise (SystemExit code)).

Declare Scope io_scope.
Delimit Scope io_scope with io.
Notation "x <~ m ;; k" := (io_bind m (fun x => k))
  (at level 61, m at next level, right associativity) : io_scope.
Notation "m ;;; k" := (io_bind m (fun _ => k))
  (at level 61, right associativity) : io_scope.
Open Scope io_scope.

(** ["SQLite format 3\x00"] *)
Definition magic : bytes :=
  [x53; x51; x4c; x69; x74; x65; x20; x66;
   x6f; x72; x6d; x61; x74; x20; x33; x00].

Definition bytes_eqb (a b : bytes) : bool :=
  if list_eq_dec byte_eq_dec a b then true else false.

(** [a // b] *)
Definition floordiv (a b : Z) : res Z :=
  if b =? 0 then Raise ZeroDivisionError else Ok (a / b).

(** [for page_number in pages: parse_page(data, page_number, page_size,
    records)] *)
Fixpoint parse_pages (data : bytes) (page_size : Z) (pages : list Z)
    (records : list (list value)) : res (list (list value)) :=
  match pages with
  | [] => Ok records
  | page_number :: rest =>
      records' <- parse_page data page_number page_size records ;;
      parse_pages data page_size rest records'
  end.

Definition max_fields_of (records : list (list value)) : Z :=
  fold_left (fun max_fields record =>
               if len record >? max_fields then len record else max_fields)
            records 0.

(** [record.extend([None] * (max_fields - num_fields))] *)
Definition pad (max_fields : Z) (record : list value) : list value :=
  if len record <? max_fields
  then record ++ repeat VNone (Z.to_nat (max_fields - len record))
  else record.

Fixpoint emit_all (rows : list (list value)) : io unit :=
  match rows with
  | [] => io_ret tt
  | row :: rest => emit row ;;; emit_all rest
  end.

(** [main] after the file has been read into [data].  The writer (SQLite or
    CSV, with or without image extraction) is seen as the sequence of rows
    it is given; [fuel] bounds the turns of the free-list walk.  The writer
    is taken to accept every row: its own faults (sqlite3 refusing a table
    of more than 2000 columns, an output file that cannot be written) are
    not part of this model. *)
Definition main (fuel : nat) (data : bytes) : io unit :=
  if len data <? 100 then say FileTooSmall ;;; sys_exit 1
  else
    let file_header := slice data 0 100 in
    if negb (bytes_eqb (slice file_header 0 16) magic) then
      say NotSQLite3 ;;; sys_exit 1
    else
      page_size <~ lift (unpack_H (slice file_header 16 18)) ;;
      let page_size := if page_size =? 1 then 65536 else page_size in
      freelist_trunk_page <~ lift (unpack_I (slice file_header 32 36)) ;;
      total_freelist_pages <~ lift (unpack_I (slice file_header 36 40)) ;;
      freelist_pages <~
        (if negb (freelist_trunk_page =? 0) then
           walked <~ lift (get_freelist_pages fuel data page_size
                             freelist_trunk_page total_freelist_pages) ;;
           (map Print (fst walked), Ok (snd walked))
         else io_ret []) ;;
      num_pages <~ lift (floordiv (len data) page_size) ;;
      records <~ lift (parse_pages data page_size (range num_pages) []) ;;
      records <~
        (match freelist_pages with
         | _ :: _ => lift (parse_pages data page_size freelist_pages records)
         | [] => say NoFreelistPages ;;; io_ret records
         end) ;;
      match records with
      | [] => say NoRecordsRecovered ;;; sys_exit 1
      | _ :: _ =>
          let max_fields := max_fields_of records in
          emit_all (map (pad max_fields) records)
      end.

(** ** 4.7 Image signatures: [identify_image] *)

(** The format names the function returns: ['jpg'], ['png'], ['gif'],
    ['bmp'], ['tif'], ['ico']. *)
Inductive image_format : Type :=
| jpg
| png
| gif
| bmp
| tif
| ico.

(** The dictionary [signatures], in insertion order, which is the order
    its items are tried in. *)
Definition signatures : list (bytes * image_format) :=
  [ ([xff; xd8; xff], jpg);
    ([x89; x50; x4e; x47; x0d; x0a; x1a; x0a], png);
    ([x47; x49; x46; x38; x37; x61], gif);
    ([x47; x49; x46; x38; x39; x61], gif);
    ([x42; x4d], bmp);
    ([x49; x49; x2a; x00], tif);
    ([x4d; x4d; x00; x2a], tif);
    ([x00; x00; x01; x00], ico) ].

(** [max(len(sig) for sig in signatures)] *)
Definition max_sig_len : Z :=
  fold_right Z.max 0 (map (fun s => len (fst s)) signatures).

(** [data.startswith(prefix)] *)
Definition startswith (data prefix : bytes) : bool :=
  bytes_eqb (firstn (length prefix) data) prefix.

(** [for sig, fmt in signatures.items(): if blob_start.startswith(sig):
    return fmt], then [return None]. *)
Fixpoint first_match (blob_start : bytes) (sigs : list (bytes * image_format))
  : option image_format :=
  match sigs with
  | [] => None
  | (sig, fmt) :: rest =>
      if startswith blob_start sig then Some fmt
      else first_match blob_start rest
  end.

Definition identify_image (blob_data : bytes) : option image_format :=
  let blob_start := slice blob_data 0 max_sig_len in
  first_match blob_start signatures.

(** * Definitions used to state the properties *)

(** ** Varints *)

(** The varint as section 4.1 of the specification words it: the first
    eight bytes give their low 7 bits, a ninth byte gives all 8 bits;
    reading stops at the first byte below 0x80 or after the ninth byte, and
    fails when the bytes run out first.  [k] counts the 7-bit bytes still
    allowed, [bs] is the input from the offset on. *)
Fixpoint spec_varint (k : nat) (bs : bytes) (value consumed : Z)
  : res (Z * Z) :=
  match bs with
  | [] => Raise IndexError
  | b :: rest =>
      match k with
      | O => Ok (value * 256 + Z_of_byte b, consumed + 1)
      | S k' =>
          if Z_of_byte b <? 128
          then Ok (value * 128 + Z_of_byte b, consumed + 1)
          else spec_varint k' rest (value * 128 + Z_of_byte b mod 128)
                 (consumed + 1)
      end
  end.

Definition spec_read_varint (data : bytes) (offset : Z) : res (Z * Z) :=
  spec_varint 8 (skipn (Z.to_nat offset) data) 0 0.

(** [read_varint_loop] seen on the bytes from the current position on. *)
Fixpoint varint_at (k : nat) (bs : bytes) (i value : Z) : res (Z * Z) :=
  match k with
  | O => Ok (value, 9)
  | S k' =>
      match bs with
      | [] => Raise IndexError
      | b :: rest =>
          if Z_of_byte b <? 0x80 then
            Ok (Z.lor (Z.shiftl value 7) (Z_of_byte b), i + 1)
          else
            varint_at k' rest (i + 1)
              (Z.lor (Z.shiftl value 7) (Z.land (Z_of_byte b) 0x7F))
      end
  end.

(** The bytes a varint read looks at end where the varint ends, or at the
    end of the data when the read fails. *)
Definition varint_end (data : bytes) (offset : Z) (r : res (Z * Z)) : Z :=
  match r with
  | Ok (_, n) => offset + n
  | _ => len data
  end.

(** ** Serial types *)

(** The length [parse_serial_type] reports for a serial type. *)
Definition serial_type_length (serial_type : Z) : Z :=
  if (serial_type >=? 12) && (serial_type mod 2 =? 0) then
    (serial_type - 12) / 2
  else if (serial_type >=? 13) && (serial_type mod 2 =? 1) then
    (serial_type - 13) / 2
  else if serial_type =? 1 then 1
  else if serial_type =? 2 then 2
  else if serial_type =? 3 then 3
  else if serial_type =? 4 then 4
  else if serial_type =? 5 then 6
  else if serial_type =? 6 then 8
  else if serial_type =? 7 then 8
  else 0.

(** The serial types read with [struct.unpack], and their widths. *)
Definition fixed_width (serial_type : Z) : option Z :=
  if serial_type =? 1 then Some 1
  else if serial_type =? 2 then Some 2
  else if serial_type =? 4 then Some 4
  else if serial_type =? 6 then Some 8
  else if serial_type =? 7 then Some 8
  else None.

(** The value of a serial type that is not read with [struct.unpack], from
    the bytes [bs] that its slice holds. *)
Definition value_of_available (serial_type : Z) (bs : bytes) : value :=
  if (serial_type >=? 12) && (serial_type mod 2 =? 0) then VBytes bs
  else if (serial_type >=? 13) && (serial_type mod 2 =? 1) then
    VStr (Utf8.decode bs)
  else if (serial_type =? 3) || (serial_type =? 5) then
    VInt (int_from_bytes_signed bs)
  else if serial_type =? 8 then VInt 0
  else if serial_type =? 9 then VInt 1
  else VNone.

(** *** The on-disk form of a value (table of section 3) *)

(** The [w] big-endian bytes of [u], in two's complement when [u] is
    negative. *)
Fixpoint be_bytes (w : nat) (u : Z) : bytes :=
  match w with
  | O => []
  | S w' => be_bytes w' (u / 256) ++ [byte_of_Z u]
  end.

(** The width of the integer serial types 1 to 6. *)
Definition int_width (serial_type : Z) : option nat :=
  if serial_type =? 1 then Some 1%nat
  else if serial_type =? 2 then Some 2%nat
  else if serial_type =? 3 then Some 3%nat
  else if serial_type =? 4 then Some 4%nat
  else if serial_type =? 5 then Some 6%nat
  else if serial_type =? 6 then Some 8%nat
  else None.

(** [v] is a value of serial type [serial_type]: null for 0, an integer
    that fits the width for 1 to 6, a double for 7, the constants 0 and 1
    for 8 and 9, a blob or a text of the length the code gives.  Serial
    types 10 and 11 have no value. *)
Definition has_serial_type (serial_type : Z) (v : value) : bool :=
  match v with
  | VNone => serial_type =? 0
  | VInt z =>
      match int_width serial_type with
      | Some w =>
          (- 2 ^ (8 * Z.of_nat w - 1) <=? z) && (z <? 2 ^ (8 * Z.of_nat w - 1))
      | None =>
          ((serial_type =? 8) && (z =? 0)) || ((serial_type =? 9) && (z =? 1))
      end
  | VFloat bits => (serial_type =? 7) && (0 <=? bits) && (bits <? 2 ^ 64)
  | VBytes b =>
      (serial_type >=? 12) && (serial_type mod 2 =? 0)
      && (len b =? (serial_type - 12) / 2)
  | VStr s =>
      (serial_type >=? 13) && (serial_type mod 2 =? 1)
      && forallb Utf8.is_scalar s
      && (len (Utf8.encode s) =? (serial_type - 13) / 2)
  end.

Definition encode_value (serial_type : Z) (v : value) : bytes :=
  match v with
  | VNone => []
  | VInt z =>
      match int_width serial_type with
      | Some w => be_bytes w z
      | None => []
      end
  | VFloat bits => be_bytes 8 bits
  | VBytes b => b
  | VStr s => Utf8.encode s
  end.

(** ** Records *)

(** Some value read with [struct.unpack] has fewer bytes left in [data]
    than its width, the values being laid out from [value_offset] on. *)
Fixpoint fixed_width_runs_off (data : bytes) (value_offset : Z)
    (serial_types : list Z) : bool :=
  match serial_types with
  | [] => false
  | serial_type :: rest =>
      match fixed_width serial_type with
      | Some w =>
          negb (len (slice data value_offset (value_offset + w)) =? w)
      | None => false
      end
      || fixed_width_runs_off data
           (value_offset + serial_type_length serial_type) rest
  end.

(** Some value of the record, of whatever serial type, has a declared
    length that reaches past the end of [data]. *)
Fixpoint body_runs_off (data : bytes) (value_offset : Z)
    (serial_types : list Z) : bool :=
  match serial_types with
  | [] => false
  | serial_type :: rest =>
      (value_offset + serial_type_length serial_type >? len data)
      || body_runs_off data
           (value_offset + serial_type_length serial_type) rest
  end.

(** The value of a serial type read with [struct.unpack] (1, 2, 4, 6, 7),
    from the bytes [bs] of its slice when the slice is full: the signed
    big-endian integer of that width, for type 7 the bit pattern of the
    double. *)
Definition value_of_fixed (serial_type : Z) (bs : bytes) : value :=
  if serial_type =? 7 then VFloat (be_uint bs)
  else VInt (to_signed (len bs) (be_uint bs)).

(** The values of a record whose serial types are [serial_types] and whose
    values are laid out from [value_offset] on: each value is decoded
    from the bytes that its slice
    [data[value_offset : value_offset + length]] holds, which are fewer
    than [length] where the slice reaches past the end of [data]. *)
Fixpoint available_values (data : bytes) (value_offset : Z)
    (serial_types : list Z) : list value :=
  match serial_types with
  | [] => []
  | serial_type :: rest =>
      let length := serial_type_length serial_type in
      let bs := slice data value_offset (value_offset + length) in
      match fixed_width serial_type with
      | Some _ => value_of_fixed serial_type bs
      | None => value_of_available serial_type bs
      end
      :: available_values data (value_offset + length) rest
  end.

(** ** Pages *)

Definition page_of (data : bytes) (page_number page_size : Z) : bytes :=
  slice data (page_number * page_size) (page_number * page_size + page_size).

Definition page_type_of (page_data : bytes) : Z :=
  Z_of_byte (nth 0 page_data x00).

Definition header_size_of (page_type : Z) : Z :=
  if page_type =? 0x0D then 8 else 12.

Definition num_cells_of (page_data : bytes) : Z :=
  be_uint (slice page_data 3 5).

(** A page that [parse_page] goes on to read cells from. *)
Definition is_table_page (page_data : bytes) : bool :=
  (5 <=? len page_data)
  && ((page_type_of page_data =? 0x0D) || (page_type_of page_data =? 0x05)).

(** The pointer found in slot [i] of the cell-pointer array, if the slot
    lies within the page. *)
Definition pointer_at (page_data : bytes) (header_size i : Z) : list Z :=
  let ptr_offset := header_size + i * 2 in
  if ptr_offset + 2 >? len page_data then []
  else [be_uint (slice page_data ptr_offset (ptr_offset + 2))].

Definition page_cell_pointers (page_data : bytes) : list Z :=
  if is_table_page page_data then
    flat_map (pointer_at page_data (header_size_of (page_type_of page_data)))
             (range (num_cells_of page_data))
  else [].

(** The rows one cell adds to the accumulator: none or one. *)
Definition cell_rows (page_type : Z) (page_data : bytes) (cell_pointer : Z)
  : list (list value) :=
  match read_cell page_type page_data cell_pointer with
  | Ok record => append_if_truthy [] record
  | _ => []
  end.

(** The rows a page adds to the accumulator, in cell-pointer order. *)
Definition page_rows (page_data : bytes) : list (list value) :=
  flat_map (cell_rows (page_type_of page_data) page_data)
           (page_cell_pointers page_data).

(** *** A cell as sections 3 and 4.4 of the specification word it *)

(** [cell] holds the bytes of the page from the cell pointer on.  Read a
    payload-length varint; on an interior page, a varint taken as the
    left-child page number and dropped; a rowid varint, dropped; then take
    the next [payload_length] bytes and hand them to the record decoder. *)
Definition spec_cell (interior : bool) (cell : bytes)
  : res (option (list value)) :=
  '(payload_length, n) <- read_varint cell 0 ;;
  let cell := skipn (Z.to_nat n) cell in
  cell <- (if interior then
             '(_, n) <- read_varint cell 0 ;; Ok (skipn (Z.to_nat n) cell)
           else Ok cell) ;;
  '(_, n) <- read_varint cell 0 ;;
  let cell := skipn (Z.to_nat n) cell in
  parse_record (firstn (Z.to_nat payload_length) cell) 0 payload_length.

(** The rows a cell read that way adds: a fault or an empty record adds
    none. *)
Definition spec_cell_rows (interior : bool) (cell : bytes)
  : list (list value) :=
  match spec_cell interior cell with
  | Ok record => append_if_truthy [] record
  | _ => []
  end.

(** *** Two page images that differ inside one byte range *)

(** The end (exclusive) of the bytes [read_cell] looks at for the cell at
    [cell_pointer]: the end of its payload, cut at the end of the page, or
    the end of the page when one of its varints runs off the page. *)
Definition cell_end (page_type : Z) (page_data : bytes) (cell_pointer : Z)
  : Z :=
  match read_varint page_data cell_pointer with
  | Ok (payload_length, n1) =>
      match (if page_type =? 0x05 then
               '(_, n) <- read_varint page_data (cell_pointer + n1) ;;
               Ok (cell_pointer + n1 + n)
             else Ok (cell_pointer + n1)) with
      | Ok cell_offset =>
          match read_varint page_data cell_offset with
          | Ok (_, n3) =>
              Z.min (len page_data) (cell_offset + n3 + payload_length)
          | _ => len page_data
          end
      | _ => len page_data
      end
  | _ => len page_data
  end.

(** The end of the page header and cell-pointer array. *)
Definition header_end (page_data : bytes) : Z :=
  header_size_of (page_type_of page_data) + 2 * num_cells_of page_data.

(** [p'] has the length of [p] and the same bytes outside [lo, hi). *)
Definition agree_outside (lo hi : Z) (p p' : bytes) : bool :=
  (len p' =? len p)
  && forallb (fun j =>
                ((lo <=? j) && (j <? hi))
                || (Z_of_byte (nth (Z.to_nat j) p' x00)
                    =? Z_of_byte (nth (Z.to_nat j) p x00)))
             (range (len p)).

(** None of the cells at [cell_pointers] has a byte in [lo, hi). *)
Definition cells_clear_of (page_type : Z) (page_data : bytes) (lo hi : Z)
    (cell_pointers : list Z) : bool :=
  forallb (fun ptr =>
             (cell_end page_type page_data ptr <=? lo) || (hi <=? ptr))
          cell_pointers.

(** The same bytes at every position of [a, b). *)
Definition agree_on (a b : Z) (p p' : bytes) : Prop :=
  forall j, 0 <= j -> a <= j < b ->
    nth (Z.to_nat j) p' x00 = nth (Z.to_nat j) p x00.

(** ** Concrete inputs *)

Definition nine_ff : bytes := [xff; xff; xff; xff; xff; xff; xff; xff; xff].

(** A five-byte payload holding the row (42, "h"). *)
Definition small_payload : bytes := [x03; x01; x0f; x2a; x68].

(** A two-byte payload: header length 2, one serial type 14 (a blob of one
    byte), and no body byte. *)
Definition blob_overrun_payload : bytes := [x02; x0e].

(** A payload of 4 bytes: header length 3, serial types 3 (a 3-byte
    integer) and 17 (a text of 2 bytes), and the one byte 0xFF where 5
    bytes of values are declared. *)
Definition cut_values_payload : bytes := [x03; x03; x11; xff].

(** A one-byte page image that starts like a table-leaf page. *)
Definition short_leaf_page : bytes := [x0d].

(** A leaf page with one cell at offset 10 whose record has an empty
    header (header length 1, no serial types). *)
Definition empty_record_page : bytes :=
  [x0d; x00; x00; x00; x01; x00; x00; x00; x00; x0a; x01; x07; x01].

(** A table-interior page of 22 bytes with one cell at offset 14: payload
    length 5, left child 2, rowid 1 and the payload of the row (42, "h"). *)
Definition interior_page : bytes :=
  [x05; x00; x00; x00; x01; x00; x00; x00; x00; x00; x00; x00;
   x00; x0e;
   x05; x02; x01; x03; x01; x0f; x2a; x68].

(** A leaf page of 35 bytes with three cells, at offsets 14, 21 and 28:
    the rows (42, "h"), (43, "i") and (44, "j").  The second cell declares
    a payload of 30 bytes, so that its payload slice runs to the end of
    the page, over the bytes of the third cell. *)
Definition long_page : bytes :=
  [x0d; x00; x00; x00; x03; x00; x00; x00;
   x00; x0e; x00; x15; x00; x1c;
   x05; x01; x03; x01; x0f; x2a; x68;
   x1e; x02; x03; x01; x0f; x2b; x69;
   x05; x03; x03; x01; x0f; x2c; x6a].

(** [long_page] with the bytes of its third cell, 28 to 34, set to zero. *)
Definition long_page_corrupted : bytes :=
  [x0d; x00; x00; x00; x03; x00; x00; x00;
   x00; x0e; x00; x15; x00; x1c;
   x05; x01; x03; x01; x0f; x2a; x68;
   x1e; x02; x03; x01; x0f; x2b; x69;
   x00; x00; x00; x00; x00; x00; x00].

(** A file of 100 zero bytes: long enough, but without the magic string. *)
Definition zero_image : bytes := repeat x00 100.

(** The first 100 bytes of a database image with page size 512, first
    free-list trunk page 2 and one declared free page, and the rest of its
    first page. *)
Definition header_with_freelist : bytes :=
  magic ++ [x02; x00] ++ repeat x00 14
        ++ [x00; x00; x00; x02] ++ [x00; x00; x00; x01]
        ++ repeat x00 60 ++ repeat x00 412.

(** A two-page image whose page 2, the free-list trunk, names itself as
    the next trunk and lists no leaf. *)
Definition cyclic_image : bytes :=
  header_with_freelist
    ++ [x00; x00; x00; x02] ++ [x00; x00; x00; x00] ++ repeat x00 504.

(** An image of two pages and one more byte, 0x0D: page 2, the free-list
    trunk, ends the chain and lists page 3 as its one leaf. *)
Definition partial_page_image : bytes :=
  header_with_freelist
    ++ [x00; x00; x00; x00] ++ [x00; x00; x00; x01]
    ++ [x00; x00; x00; x03] ++ repeat x00 500
    ++ [x0d].

(** ** Writing a varint *)

(** The continuation bytes of a varint, most significant group first: the
    7-bit groups of [u], each with the high bit set; [k] bounds their
    number. *)
Fixpoint varint_groups (k : nat) (u : Z) : bytes :=
  match k with
  | O => []
  | S k' =>
      if u =? 0 then []
      else varint_groups k' (u / 128) ++ [byte_of_Z (0x80 + u mod 128)]
  end.

(** The SQLite varint of a value below 2^56: its 7-bit groups, big-endian,
    all but the last with the high bit set (1 to 8 bytes).  The program
    only reads varints; this states what it reads back. *)
Definition encode_varint (v : Z) : bytes :=
  varint_groups 7 (v / 128) ++ [byte_of_Z (v mod 128)].

(** ** Writing a record and a cell *)

(** A record header: the varint of the header length [hl], then the
    varints of the serial types. *)
Definition encode_header (hl : Z) (serial_types : list Z) : bytes :=
  encode_varint hl ++ flat_map encode_varint serial_types.

(** A record of columns, each a serial type with a value: the header,
    then the on-disk forms of the values in the same order. *)
Definition encode_record (hl : Z) (cols : list (Z * value)) : bytes :=
  encode_header hl (map fst cols)
  ++ flat_map (fun c => encode_value (fst c) (snd c)) cols.

(** The columns are values of their serial types, the serial types and
    the header length have varints of at most 8 bytes, and [hl] is the
    length of the header. *)
Definition well_formed_record (hl : Z) (cols : list (Z * value)) : bool :=
  forallb (fun c => has_serial_type (fst c) (snd c) && (fst c <? 2 ^ 56)) cols
  && (0 <=? hl) && (hl <? 2 ^ 56)
  && (hl =? len (encode_header hl (map fst cols))).

(** A cell of a table page: the payload-length varint, on an interior
    page a left-child varint, the rowid varint, and the payload. *)
Definition encode_cell (left_child : option Z) (rowid : Z) (payload : bytes)
  : bytes :=
  encode_varint (len payload)
  ++ match left_child with
     | Some page => encode_varint page
     | None => []
     end
  ++ encode_varint rowid ++ payload.

(** A cell to be written on a table page: the left-child page number
    of an interior cell, the rowid, and the record with its header
    length. *)
Record cell : Type := Cell {
  cell_left_child : option Z;
  cell_rowid : Z;
  cell_header_length : Z;
  cell_columns : list (Z * value)
}.

Definition cell_bytes (c : cell) : bytes :=
  encode_cell (cell_left_child c) (cell_rowid c)
    (encode_record (cell_header_length c) (cell_columns c)).

(** The record of the cell is well formed, its varints have at most 8
    bytes, and it has a left child exactly on an interior page. *)
Definition well_formed_cell (page_type : Z) (c : cell) : bool :=
  well_formed_record (cell_header_length c) (cell_columns c)
  && (0 <=? cell_rowid c) && (cell_rowid c <? 2 ^ 56)
  && (len (encode_record (cell_header_length c) (cell_columns c)) <? 2 ^ 56)
  && match cell_left_child c with
     | Some page => (page_type =? 0x05) && (0 <=? page) && (page <? 2 ^ 56)
     | None => negb (page_type =? 0x05)
     end.

(** The bytes of the page from [ptr] on begin with the cell. *)
Definition holds_cell (page_data : bytes) (ptr : Z) (c : cell) : bool :=
  bytes_eqb (firstn (length (cell_bytes c)) (skipn (Z.to_nat ptr) page_data))
            (cell_bytes c).

(** The row a cell gives: its values, unless it has no column. *)
Definition row_of_cell (c : cell) : list (list value) :=
  match map snd (cell_columns c) with
  | [] => []
  | row => [row]
  end.

(** A leaf page of 23 bytes with two cells, at offsets 12 and 19: the row
    (42, "h") with rowid 1 and a record without columns with rowid 2. *)
Definition leaf_page_with_empty_row : bytes :=
  [x0d; x00; x00; x00; x02; x00; x00; x00;
   x00; x0c; x00; x13;
   x05; x01; x03; x01; x0f; x2a; x68;
   x01; x02; x01; x00].

(** An interior page of 20 bytes with one cell at offset 12: left child
    7, rowid 1 and the row (42, "h"). *)
Definition interior_cell_page : bytes :=
  [x05; x00; x00; x00; x01; x00; x00; x00; x00; x00; x00; x00;
   x05; x07; x01; x03; x01; x0f; x2a; x68].

(** ** Lines of the free-list walk *)

(** The three lines the walk prints on its own account, as opposed to the
    line of its [except] clause and the lines of the driver. *)
Definition is_walk_diagnostic (m : message) : bool :=
  match m with
  | PageOffsetOutOfBounds _ => true
  | InsufficientTrunkData _ => true
  | InsufficientLeafData _ _ => true
  | _ => false
  end.

(** Two pages of 12 bytes, each a free-list trunk with one leaf: page 1
    names page 2 as next trunk and leaf 5, page 2 ends the chain with
    leaf 0. *)
Definition two_trunk_image : bytes :=
  [x00; x00; x00; x02; x00; x00; x00; x01; x00; x00; x00; x05;
   x00; x00; x00; x00; x00; x00; x00; x01; x00; x00; x00; x00].

(** The trunk pages the walk goes through, at most [k] of them, from trunk
    page [t] on: each trunk names the next in its first four bytes; the
    chain ends at page number 0 and at a page that does not lie within
    the data. *)
Fixpoint trunk_chain (k : nat) (data : bytes) (page_size t : Z) : list Z :=
  match k with
  | O => []
  | S k' =>
      if (t =? 0) || ((t - 1) * page_size + page_size >? len data) then []
      else t :: trunk_chain k' data page_size
                  (be_uint (slice (page_of data (t - 1) page_size) 0 4))
  end.

(** The number of leaf entries that trunk page [t] declares. *)
Definition leaf_count (data : bytes) (page_size t : Z) : Z :=
  be_uint (slice (page_of data (t - 1) page_size) 4 8).

(** [two_trunk_image] followed by a page of zeros that is not on the free
    list. *)
Definition two_trunks_and_zero_page : bytes :=
  two_trunk_image ++ repeat x00 12.

(** ** The driver up to its output stage *)

(** [main] from the loaded file to the end of the recovery (lines 199 to
    240 of [extract.py]), where the output stage begins: the result is
    the list [records] with [max_fields], or the run has ended before.
    Nothing of the writer takes part. *)
Definition main_recovery (fuel : nat) (data : bytes)
  : io (list (list value) * Z) :=
  if len data <? 100 then say FileTooSmall ;;; sys_exit 1
  else
    let file_header := slice data 0 100 in
    if negb (bytes_eqb (slice file_header 0 16) magic) then
      say NotSQLite3 ;;; sys_exit 1
    else
      page_size <~ lift (unpack_H (slice file_header 16 18)) ;;
      let page_size := if page_size =? 1 then 65536 else page_size in
      freelist_trunk_page <~ lift (unpack_I (slice file_header 32 36)) ;;
      total_freelist_pages <~ lift (unpack_I (slice file_header 36 40)) ;;
      freelist_pages <~
        (if negb (freelist_trunk_page =? 0) then
           walked <~ lift (get_freelist_pages fuel data page_size
                             freelist_trunk_page total_freelist_pages) ;;
           (map Print (fst walked), Ok (snd walked))
         else io_ret []) ;;
      num_pages <~ lift (floordiv (len data) page_size) ;;
      records <~ lift (parse_pages data page_size (range num_pages) []) ;;
      records <~
        (match freelist_pages with
         | _ :: _ => lift (parse_pages data page_size freelist_pages records)
         | [] => say NoFreelistPages ;;; io_ret records
         end) ;;
      match records with
      | [] => say NoRecordsRecovered ;;; sys_exit 1
      | _ :: _ => io_ret (records, max_fields_of records)
      end.

(** ** Images for the driver *)

(** The rows of the pages [pages], in that order, as [parse_pages] adds
    them when no page faults. *)
Definition rows_of_pages (data : bytes) (page_size : Z) (pages : list Z)
  : list (list value) :=
  flat_map (fun page_number => page_rows (page_of data page_number page_size))
           pages.

(** The page size the driver works with, from the two bytes at offset 16
    of the header. *)
Definition page_size_of (data : bytes) : Z :=
  let field := be_uint (slice data 16 18) in
  if field =? 1 then 65536 else field.

(** Two pages of 128 bytes without a free list; page 2 is
    [leaf_page_with_empty_row]. *)
Definition plain_image : bytes :=
  magic ++ [x00; x80] ++ repeat x00 110
        ++ leaf_page_with_empty_row ++ repeat x00 105.

(** A header of 100 bytes with page size field 0, first trunk page 2 and
    one free page declared. *)
Definition zero_page_size_image : bytes :=
  magic ++ [x00; x00] ++ repeat x00 14
        ++ [x00; x00; x00; x02] ++ [x00; x00; x00; x01] ++ repeat x00 60.

(** Three pages of 512 bytes: page 2 is the free-list trunk, which lists
    page 3 as its one leaf; page 3 is [leaf_page_with_empty_row]. *)
Definition free_leaf_image : bytes :=
  header_with_freelist
    ++ [x00; x00; x00; x00] ++ [x00; x00; x00; x01]
    ++ [x00; x00; x00; x03] ++ repeat x00 500
    ++ leaf_page_with_empty_row ++ repeat x00 489.

(** * Properties *)

(** ** Bytes, indexing and slicing *)

Ltac divmod := Z.to_euclidean_division_equations; lia.

(** Turn boolean tests in the hypotheses into facts on integers. *)
Ltac bool_facts :=
  repeat match goal with
    | H : negb _ = false |- _ => apply negb_false_iff in H
    | H : negb _ = true |- _ => apply negb_true_iff in H
    | H : _ || _ = false |- _ => apply orb_false_iff in H; destruct H
    | H : _ || _ = true |- _ => apply orb_true_iff in H; destruct H
    | H : _ && _ = true |- _ => apply andb_true_iff in H; destruct H
    | H : _ && _ = false |- _ => apply andb_false_iff in H; destruct H
    | H : (_ <? _) = true |- _ => apply Z.ltb_lt in H
    | H : (_ <? _) = false |- _ => apply Z.ltb_ge in H
    | H : (_ <=? _) = true |- _ => apply Z.leb_le in H
    | H : (_ <=? _) = false |- _ => apply Z.leb_gt in H
    | H : (_ =? _) = true |- _ => apply Z.eqb_eq in H
    | H : (_ =? _) = false |- _ => apply Z.eqb_neq in H
    | H : (if ?c then _ else _) = _ |- _ => destruct c eqn:?
    end.

Lemma Z_of_byte_range (b : byte) : 0 <= Z_of_byte b < 256.
Proof.
  unfold Z_of_byte. pose proof (Byte.to_N_bounded b). lia.
Qed.

Lemma Z_of_byte_of_Z (x : Z) : Z_of_byte (byte_of_Z x) = x mod 256.
Proof.
  unfold Z_of_byte, byte_of_Z.
  assert (Hr : 0 <= x mod 256 < 256) by (apply Z.mod_pos_bound; lia).
  destruct (Byte.of_N (Z.to_N (x mod 256))) as [b|] eqn:E.
  - apply Byte.to_of_N in E. rewrite E. lia.
  - apply Byte.of_N_None_iff in E. lia.
Qed.

Lemma Z_of_byte_of_Z_small (x : Z) :
  0 <= x < 256 -> Z_of_byte (byte_of_Z x) = x.
Proof.
  intros H. rewrite Z_of_byte_of_Z. now apply Z.mod_small.
Qed.

Lemma Z_of_byte_inj (a b : byte) : Z_of_byte a = Z_of_byte b -> a = b.
Proof.
  unfold Z_of_byte. intros H. apply N2Z.inj in H.
  pose proof (Byte.of_to_N a) as Ha. rewrite H, Byte.of_to_N in Ha.
  congruence.
Qed.

Lemma len_nonneg {A} (l : list A) : 0 <= len l.
Proof. unfold len. lia. Qed.

Lemma index_ok (data : bytes) (k : Z) :
  0 <= k < len data ->
  index data k = Ok (Z_of_byte (nth (Z.to_nat k) data x00)).
Proof.
  intros H. unfold index.
  replace (0 <=? k) with true by (symmetry; apply Z.leb_le; lia).
  replace (k <? len data) with true by (symmetry; apply Z.ltb_lt; lia).
  reflexivity.
Qed.

Lemma index_outcome (data : bytes) (k : Z) :
  (exists b, index data k = Ok b /\ 0 <= b < 256)
  \/ index data k = Raise IndexError.
Proof.
  unfold index.
  destruct ((0 <=? k) && (k <? len data));
    [left; eexists; split; [reflexivity|apply Z_of_byte_range]|].
  destruct ((- len data <=? k) && (k <? 0));
    [left; eexists; split; [reflexivity|apply Z_of_byte_range]|].
  now right.
Qed.

(** A slice with bounds [0 <= a <= b] is the [b - a] bytes from [a] on,
    as far as there are any. *)
Lemma slice_firstn_skipn {A} (data : list A) (a b : Z) :
  0 <= a <= b ->
  slice data a b = firstn (Z.to_nat (b - a)) (skipn (Z.to_nat a) data).
Proof.
  intros H. unfold slice, clamp.
  destruct (Z.ltb_spec a 0); [lia|]. destruct (Z.ltb_spec b 0); [lia|].
  destruct (Z.le_gt_cases a (len data)) as [Ha|Ha].
  - rewrite (Z.min_l a) by lia.
    destruct (Z.le_gt_cases b (len data)) as [Hb|Hb].
    + rewrite Z.min_l by lia. reflexivity.
    + rewrite Z.min_r by lia.
      rewrite !firstn_all2; [reflexivity| |];
        rewrite length_skipn; unfold len in *; lia.
  - rewrite !(skipn_all2 data) by (unfold len in *; lia).
    now rewrite !firstn_nil.
Qed.

Lemma slice_0 {A} (data : list A) (n : Z) :
  0 <= n -> slice data 0 n = firstn (Z.to_nat n) data.
Proof.
  intros H. rewrite slice_firstn_skipn by lia.
  now rewrite Z.sub_0_r.
Qed.

Lemma len_slice {A} (data : list A) (a b : Z) :
  0 <= a <= b -> len (slice data a b) = Z.max 0 (Z.min b (len data) - a).
Proof.
  intros H. rewrite slice_firstn_skipn by lia.
  unfold len. rewrite length_firstn, length_skipn. lia.
Qed.

(** From a non-negative offset, a slice of width [w] is full exactly when
    [w] bytes are left. *)
Lemma slice_full_iff {A} (data : list A) (offset w : Z) :
  0 <= offset -> 0 <= w ->
  len (slice data offset (offset + w)) = w <-> offset + w <= len data \/ w = 0.
Proof.
  intros Ho Hw. rewrite len_slice by lia. lia.
Qed.

Lemma slice_app_middle {A} (pre mid post : list A) (n : Z) :
  n = len mid ->
  slice (pre ++ mid ++ post) (len pre) (len pre + n) = mid.
Proof.
  intros ->. pose proof (len_nonneg pre). pose proof (len_nonneg mid).
  rewrite slice_firstn_skipn by lia.
  unfold len. rewrite Nat2Z.id.
  rewrite skipn_app, skipn_all, Nat.sub_diag. cbn [skipn app].
  replace (Z.to_nat (Z.of_nat (length pre) + Z.of_nat (length mid)
                     - Z.of_nat (length pre))) with (length mid) by lia.
  rewrite firstn_app, firstn_all, Nat.sub_diag. cbn. apply app_nil_r.
Qed.

Lemma skipn_add (data : bytes) (a b : Z) :
  0 <= a -> 0 <= b ->
  skipn (Z.to_nat (a + b)) data = skipn (Z.to_nat b) (skipn (Z.to_nat a) data).
Proof.
  intros Ha Hb. rewrite skipn_skipn. f_equal. lia.
Qed.

Lemma be_uint_acc_nonneg (bs : bytes) :
  forall acc, 0 <= acc ->
    0 <= fold_left (fun acc b => acc * 256 + Z_of_byte b) bs acc.
Proof.
  induction bs as [|b bs IH]; intros acc Hacc; cbn; [exact Hacc|].
  apply IH. pose proof (Z_of_byte_range b). lia.
Qed.

Lemma be_uint_nonneg (bs : bytes) : 0 <= be_uint bs.
Proof. apply be_uint_acc_nonneg. lia. Qed.

Lemma be_uint_snoc (bs : bytes) (b : byte) :
  be_uint (bs ++ [b]) = be_uint bs * 256 + Z_of_byte b.
Proof. unfold be_uint. now rewrite fold_left_app. Qed.

Lemma in_range (n i : Z) : In i (range n) <-> 0 <= i < n.
Proof.
  unfold range. rewrite in_map_iff. split.
  - intros [k [<- Hk]]. apply in_seq in Hk. lia.
  - intros H. exists (Z.to_nat i). split; [lia|]. apply in_seq. lia.
Qed.

Lemma flat_map_ext_on {A B} (f g : A -> list B) (l : list A) :
  (forall a, In a l -> f a = g a) -> flat_map f l = flat_map g l.
Proof.
  induction l as [|a l IH]; intros H; cbn; [reflexivity|].
  rewrite H by (now left). rewrite IH; [reflexivity|].
  intros b Hb. apply H. now right.
Qed.

(** ** 4.1 Varint decoder *)

Lemma read_varint_loop_varint_at (k : nat) :
  forall data offset i value,
    0 <= offset + i ->
    read_varint_loop k data offset i value
    = varint_at k (skipn (Z.to_nat (offset + i)) data) i value.
Proof.
  induction k as [|k IH]; intros data offset i value Hpos; simpl.
  - reflexivity.
  - destruct (offset + i >=? len data) eqn:Hge.
    + rewrite skipn_all2; [reflexivity|].
      apply Z.geb_le in Hge. unfold len in Hge. lia.
    + rewrite Z.geb_leb in Hge. apply Z.leb_gt in Hge.
      rewrite index_ok by lia. simpl bind.
      assert (Hn : (Z.to_nat (offset + i) < length data)%nat)
        by (unfold len in Hge; lia).
      destruct (skipn (Z.to_nat (offset + i)) data) as [|b rest] eqn:Hsk.
      * apply (f_equal (@length byte)) in Hsk.
        rewrite length_skipn in Hsk. simpl in Hsk. lia.
      * assert (Hnth : nth (Z.to_nat (offset + i)) data x00 = b).
        { rewrite <- (Nat.add_0_r (Z.to_nat (offset + i))).
          rewrite <- nth_skipn, Hsk. reflexivity. }
        rewrite Hnth.
        destruct (Z_of_byte b <? 128); [reflexivity|].
        rewrite IH by lia.
        replace (Z.to_nat (offset + (i + 1)))
          with (S (Z.to_nat (offset + i))) by lia.
        change (S (Z.to_nat (offset + i))) with (1 + Z.to_nat (offset + i))%nat.
        rewrite <- skipn_skipn, Hsk. reflexivity.
Qed.

Lemma read_varint_varint_at (data : bytes) (offset : Z) :
  0 <= offset ->
  read_varint data offset = varint_at 9 (skipn (Z.to_nat offset) data) 0 0.
Proof.
  intros H. unfold read_varint.
  rewrite read_varint_loop_varint_at by lia.
  now rewrite Z.add_0_r.
Qed.

(** Reading at a non-negative offset is reading the rest of the data at 0. *)
Lemma read_varint_skipn (data : bytes) (offset : Z) :
  0 <= offset ->
  read_varint data offset = read_varint (skipn (Z.to_nat offset) data) 0.
Proof.
  intros H. rewrite !read_varint_varint_at by lia. reflexivity.
Qed.

Lemma read_varint_loop_outcome (k : nat) :
  forall data offset i value,
    0 <= i -> i + Z.of_nat k = 9 ->
    (exists v n, read_varint_loop k data offset i value = Ok (v, n)
                 /\ i <= n <= 9 /\ (k <> 0%nat -> i < n))
    \/ read_varint_loop k data offset i value = Raise IndexError.
Proof.
  induction k as [|k IH]; intros data offset i value Hi Hk.
  - left. exists value, 9. simpl. split; [reflexivity|]. split; lia.
  - cbn [read_varint_loop].
    destruct (offset + i >=? len data); [now right|].
    destruct (index_outcome data (offset + i)) as [[b [Hb Hr]]|Hb];
      rewrite Hb; cbn [bind]; [|now right].
    destruct (b <? 128).
    + left. do 2 eexists. split; [reflexivity|]. split; lia.
    + destruct (IH data offset (i + 1)
                  (Z.lor (Z.shiftl value 7) (Z.land b 127)))
        as [[v [n [Hv [Hn Hn9]]]]|Hraise]; try lia.
      * left. exists v, n. split; [exact Hv|]. split; lia.
      * now right.
Qed.

(** [read_varint] returns a value with 1 to 9 bytes consumed, or raises
    [IndexError]; it stops after nine bytes at the latest. *)
Lemma read_varint_outcome (data : bytes) (offset : Z) :
  (exists v n, read_varint data offset = Ok (v, n)
               /\ 1 <= n <= 9 /\ offset < len data)
  \/ read_varint data offset = Raise IndexError.
Proof.
  destruct (read_varint_loop_outcome 9 data offset 0 0)
    as [[v [n [Hv [Hn Hn9]]]]|Hraise]; try lia.
  - left. exists v, n. split; [exact Hv|].
    split; [lia|].
    unfold read_varint in Hv. cbn [read_varint_loop] in Hv.
    destruct (Z.geb_spec (offset + 0) (len data)); [discriminate|lia].
  - now right.
Qed.

Lemma read_varint_loop_nonneg (k : nat) :
  forall data offset i value v n,
    0 <= value ->
    read_varint_loop k data offset i value = Ok (v, n) -> 0 <= v.
Proof.
  induction k as [|k IH]; intros data offset i value v n Hval H.
  - cbn in H. injection H as <- _. exact Hval.
  - cbn [read_varint_loop] in H.
    destruct (offset + i >=? len data); [discriminate|].
    destruct (index_outcome data (offset + i)) as [[b [Hb Hr]]|Hb];
      rewrite Hb in H; cbn [bind] in H; [|discriminate].
    destruct (b <? 128).
    + assert (Hv : v = Z.lor (Z.shiftl value 7) b) by congruence.
      rewrite Hv, Z.lor_nonneg, Z.shiftl_nonneg. lia.
    + eapply IH; [|exact H].
      rewrite Z.lor_nonneg, Z.shiftl_nonneg, Z.land_nonneg. lia.
Qed.

Lemma read_varint_nonneg (data : bytes) (offset v n : Z) :
  read_varint data offset = Ok (v, n) -> 0 <= v.
Proof.
  apply read_varint_loop_nonneg. lia.
Qed.

Lemma read_varint_loop_within (k : nat) :
  forall data offset i value v n,
    i + Z.of_nat k = 9 -> k <> 0%nat ->
    read_varint_loop k data offset i value = Ok (v, n) ->
    offset + n <= len data.
Proof.
  induction k as [|k IH]; intros data offset i value v n Hik Hk H;
    [congruence|].
  cbn [read_varint_loop] in H.
  destruct (Z.geb_spec (offset + i) (len data)); [discriminate|].
  destruct (index_outcome data (offset + i)) as [[b [Hb Hr]]|Hb];
    rewrite Hb in H; cbn [bind] in H; [|discriminate].
  destruct (b <? 128).
  - assert (n = i + 1) by congruence. lia.
  - destruct k as [|k'].
    + cbn in H. assert (n = 9) by congruence. lia.
    + eapply IH; [| |exact H]; [lia|discriminate].
Qed.

(** The bytes a varint consumes lie within the data. *)
Lemma read_varint_within (data : bytes) (offset v n : Z) :
  read_varint data offset = Ok (v, n) -> offset + n <= len data.
Proof.
  apply read_varint_loop_within; [reflexivity|discriminate].
Qed.

Lemma lor_shiftl_low (v b : Z) :
  0 <= b < 128 -> Z.lor (Z.shiftl v 7) b = v * 128 + b.
Proof.
  intros Hb.
  assert (Hland : Z.land (Z.shiftl v 7) b = 0).
  { apply Z.bits_inj'. intros i Hi.
    rewrite Z.land_spec, Z.bits_0.
    destruct (Z.ltb_spec i 7).
    - rewrite Z.shiftl_spec_low by lia. reflexivity.
    - replace b with (b mod 2 ^ 7) by (apply Z.mod_small; simpl; lia).
      rewrite Z.mod_pow2_bits_high by lia. apply andb_false_r. }
  pose proof (Z.add_lor_land (Z.shiftl v 7) b) as H.
  rewrite Hland, Z.add_0_r in H. rewrite H.
  rewrite Z.shiftl_mul_pow2 by lia. reflexivity.
Qed.

Lemma land_7f (b : Z) : Z.land b 0x7F = b mod 128.
Proof.
  change 0x7F with (Z.ones 7). rewrite Z.land_ones by lia. reflexivity.
Qed.

(** The decoder and the specification's varint agree whenever the varint
    ends within its first eight bytes, and whenever the bytes run out. *)
Lemma varint_at_spec_varint (k : nat) :
  forall bs i v,
    match spec_varint k bs v i with
    | Ok (r, n) => n - i <= Z.of_nat k -> varint_at (S k) bs i v = Ok (r, n)
    | Raise e => varint_at (S k) bs i v = Raise e
    | OutOfFuel => True
    end.
Proof.
  induction k as [|k IH]; intros bs i v.
  - destruct bs as [|b rest]; simpl; [reflexivity|]. intros H. lia.
  - destruct bs as [|b rest]; [reflexivity|].
    cbn [spec_varint].
    change (varint_at (S (S k)) (b :: rest) i v)
      with (if Z_of_byte b <? 0x80
            then Ok (Z.lor (Z.shiftl v 7) (Z_of_byte b), i + 1)
            else varint_at (S k) rest (i + 1)
                   (Z.lor (Z.shiftl v 7) (Z.land (Z_of_byte b) 0x7F))).
    pose proof (Z_of_byte_range b) as Hb.
    destruct (Z.ltb_spec (Z_of_byte b) 128) as [Hlt|Hge].
    + intros _. rewrite lor_shiftl_low by lia. reflexivity.
    + rewrite land_7f.
      rewrite lor_shiftl_low by (apply Z.mod_pos_bound; lia).
      specialize (IH rest (i + 1) (v * 128 + Z_of_byte b mod 128)).
      destruct (spec_varint k rest (v * 128 + Z_of_byte b mod 128) (i + 1))
        as [[r n]| |]; auto.
      intros H. apply IH. lia.
Qed.

Lemma read_varint_agrees_below_nine (data : bytes) (offset v n : Z) :
  0 <= offset ->
  spec_read_varint data offset = Ok (v, n) ->
  n <= 8 ->
  read_varint data offset = Ok (v, n).
Proof.
  intros Hoff Hspec Hn.
  rewrite read_varint_varint_at by assumption.
  pose proof (varint_at_spec_varint 8 (skipn (Z.to_nat offset) data) 0 0) as H.
  unfold spec_read_varint in Hspec. rewrite Hspec in H.
  apply H. simpl. lia.
Qed.

(** C1: on nine bytes 0xFF the decoder returns 2^63 - 1: the ninth byte
    gives only its low 7 bits, where the varint of the specification
    (full 8 bits of the ninth byte) is 2^64 - 1. *)
Theorem read_varint_ninth_byte_seven_bits :
  read_varint nine_ff 0 = Ok (2 ^ 63 - 1, 9)
  /\ spec_read_varint nine_ff 0 = Ok (2 ^ 64 - 1, 9).
Proof.
  split; vm_compute; reflexivity.
Qed.

(** ** 4.2 Serial-type decoder: faults *)

(** Split on the tests of [parse_serial_type], in its order. *)
Ltac serial_cases st :=
  unfold parse_serial_type, serial_type_length, fixed_width,
    value_of_available;
  destruct ((st >=? 12) && (st mod 2 =? 0)) eqn:Hblob;
  [|destruct ((st >=? 13) && (st mod 2 =? 1)) eqn:Htext;
    [|destruct (Z.eqb_spec st 0);
      [|destruct (Z.eqb_spec st 1);
        [|destruct (Z.eqb_spec st 2);
          [|destruct (Z.eqb_spec st 3);
            [|destruct (Z.eqb_spec st 4);
              [|destruct (Z.eqb_spec st 5);
                [|destruct (Z.eqb_spec st 6);
                  [|destruct (Z.eqb_spec st 7);
                    [|destruct (Z.eqb_spec st 8);
                      [|destruct (Z.eqb_spec st 9)]]]]]]]]]]];
  subst; try discriminate.

Lemma blob_or_text_not_small (st : Z) :
  ((st >=? 12) && (st mod 2 =? 0)) || ((st >=? 13) && (st mod 2 =? 1)) = true
  -> 12 <= st.
Proof.
  intros H. apply orb_true_iff in H.
  destruct H as [H|H]; apply andb_true_iff in H; destruct H as [H _];
    apply Z.geb_le in H; lia.
Qed.

Lemma fixed_width_length (st w : Z) :
  fixed_width st = Some w -> serial_type_length st = w.
Proof.
  unfold fixed_width, serial_type_length.
  destruct (Z.eqb_spec st 1); [subst; cbn; congruence|].
  destruct (Z.eqb_spec st 2); [subst; cbn; congruence|].
  destruct (Z.eqb_spec st 4); [subst; cbn; congruence|].
  destruct (Z.eqb_spec st 6); [subst; cbn; congruence|].
  destruct (Z.eqb_spec st 7); [subst; cbn; congruence|].
  discriminate.
Qed.

(** The outcome of [parse_serial_type], by kind of serial type. *)
Lemma parse_serial_type_cases (data : bytes) (offset st : Z) :
  match fixed_width st with
  | Some w =>
      if len (slice data offset (offset + w)) =? w
      then exists v, parse_serial_type data offset st = Ok (v, w)
      else parse_serial_type data offset st = Raise StructError
  | None =>
      parse_serial_type data offset st
      = Ok (value_of_available st
              (slice data offset (offset + serial_type_length st)),
            serial_type_length st)
  end.
Proof.
  serial_cases st; cbn; try reflexivity;
    unfold unpack_b, unpack_h, unpack_i, unpack_q, unpack_d,
      unpack_signed, unpack_unsigned;
    match goal with
    | |- context [len ?s =? ?w] =>
        destruct (len s =? w); cbn; [eexists; reflexivity|reflexivity]
    | _ => idtac
    end.
  all: try reflexivity.
  all: match goal with
       | H : _ && _ = true |- _ =>
           assert (Hst : 12 <= st)
             by (apply blob_or_text_not_small; rewrite H;
                 auto using orb_true_r)
       end.
  all: repeat match goal with
         | |- context [?x =? ?c] =>
             replace (x =? c) with false by (symmetry; apply Z.eqb_neq; lia)
         end.
  all: reflexivity.
Qed.

(** C4 (amended): the serial types read with [struct.unpack] (1, 2, 4, 6,
    7) fail with [struct.error] exactly when their slice holds fewer bytes
    than their width; every other serial type never fails and yields the
    value of whatever bytes its slice holds, text being decoded with
    replacement. *)
Theorem parse_serial_type_faults (data : bytes) (offset st : Z) :
  match fixed_width st with
  | Some w =>
      if len (slice data offset (offset + w)) =? w
      then exists v, parse_serial_type data offset st = Ok (v, w)
      else parse_serial_type data offset st = Raise StructError
  | None =>
      parse_serial_type data offset st
      = Ok (value_of_available st
              (slice data offset (offset + serial_type_length st)),
            serial_type_length st)
  end.
Proof.
  exact (parse_serial_type_cases data offset st).
Qed.

(** C4 as stated fails: serial type 1 on an empty slice raises. *)
Lemma parse_serial_type_can_fail :
  parse_serial_type [] 0 1 = Raise StructError
  /\ ~ (forall data offset st,
           exists r, parse_serial_type data offset st = Ok r).
Proof.
  split; [reflexivity|].
  intros H. destruct (H [] 0 1) as [r Hr]. discriminate.
Qed.

(** ** UTF-8 *)

Module Utf8Facts.

Lemma is_scalar_range (cp : Z) :
  Utf8.is_scalar cp = true <->
  0 <= cp < 0xD800 \/ 0xE000 <= cp <= 0x10FFFF.
Proof.
  unfold Utf8.is_scalar.
  rewrite orb_true_iff, !andb_true_iff, !Z.leb_le, !Z.ltb_lt. reflexivity.
Qed.

(** Follow the tests of [Utf8.decode] on a goal [decode _ = _], closing
    the branches that the hypotheses exclude. *)
Ltac follow_decode :=
  cbn [Utf8.decode]; unfold Utf8.is_cont;
  repeat match goal with
    | |- (if ?c then _ else _) = _ =>
        destruct c eqn:?; bool_facts; try lia
    end;
  f_equal; rewrite ?Z.shiftl_mul_pow2 by lia; lia.

Lemma decode_ascii (b1 : byte) (rest : bytes) :
  Z_of_byte b1 < 0x80 ->
  Utf8.decode (b1 :: rest) = Z_of_byte b1 :: Utf8.decode rest.
Proof.
  intros H. follow_decode.
Qed.

Lemma decode_two (b1 b2 : byte) (rest : bytes) :
  0xC2 <= Z_of_byte b1 < 0xE0 ->
  0x80 <= Z_of_byte b2 < 0xC0 ->
  Utf8.decode (b1 :: b2 :: rest)
  = ((Z_of_byte b1 - 0xC0) * 64 + (Z_of_byte b2 - 0x80)) :: Utf8.decode rest.
Proof.
  intros H1 H2. follow_decode.
Qed.

Lemma decode_three (b1 b2 b3 : byte) (rest : bytes) :
  0xE0 <= Z_of_byte b1 < 0xF0 ->
  0x80 <= Z_of_byte b2 < 0xC0 ->
  0x80 <= Z_of_byte b3 < 0xC0 ->
  (Z_of_byte b1 = 0xE0 -> 0xA0 <= Z_of_byte b2) ->
  (Z_of_byte b1 = 0xED -> Z_of_byte b2 < 0xA0) ->
  Utf8.decode (b1 :: b2 :: b3 :: rest)
  = ((Z_of_byte b1 - 0xE0) * 4096 + (Z_of_byte b2 - 0x80) * 64
     + (Z_of_byte b3 - 0x80)) :: Utf8.decode rest.
Proof.
  intros H1 H2 H3 Hlow Hsur. follow_decode.
Qed.

Lemma decode_four (b1 b2 b3 b4 : byte) (rest : bytes) :
  0xF0 <= Z_of_byte b1 < 0xF5 ->
  0x80 <= Z_of_byte b2 < 0xC0 ->
  0x80 <= Z_of_byte b3 < 0xC0 ->
  0x80 <= Z_of_byte b4 < 0xC0 ->
  (Z_of_byte b1 = 0xF0 -> 0x90 <= Z_of_byte b2) ->
  (Z_of_byte b1 = 0xF4 -> Z_of_byte b2 < 0x90) ->
  Utf8.decode (b1 :: b2 :: b3 :: b4 :: rest)
  = ((Z_of_byte b1 - 0xF0) * 262144 + (Z_of_byte b2 - 0x80) * 4096
     + (Z_of_byte b3 - 0x80) * 64 + (Z_of_byte b4 - 0x80))
      :: Utf8.decode rest.
Proof.
  intros H1 H2 H3 H4 Hlow Hhigh. follow_decode.
Qed.

Lemma decode_encode_cp (cp : Z) (rest : bytes) :
  Utf8.is_scalar cp = true ->
  Utf8.decode (Utf8.encode_cp cp ++ rest) = cp :: Utf8.decode rest.
Proof.
  intros Hs. apply is_scalar_range in Hs. unfold Utf8.encode_cp.
  destruct (Z.ltb_spec cp 0x80); [|destruct (Z.ltb_spec cp 0x800);
    [|destruct (Z.ltb_spec cp 0x10000)]]; cbn [app].
  - rewrite decode_ascii; rewrite Z_of_byte_of_Z_small by lia;
      [reflexivity|lia].
  - rewrite decode_two; rewrite ?Z_of_byte_of_Z_small by divmod;
      [f_equal|..]; divmod.
  - rewrite decode_three; rewrite ?Z_of_byte_of_Z_small by divmod;
      [f_equal|..]; divmod.
  - rewrite decode_four; rewrite ?Z_of_byte_of_Z_small by divmod;
      [f_equal|..]; divmod.
Qed.

(** Decoding the UTF-8 form of a string of scalar values gives it back. *)
Lemma decode_encode (s : list Z) :
  forallb Utf8.is_scalar s = true -> Utf8.decode (Utf8.encode s) = s.
Proof.
  induction s as [|cp s IH]; intros H; [reflexivity|].
  cbn [forallb] in H. apply andb_true_iff in H. destruct H as [Hcp Hs].
  unfold Utf8.encode. cbn [flat_map]. fold (Utf8.encode s).
  rewrite decode_encode_cp by exact Hcp.
  now rewrite IH.
Qed.

Lemma decode_scalar_upto (n : nat) :
  forall bs, (length bs <= n)%nat ->
    Forall (fun cp => Utf8.is_scalar cp = true) (Utf8.decode bs).
Proof.
  induction n as [|n IH]; intros bs Hn.
  - destruct bs; [constructor|cbn in Hn; lia].
  - destruct bs as [|b1 t1]; [constructor|].
    cbn [Utf8.decode]. unfold Utf8.is_cont, Utf8.replacement.
    pose proof (Z_of_byte_range b1).
    repeat match goal with
      | |- Forall _ (if ?c then _ else _) => destruct c eqn:?
      | |- Forall _ (match ?t with [] => _ | _ :: _ => _ end) =>
          let b := fresh "b" in destruct t as [|b ?];
          [|pose proof (Z_of_byte_range b)]
      | |- Forall _ (_ :: _) => constructor
      | |- Forall _ [] => constructor
      end;
    try (apply IH; cbn [length] in *; lia);
    apply is_scalar_range; bool_facts;
    rewrite ?Z.shiftl_mul_pow2 by lia; lia.
Qed.

(** Whatever the bytes, decoding with replacement yields a string of
    scalar values: ill-formed input shows up as U+FFFD, never as a fault
    or a surrogate. *)
Lemma decode_scalar (bs : bytes) :
  Forall (fun cp => Utf8.is_scalar cp = true) (Utf8.decode bs).
Proof.
  apply (decode_scalar_upto (length bs)). lia.
Qed.

(** An invalid start byte, a lead byte without its continuation and an
    encoded surrogate are each replaced. *)
Example decode_replaces :
  Utf8.decode [xff; x68; xc3; x28; xed; xa0; x80]
  = [0xFFFD; 104; 0xFFFD; 40; 0xFFFD; 0xFFFD; 0xFFFD].
Proof. reflexivity. Qed.

End Utf8Facts.

(** ** Round trip of the on-disk form *)

Lemma length_be_bytes (w : nat) : forall u, length (be_bytes w u) = w.
Proof.
  induction w as [|w IH]; intros u; cbn; [reflexivity|].
  rewrite length_app, IH. cbn. lia.
Qed.

Lemma be_uint_be_bytes (w : nat) :
  forall u, be_uint (be_bytes w u) = u mod 2 ^ (8 * Z.of_nat w).
Proof.
  induction w as [|w IH]; intros u.
  - cbn. now rewrite Z.mod_1_r.
  - cbn [be_bytes]. rewrite be_uint_snoc, IH, Z_of_byte_of_Z.
    replace (8 * Z.of_nat (S w)) with (8 + 8 * Z.of_nat w) by lia.
    rewrite Z.pow_add_r by lia. change (2 ^ 8) with 256.
    rewrite Z.rem_mul_r by lia. lia.
Qed.

Lemma to_signed_mod (w z : Z) :
  0 < w ->
  - 2 ^ (8 * w - 1) <= z < 2 ^ (8 * w - 1) ->
  to_signed w (z mod 2 ^ (8 * w)) = z.
Proof.
  intros Hw Hz. unfold to_signed.
  assert (Hpow : 2 ^ (8 * w) = 2 * 2 ^ (8 * w - 1)).
  { replace (8 * w) with (1 + (8 * w - 1)) at 1 by lia.
    rewrite Z.pow_add_r by lia. reflexivity. }
  assert (Hpos : 0 < 2 ^ (8 * w - 1)) by (apply Z.pow_pos_nonneg; lia).
  destruct (Z.lt_ge_cases z 0) as [Hneg|Hnonneg].
  - assert (Hm : z mod 2 ^ (8 * w) = z + 2 ^ (8 * w)).
    { symmetry. apply (Z.mod_unique _ _ (-1)); lia. }
    rewrite Hm.
    destruct (Z.geb_spec (z + 2 ^ (8 * w)) (2 ^ (8 * w - 1))); lia.
  - rewrite Z.mod_small by lia.
    destruct (Z.geb_spec z (2 ^ (8 * w - 1))); lia.
Qed.

Lemma unpack_signed_be_bytes (w : nat) (z : Z) :
  (0 < w)%nat ->
  - 2 ^ (8 * Z.of_nat w - 1) <= z < 2 ^ (8 * Z.of_nat w - 1) ->
  unpack_signed (Z.of_nat w) (be_bytes w z) = Ok z.
Proof.
  intros Hw Hz. unfold unpack_signed, len.
  rewrite length_be_bytes, Z.eqb_refl, be_uint_be_bytes.
  rewrite to_signed_mod by lia. reflexivity.
Qed.

Lemma int_from_bytes_signed_be_bytes (w : nat) (z : Z) :
  (0 < w)%nat ->
  - 2 ^ (8 * Z.of_nat w - 1) <= z < 2 ^ (8 * Z.of_nat w - 1) ->
  int_from_bytes_signed (be_bytes w z) = z.
Proof.
  intros Hw Hz. unfold int_from_bytes_signed.
  destruct (be_bytes w z) as [|b bs] eqn:E.
  - apply (f_equal (@length byte)) in E. rewrite length_be_bytes in E.
    cbn in E. lia.
  - rewrite <- E. unfold len. rewrite length_be_bytes, be_uint_be_bytes.
    apply to_signed_mod; lia.
Qed.

(** C9: for every serial type 0 to 9, even from 12 on or odd from 13 on,
    and every value of that type, [parse_serial_type] reads the value
    back from its on-disk bytes, wherever they lie in the data, and reports
    their length. *)
Theorem parse_serial_type_round_trip
    (serial_type : Z) (v : value) (pre post : bytes) :
  has_serial_type serial_type v = true ->
  parse_serial_type (pre ++ encode_value serial_type v ++ post)
    (len pre) serial_type
  = Ok (v, len (encode_value serial_type v)).
Proof.
  intros Hty.
  destruct v as [|z|bits|b|s]; cbn [has_serial_type encode_value] in *.
  - (* null *)
    apply Z.eqb_eq in Hty. subst. reflexivity.
  - (* integers *)
    destruct (int_width serial_type) as [w|] eqn:Hw.
    + apply andb_true_iff in Hty. destruct Hty as [Hlo Hhi].
      apply Z.leb_le in Hlo. apply Z.ltb_lt in Hhi.
      unfold int_width in Hw. unfold parse_serial_type.
      repeat match type of Hw with
        | context [serial_type =? ?c] =>
            destruct (Z.eqb_spec serial_type c);
            [subst; injection Hw as <-; cbn [andb Z.geb Z.compare Z.eqb];
             cbn -[slice be_bytes Z.pow Z.mul unpack_signed len
                     int_from_bytes_signed]|]
        end; try discriminate.
      all: rewrite slice_app_middle
        by (unfold len; rewrite length_be_bytes; reflexivity).
      all: unfold unpack_b, unpack_h, unpack_i, unpack_q.
      all: try (rewrite (unpack_signed_be_bytes 1)
                || rewrite (unpack_signed_be_bytes 2)
                || rewrite (unpack_signed_be_bytes 4)
                || rewrite (unpack_signed_be_bytes 8));
        try rewrite int_from_bytes_signed_be_bytes;
        try lia; try (split; assumption).
      all: cbn [bind]; unfold len; rewrite length_be_bytes; reflexivity.
    + unfold int_width in Hw.
      apply orb_true_iff in Hty.
      destruct Hty as [H|H]; apply andb_true_iff in H; destruct H as [Hst Hz];
        apply Z.eqb_eq in Hst, Hz; subst; reflexivity.
  - (* double *)
    apply andb_true_iff in Hty. destruct Hty as [Hty Hhi].
    apply andb_true_iff in Hty. destruct Hty as [Hst Hlo].
    apply Z.eqb_eq in Hst. apply Z.leb_le in Hlo. apply Z.ltb_lt in Hhi.
    subst. unfold parse_serial_type.
    cbn -[slice be_bytes unpack_d len].
    rewrite slice_app_middle
      by (unfold len; rewrite length_be_bytes; reflexivity).
    unfold unpack_d, unpack_unsigned, len.
    rewrite length_be_bytes. cbn [Z.of_nat Pos.of_succ_nat Pos.succ Z.eqb Pos.eqb].
    rewrite be_uint_be_bytes, Z.mod_small by (cbn; lia).
    reflexivity.
  - (* blob *)
    apply andb_true_iff in Hty. destruct Hty as [Hty Hlen].
    apply Z.eqb_eq in Hlen.
    unfold parse_serial_type. rewrite Hty.
    rewrite slice_app_middle by (symmetry; exact Hlen).
    rewrite Hlen. reflexivity.
  - (* text *)
    apply andb_true_iff in Hty. destruct Hty as [Hty Hlen].
    apply andb_true_iff in Hty. destruct Hty as [Hty Hscalar].
    apply Z.eqb_eq in Hlen.
    unfold parse_serial_type. rewrite Hty.
    apply andb_true_iff in Hty. destruct Hty as [Hge Hodd].
    apply Z.eqb_eq in Hodd.
    replace ((serial_type >=? 12) && (serial_type mod 2 =? 0)) with false
      by (symmetry; apply andb_false_iff; right; apply Z.eqb_neq; lia).
    rewrite slice_app_middle by (symmetry; exact Hlen).
    rewrite Utf8Facts.decode_encode by exact Hscalar.
    rewrite Hlen. reflexivity.
Qed.

Lemma parse_serial_type_round_trip_witness :
  has_serial_type 2 (VInt (-2)) = true
  /\ parse_serial_type ([x00] ++ encode_value 2 (VInt (-2)) ++ [xff])
       (len [x00]) 2
     = Ok (VInt (-2), len (encode_value 2 (VInt (-2)))).
Proof.
  assert (H : has_serial_type 2 (VInt (-2)) = true) by reflexivity.
  split; [exact H|].
  exact (parse_serial_type_round_trip 2 (VInt (-2)) [x00] [xff] H).
Defined.

(** ** 4.3 Record decoder: rejection *)

(** The header loop ends within its fuel: every turn consumes a byte. *)
Lemma read_serial_types_outcome (fuel : nat) :
  forall data header_offset bytes_read header_length serial_types,
    (Z.to_nat (len data - header_offset) < fuel)%nat ->
    (exists sts, read_serial_types fuel data header_offset bytes_read
                   header_length serial_types = Ok sts)
    \/ read_serial_types fuel data header_offset bytes_read
         header_length serial_types = Raise IndexError.
Proof.
  induction fuel as [|fuel IH]; intros data ho br hl sts Hfuel; [lia|].
  cbn [read_serial_types].
  destruct (br <? hl); [|left; eexists; reflexivity].
  destruct (read_varint_outcome data ho) as [[v [n [Hv [Hn Hlt]]]]|Hraise].
  - rewrite Hv. cbn [bind]. apply IH. lia.
  - rewrite Hraise. now right.
Qed.

(** A value read with [struct.unpack] from a full slice. *)
Lemma parse_serial_type_fixed (data : bytes) (offset st w : Z) :
  fixed_width st = Some w ->
  len (slice data offset (offset + w)) = w ->
  parse_serial_type data offset st
  = Ok (value_of_fixed st (slice data offset (offset + w)), w).
Proof.
  intros Hw Hlen. unfold value_of_fixed. rewrite Hlen.
  unfold fixed_width in Hw.
  destruct (Z.eqb_spec st 1) as [->|_].
  { injection Hw as <-.
    change (parse_serial_type data offset 1)
      with (value <- unpack_b (slice data offset (offset + 1)) ;;
            Ok (VInt value, 1)).
    unfold unpack_b, unpack_signed. rewrite Hlen. reflexivity. }
  destruct (Z.eqb_spec st 2) as [->|_].
  { injection Hw as <-.
    change (parse_serial_type data offset 2)
      with (value <- unpack_h (slice data offset (offset + 2)) ;;
            Ok (VInt value, 2)).
    unfold unpack_h, unpack_signed. rewrite Hlen. reflexivity. }
  destruct (Z.eqb_spec st 4) as [->|_].
  { injection Hw as <-.
    change (parse_serial_type data offset 4)
      with (value <- unpack_i (slice data offset (offset + 4)) ;;
            Ok (VInt value, 4)).
    unfold unpack_i, unpack_signed. rewrite Hlen. reflexivity. }
  destruct (Z.eqb_spec st 6) as [->|_].
  { injection Hw as <-.
    change (parse_serial_type data offset 6)
      with (value <- unpack_q (slice data offset (offset + 8)) ;;
            Ok (VInt value, 8)).
    unfold unpack_q, unpack_signed. rewrite Hlen. reflexivity. }
  destruct (Z.eqb_spec st 7) as [->|_]; [|discriminate].
  injection Hw as <-.
  change (parse_serial_type data offset 7)
    with (value <- unpack_d (slice data offset (offset + 8)) ;;
          Ok (VFloat value, 8)).
  unfold unpack_d, unpack_unsigned. rewrite Hlen. reflexivity.
Qed.

Lemma length_available_values (sts : list Z) :
  forall data value_offset,
    length (available_values data value_offset sts) = length sts.
Proof.
  induction sts as [|st sts IH]; intros data vo; cbn; [reflexivity|].
  now rewrite IH.
Qed.

Lemma decode_values_outcome (sts : list Z) :
  forall data value_offset values,
    if fixed_width_runs_off data value_offset sts
    then decode_values data value_offset sts values = Raise StructError
    else decode_values data value_offset sts values
         = Ok (values ++ available_values data value_offset sts).
Proof.
  induction sts as [|st sts IH]; intros data vo values.
  - cbn. now rewrite app_nil_r.
  - cbn [fixed_width_runs_off decode_values available_values].
    pose proof (parse_serial_type_cases data vo st) as Hst.
    destruct (fixed_width st) as [w|] eqn:Hw.
    + rewrite (fixed_width_length _ _ Hw).
      destruct (Z.eqb_spec (len (slice data vo (vo + w))) w) as [Hfull|Hcut].
      * rewrite (parse_serial_type_fixed data vo st w Hw Hfull).
        cbn [bind negb orb].
        specialize (IH data (vo + w)
                      (values ++ [value_of_fixed st (slice data vo (vo + w))])).
        destruct (fixed_width_runs_off data (vo + w) sts); [exact IH|].
        rewrite IH, <- app_assoc. reflexivity.
      * rewrite Hst. reflexivity.
    + rewrite Hst. cbn [bind orb].
      set (v := value_of_available st _).
      specialize (IH data (vo + serial_type_length st) (values ++ [v])).
      destruct (fixed_width_runs_off data (vo + serial_type_length st) sts);
        [exact IH|].
      rewrite IH, <- app_assoc. reflexivity.
Qed.

(** The result of [parse_record] when the header-length varint is cut
    short, and when it is read. *)
Lemma parse_record_cases (data : bytes) (offset payload_length : Z) :
  (forall e, read_varint data offset = Raise e ->
     parse_record data offset payload_length = Ok None)
  /\ (forall header_length n,
        read_varint data offset = Ok (header_length, n) ->
        (header_length > payload_length ->
         parse_record data offset payload_length = Ok None)
        /\ (header_length <= payload_length ->
            match read_serial_types (header_fuel data (offset + n)) data
                    (offset + n) n header_length [] with
            | Ok serial_types =>
                if fixed_width_runs_off data (offset + header_length)
                     serial_types
                then parse_record data offset payload_length = Ok None
                else parse_record data offset payload_length
                     = Ok (Some (available_values data
                                   (offset + header_length) serial_types))
                     /\ length (available_values data
                                  (offset + header_length) serial_types)
                        = length serial_types
            | Raise e => parse_record data offset payload_length = Ok None
            | OutOfFuel => False
            end)).
Proof.
  split.
  - intros e He. unfold parse_record. rewrite He.
    destruct (read_varint_outcome data offset) as [[v [n [Hv _]]]|Hraise];
      [congruence|].
    rewrite He in Hraise. injection Hraise as ->. reflexivity.
  - intros hl n Hv. unfold parse_record. rewrite Hv. cbn [bind].
    split.
    + intros Hgt. replace (hl >? payload_length) with true
        by (symmetry; apply Z.gtb_lt; lia). reflexivity.
    + intros Hle. replace (hl >? payload_length) with false
        by (symmetry; rewrite Z.gtb_ltb; apply Z.ltb_ge; lia).
      destruct (read_serial_types_outcome (header_fuel data (offset + n))
                  data (offset + n) n hl [])
        as [[sts Hsts]|Hraise]; [unfold header_fuel; lia| |].
      * rewrite Hsts. cbn [bind].
        pose proof (decode_values_outcome sts data (offset + hl) []) as Hd.
        destruct (fixed_width_runs_off data (offset + hl) sts).
        -- rewrite Hd. reflexivity.
        -- rewrite Hd. cbn. split; [reflexivity|].
           apply length_available_values.
      * rewrite Hraise. reflexivity.
Qed.

(** [parse_record] always returns: it neither raises nor runs out of
    fuel. *)
Lemma parse_record_total (data : bytes) (offset payload_length : Z) :
  exists r, parse_record data offset payload_length = Ok r.
Proof.
  destruct (parse_record_cases data offset payload_length) as [Hraise Hok].
  destruct (read_varint data offset) as [[hl n]|e|] eqn:Hv.
  - destruct (Hok hl n eq_refl) as [Hgt Hle].
    destruct (Z_gt_le_dec hl payload_length) as [H|H].
    + eexists. apply Hgt. exact H.
    + specialize (Hle H).
      destruct (read_serial_types (header_fuel data (offset + n)) data
                  (offset + n) n hl []) as [sts|e|]; [| |contradiction].
      * destruct (fixed_width_runs_off data (offset + hl) sts).
        -- eexists. exact Hle.
        -- eexists. exact (proj1 Hle).
      * eexists. exact Hle.
  - eexists. apply (Hraise e eq_refl).
  - destruct (read_varint_outcome data offset) as [[v [n [Hv' _]]]|Hv'];
      congruence.
Qed.

(** C5 (amended): [parse_record] always returns; it returns [None] when
    the header length exceeds the declared payload length, when a varint of
    the header is cut short, and when a value read with [struct.unpack]
    (serial types 1, 2, 4, 6, 7) has too few bytes left; otherwise it
    returns exactly [available_values]: one value per serial type, in
    order, each decoded from the bytes that its slice holds, so that a
    blob, a text or a 3- or 6-byte integer that runs off the data is
    decoded from the bytes that are there. *)
Theorem parse_record_rejects (data : bytes) (offset payload_length : Z) :
  (exists r, parse_record data offset payload_length = Ok r)
  /\ (forall e, read_varint data offset = Raise e ->
        parse_record data offset payload_length = Ok None)
  /\ (forall header_length n,
        read_varint data offset = Ok (header_length, n) ->
        (header_length > payload_length ->
         parse_record data offset payload_length = Ok None)
        /\ (header_length <= payload_length ->
            match read_serial_types (header_fuel data (offset + n)) data
                    (offset + n) n header_length [] with
            | Ok serial_types =>
                if fixed_width_runs_off data (offset + header_length)
                     serial_types
                then parse_record data offset payload_length = Ok None
                else parse_record data offset payload_length
                     = Ok (Some (available_values data
                                   (offset + header_length) serial_types))
                     /\ length (available_values data
                                  (offset + header_length) serial_types)
                        = length serial_types
            | Raise e => parse_record data offset payload_length = Ok None
            | OutOfFuel => False
            end)).
Proof.
  split.
  - apply parse_record_total.
  - apply parse_record_cases.
Qed.

Lemma parse_record_rejects_witness :
  read_varint small_payload 0 = Ok (3, 1)
  /\ 3 > 2
  /\ parse_record small_payload 0 2 = Ok None
  /\ read_varint cut_values_payload 0 = Ok (3, 1)
  /\ 3 <= 4
  /\ parse_record cut_values_payload 0 4 = Ok (Some [VInt (-1); VStr []]).
Proof.
  assert (Hv : read_varint small_payload 0 = Ok (3, 1)) by reflexivity.
  assert (Hgt : 3 > 2) by lia.
  assert (Hv' : read_varint cut_values_payload 0 = Ok (3, 1)) by reflexivity.
  assert (Hle : 3 <= 4) by lia.
  split; [exact Hv|]. split; [exact Hgt|]. split.
  - exact (proj1 (proj2 (proj2 (parse_record_rejects small_payload 0 2))
                    3 1 Hv) Hgt).
  - split; [exact Hv'|]. split; [exact Hle|].
    exact (proj1 (proj2 (proj2 (proj2 (parse_record_rejects
                                         cut_values_payload 0 4))
                           3 1 Hv') Hle)).
Defined.

(** C5 as stated fails: in [blob_overrun_payload] the body of the blob
    (serial type 14, one byte) lies past the end of the payload, and the
    record is returned with an empty blob instead of being rejected. *)
Lemma parse_record_keeps_overrunning_blob :
  read_varint blob_overrun_payload 0 = Ok (2, 1)
  /\ read_serial_types (header_fuel blob_overrun_payload 1)
       blob_overrun_payload 1 1 2 [] = Ok [14]
  /\ body_runs_off blob_overrun_payload 2 [14] = true
  /\ parse_record blob_overrun_payload 0 2 = Ok (Some [VBytes []]).
Proof.
  repeat split; vm_compute; reflexivity.
Qed.

(** ** 4.4 Page parser: what a page adds *)

Lemma read_cell_outcome (page_type : Z) (page_data : bytes) (ptr : Z) :
  (exists record, read_cell page_type page_data ptr = Ok record)
  \/ read_cell page_type page_data ptr = Raise IndexError.
Proof.
  unfold read_cell.
  destruct (read_varint_outcome page_data ptr) as [[pl [n1 [H1 _]]]|H1];
    rewrite H1; cbn [bind]; [|now right].
  assert (Hlast : forall off,
    (exists record,
        ('(_, n) <- read_varint page_data off ;;
         parse_record
           (slice page_data (off + n) (off + n + pl)) 0 pl) = Ok record)
    \/ ('(_, n) <- read_varint page_data off ;;
        parse_record
          (slice page_data (off + n) (off + n + pl)) 0 pl)
       = Raise IndexError).
  { intros off.
    destruct (read_varint_outcome page_data off) as [[v [n [H _]]]|H];
      rewrite H; cbn [bind]; [|now right].
    left. apply parse_record_total. }
  destruct (page_type =? 5).
  - destruct (read_varint_outcome page_data (ptr + n1)) as [[v [n2 [H2 _]]]|H2];
      rewrite H2; cbn [bind]; [|now right].
    apply Hlast.
  - cbn [bind]. apply Hlast.
Qed.

Lemma append_if_truthy_app (records : list (list value)) record :
  append_if_truthy records record = records ++ append_if_truthy [] record.
Proof.
  destruct record as [[|v vs]|]; cbn; now rewrite ?app_nil_r.
Qed.

(** One turn of the cell loop never raises: it adds the rows of the cell. *)
Lemma parse_cell_rows (page_type : Z) (page_data : bytes) records ptr :
  parse_cell page_type page_data records ptr
  = Ok (records ++ cell_rows page_type page_data ptr).
Proof.
  unfold parse_cell, cell_rows.
  destruct (read_cell_outcome page_type page_data ptr) as [[record H]|H];
    rewrite H; cbn.
  - now rewrite append_if_truthy_app.
  - now rewrite app_nil_r.
Qed.

Lemma parse_cells_rows (page_type : Z) (page_data : bytes) (ptrs : list Z) :
  forall records,
    parse_cells page_type page_data ptrs records
    = Ok (records ++ flat_map (cell_rows page_type page_data) ptrs).
Proof.
  induction ptrs as [|ptr ptrs IH]; intros records; cbn.
  - now rewrite app_nil_r.
  - rewrite parse_cell_rows. cbn [bind]. rewrite IH, <- app_assoc.
    reflexivity.
Qed.

Lemma read_cell_pointers_flat_map (page_data : bytes) (header_size : Z)
    (idxs : list Z) :
  0 <= header_size ->
  (forall i, In i idxs -> 0 <= i) ->
  forall acc,
    read_cell_pointers idxs page_data header_size acc
    = Ok (acc ++ flat_map (pointer_at page_data header_size) idxs).
Proof.
  intros Hhs. induction idxs as [|i idxs IH]; intros Hpos acc; cbn.
  - now rewrite app_nil_r.
  - assert (Hi : 0 <= i) by (apply Hpos; now left).
    assert (Hrest : forall j, In j idxs -> 0 <= j)
      by (intros j Hj; apply Hpos; now right).
    unfold pointer_at at 1.
    destruct (Z.gtb_spec (header_size + i * 2 + 2) (len page_data)).
    + cbn. apply IH, Hrest.
    + unfold unpack_H, unpack_unsigned.
      rewrite len_slice by lia.
      replace (Z.max 0 (Z.min (header_size + i * 2 + 2) (len page_data)
                        - (header_size + i * 2)) =? 2)
        with true by (symmetry; apply Z.eqb_eq; lia).
      cbn [bind]. rewrite IH by exact Hrest.
      now rewrite <- app_assoc.
Qed.

Lemma header_size_nonneg (page_type : Z) : 0 <= header_size_of page_type.
Proof. unfold header_size_of. destruct (page_type =? 13); lia. Qed.

(** What [parse_page] does, case by case: it raises [struct.error] on a
    table page cut to fewer than 5 bytes, and otherwise appends the rows
    of the page. *)
Lemma parse_page_spec (data : bytes) (page_number page_size : Z) records :
  let page_data := page_of data page_number page_size in
  parse_page data page_number page_size records
  = if (0 <? len page_data) && (len page_data <? 5)
       && ((page_type_of page_data =? 0x0D)
           || (page_type_of page_data =? 0x05))
    then Raise StructError
    else Ok (records ++ page_rows page_data).
Proof.
  intros page_data. unfold parse_page. fold (page_of data page_number page_size).
  fold page_data. unfold page_rows, page_cell_pointers, is_table_page.
  pose proof (len_nonneg page_data) as Hlen.
  destruct (Z.eqb_spec (len page_data) 0) as [H0|H0].
  - rewrite H0. cbn. now rewrite app_nil_r.
  - replace (0 <? len page_data) with true by (symmetry; apply Z.ltb_lt; lia).
    rewrite index_ok by lia. cbn [bind]. change (Z.to_nat 0) with 0%nat.
    fold (page_type_of page_data).
    destruct ((page_type_of page_data =? 13) || (page_type_of page_data =? 5))
      eqn:Htype; cbn [negb andb].
    + unfold unpack_H, unpack_unsigned. rewrite len_slice by lia.
      destruct (Z.ltb_spec (len page_data) 5) as [Hshort|Hlong].
      * replace (Z.max 0 (Z.min 5 (len page_data) - 3) =? 2)
          with false by (symmetry; apply Z.eqb_neq; lia).
        reflexivity.
      * replace (Z.max 0 (Z.min 5 (len page_data) - 3) =? 2)
          with true by (symmetry; apply Z.eqb_eq; lia).
        replace (5 <=? len page_data) with true
          by (symmetry; apply Z.leb_le; lia).
        cbn [bind andb]. fold (num_cells_of page_data).
        fold (header_size_of (page_type_of page_data)).
        rewrite read_cell_pointers_flat_map
          by (try apply header_size_nonneg; intros i Hi; apply in_range in Hi;
              lia).
        cbn [bind app]. apply parse_cells_rows.
    + rewrite !andb_false_r. cbn [flat_map]. now rewrite app_nil_r.
Qed.

Lemma cell_rows_nonempty (page_type : Z) (page_data : bytes) (ptr : Z) row :
  In row (cell_rows page_type page_data ptr) -> row <> [].
Proof.
  unfold cell_rows.
  destruct (read_cell page_type page_data ptr) as [[[|v vs]|]|e|]; cbn;
    try tauto.
  intros [<-|[]]. discriminate.
Qed.

(** C10: a cell whose record decodes to the empty list adds nothing, and
    every row [parse_page] appends has at least one column. *)
Theorem parse_page_never_emits_empty_tuple :
  (forall page_type page_data records cell_pointer,
      read_cell page_type page_data cell_pointer = Ok (Some []) ->
      parse_cell page_type page_data records cell_pointer = Ok records)
  /\ (forall data page_number page_size records out,
         parse_page data page_number page_size records = Ok out ->
         exists new, out = records ++ new
                     /\ Forall (fun row => row <> []) new).
Proof.
  split.
  - intros page_type page_data records ptr H.
    unfold parse_cell. rewrite H. reflexivity.
  - intros data pn ps records out H.
    rewrite parse_page_spec in H.
    destruct (_ && _) in H; [discriminate|].
    injection H as <-.
    exists (page_rows (page_of data pn ps)). split; [reflexivity|].
    apply Forall_forall. intros row Hrow.
    unfold page_rows in Hrow. apply in_flat_map in Hrow.
    destruct Hrow as [ptr [_ Hrow]].
    eapply cell_rows_nonempty, Hrow.
Qed.

Lemma parse_page_never_emits_empty_tuple_witness :
  read_cell 0x0D empty_record_page 10 = Ok (Some [])
  /\ parse_cell 0x0D empty_record_page [] 10 = Ok []
  /\ parse_page empty_record_page 0 13 [] = Ok [].
Proof.
  assert (H : read_cell 0x0D empty_record_page 10 = Ok (Some []))
    by reflexivity.
  split; [exact H|]. split.
  - exact (proj1 parse_page_never_emits_empty_tuple
             0x0D empty_record_page [] 10 H).
  - reflexivity.
Defined.

(** ** 4.4 Page parser: the layout of a cell *)

(** The code reads a cell of either kind of page as the specification
    words it. *)
Lemma read_cell_spec_cell (page_type : Z) (page_data : bytes) (ptr : Z) :
  0 <= ptr ->
  read_cell page_type page_data ptr
  = spec_cell (page_type =? 0x05) (skipn (Z.to_nat ptr) page_data).
Proof.
  intros Hptr. unfold read_cell, spec_cell.
  rewrite <- read_varint_skipn by lia.
  destruct (read_varint_outcome page_data ptr) as [[pl [n1 [H1 [Hn1 _]]]]|H1];
    rewrite H1; cbn [bind]; [|reflexivity].
  pose proof (read_varint_nonneg _ _ _ _ H1) as Hpl.
  rewrite <- skipn_add by lia.
  assert (Hlast : forall off, 0 <= off ->
    ('(_, n) <- read_varint page_data off ;;
     parse_record (slice page_data (off + n) (off + n + pl)) 0 pl)
    = ('(_, n) <- read_varint (skipn (Z.to_nat off) page_data) 0 ;;
       parse_record
         (firstn (Z.to_nat pl)
            (skipn (Z.to_nat n) (skipn (Z.to_nat off) page_data))) 0 pl)).
  { intros off Hoff. rewrite <- read_varint_skipn by lia.
    destruct (read_varint_outcome page_data off) as [[v [n [H [Hn _]]]]|H];
      rewrite H; cbn [bind]; [|reflexivity].
    rewrite slice_firstn_skipn by lia.
    rewrite <- skipn_add by lia.
    do 2 f_equal. lia. }
  destruct (page_type =? 5).
  - rewrite <- read_varint_skipn by lia.
    destruct (read_varint_outcome page_data (ptr + n1))
      as [[v [n2 [H2 [Hn2 _]]]]|H2];
      rewrite H2; cbn [bind]; [|reflexivity].
    rewrite <- skipn_add by lia. apply Hlast. lia.
  - cbn [bind]. apply Hlast. lia.
Qed.

Lemma pointer_at_nonneg (page_data : bytes) (header_size i ptr : Z) :
  In ptr (pointer_at page_data header_size i) -> 0 <= ptr.
Proof.
  unfold pointer_at.
  destruct (header_size + i * 2 + 2 >? len page_data); [intros []|].
  intros [<-|[]]. apply be_uint_nonneg.
Qed.

Lemma page_cell_pointers_nonneg (page_data : bytes) (ptr : Z) :
  In ptr (page_cell_pointers page_data) -> 0 <= ptr.
Proof.
  unfold page_cell_pointers. destruct (is_table_page page_data); [|intros []].
  intros H. apply in_flat_map in H. destruct H as [i [_ H]].
  eapply pointer_at_nonneg, H.
Qed.

(** C8: on a table-interior page every cell is read as a payload-length
    varint, a left-child varint whose value is dropped, a rowid varint
    whose value is dropped, and then [payload_length] bytes given to the
    record decoder: the page adds exactly the rows of its cells read that
    way, in cell-pointer order. *)
Theorem interior_cells_read_with_left_child_varint
    (data : bytes) (page_number page_size : Z) (records : list (list value)) :
  let page_data := page_of data page_number page_size in
  is_table_page page_data = true ->
  page_type_of page_data = 0x05 ->
  parse_page data page_number page_size records
  = Ok (records
        ++ flat_map (fun ptr =>
                       spec_cell_rows true (skipn (Z.to_nat ptr) page_data))
                    (page_cell_pointers page_data)).
Proof.
  intros page_data Htable Htype.
  rewrite parse_page_spec. fold page_data.
  unfold is_table_page in Htable. apply andb_true_iff in Htable.
  destruct Htable as [Hlen _]. apply Z.leb_le in Hlen.
  replace (len page_data <? 5) with false by (symmetry; apply Z.ltb_ge; lia).
  rewrite andb_false_r. cbn [andb]. do 2 f_equal.
  unfold page_rows. apply flat_map_ext_on. intros ptr Hptr.
  apply page_cell_pointers_nonneg in Hptr.
  unfold cell_rows, spec_cell_rows.
  rewrite read_cell_spec_cell by exact Hptr.
  rewrite Htype. reflexivity.
Qed.

Lemma interior_cells_read_with_left_child_varint_witness :
  is_table_page (page_of interior_page 0 22) = true
  /\ page_type_of (page_of interior_page 0 22) = 0x05
  /\ parse_page interior_page 0 22 [] = Ok [[VInt 42; VStr [104]]].
Proof.
  assert (H1 : is_table_page (page_of interior_page 0 22) = true)
    by reflexivity.
  assert (H2 : page_type_of (page_of interior_page 0 22) = 0x05)
    by reflexivity.
  split; [exact H1|]. split; [exact H2|].
  exact (interior_cells_read_with_left_child_varint interior_page 0 22 []
           H1 H2).
Defined.

(** ** 4.4 Page parser: a corrupted cell does not touch the others *)

Section Locality.

(** Two page images of the same length. *)
Variables p p' : bytes.
Hypothesis same_length : len p' = len p.

Lemma agree_on_narrow (a b a' b' : Z) :
  agree_on a b p p' -> a <= a' -> b' <= b -> agree_on a' b' p p'.
Proof.
  intros H Ha Hb j Hj Hjab. apply H; lia.
Qed.

Lemma agree_outside_spec (lo hi : Z) :
  agree_outside lo hi p p' = true ->
  forall a b, (b <= lo \/ hi <= a) -> agree_on a b p p'.
Proof.
  unfold agree_outside. intros H. apply andb_true_iff in H.
  destruct H as [_ Hall].
  intros a b Hab j Hj Hjab.
  destruct (Z.lt_ge_cases j (len p)) as [Hin|Hout].
  - rewrite forallb_forall in Hall.
    specialize (Hall j (proj2 (in_range _ _) (conj Hj Hin))).
    apply orb_true_iff in Hall. destruct Hall as [Hall|Hall].
    + apply andb_true_iff in Hall. destruct Hall as [H1 H2].
      apply Z.leb_le in H1. apply Z.ltb_lt in H2. lia.
    + apply Z.eqb_eq in Hall. now apply Z_of_byte_inj.
  - rewrite !nth_overflow; [reflexivity| |]; unfold len in *; lia.
Qed.

Lemma slice_local (a b : Z) :
  0 <= a <= b -> agree_on a b p p' -> slice p' a b = slice p a b.
Proof.
  intros Hab Hag. rewrite !slice_firstn_skipn by lia.
  assert (Hl : length p' = length p) by (unfold len in same_length; lia).
  apply nth_ext with (d := x00) (d' := x00).
  - rewrite !length_firstn, !length_skipn, Hl. reflexivity.
  - intros i Hi. rewrite length_firstn, length_skipn in Hi.
    rewrite !nth_firstn.
    destruct (Nat.ltb_spec i (Z.to_nat (b - a))); [|reflexivity].
    rewrite !nth_skipn.
    replace (Z.to_nat a + i)%nat with (Z.to_nat (a + Z.of_nat i)) by lia.
    apply Hag; lia.
Qed.

Lemma read_varint_loop_local (k : nat) :
  forall offset i value e,
    0 <= offset + i -> 0 <= i -> i + Z.of_nat k = 9 ->
    varint_end p offset (read_varint_loop k p offset i value) <= e ->
    agree_on (offset + i) e p p' ->
    read_varint_loop k p' offset i value
    = read_varint_loop k p offset i value.
Proof.
  induction k as [|k IH]; intros offset i value e Hpos Hi Hik He Hag;
    [reflexivity|].
  assert (Hstep : forall q,
    read_varint_loop (S k) q offset i value
    = if offset + i >=? len q then Raise IndexError
      else byte <- index q (offset + i) ;;
           if byte <? 0x80 then Ok (Z.lor (Z.shiftl value 7) byte, i + 1)
           else read_varint_loop k q offset (i + 1)
                  (Z.lor (Z.shiftl value 7) (Z.land byte 0x7F)))
    by reflexivity.
  rewrite (Hstep p'). rewrite (Hstep p) in He |- *. rewrite same_length.
  destruct (Z.geb_spec (offset + i) (len p)) as [Hge|Hlt]; [reflexivity|].
  rewrite index_ok in He |- * by lia. rewrite index_ok by lia.
  cbn [bind] in He |- *.
  set (b := Z_of_byte (nth (Z.to_nat (offset + i)) p x00)) in *.
  assert (Hin : offset + i < e).
  { destruct (b <? 128); [cbn in He; lia|].
    destruct (read_varint_loop_outcome k p offset (i + 1)
                (Z.lor (Z.shiftl value 7) (Z.land b 127)))
      as [[v [n [Hv [Hn _]]]]|Hraise]; try lia.
    - rewrite Hv in He. cbn in He. lia.
    - rewrite Hraise in He. cbn in He. lia. }
  rewrite (Hag (offset + i)) by lia. fold b.
  destruct (b <? 128); [reflexivity|].
  apply (IH offset (i + 1) _ e); try lia; try assumption.
  eapply agree_on_narrow; [exact Hag|lia|lia].
Qed.

(** A varint read sees only the bytes it consumes, or all the bytes
    from the offset on when it fails. *)
Lemma read_varint_local (offset e : Z) :
  0 <= offset ->
  varint_end p offset (read_varint p offset) <= e ->
  agree_on offset e p p' ->
  read_varint p' offset = read_varint p offset.
Proof.
  intros Hoff He Hag. unfold read_varint.
  apply (read_varint_loop_local 9 offset 0 0 e); try lia; try assumption.
  now rewrite Z.add_0_r.
Qed.

(** The record of a cell depends on the bytes of the cell only. *)
Lemma read_cell_local (page_type ptr : Z) :
  0 <= ptr ->
  agree_on ptr (cell_end page_type p ptr) p p' ->
  read_cell page_type p' ptr = read_cell page_type p ptr.
Proof.
  intros Hptr Hag. unfold cell_end in Hag. unfold read_cell.
  (* first varint: the payload length *)
  destruct (read_varint_outcome p ptr) as [[pl [n1 [H1 [Hn1 _]]]]|H1];
    rewrite H1 in Hag.
  2:{ rewrite (read_varint_local ptr (len p)), H1; auto.
      rewrite H1. cbn. lia. }
  pose proof (read_varint_within _ _ _ _ H1) as Hw1.
  pose proof (read_varint_nonneg _ _ _ _ H1) as Hpl.
  (* last varint and payload, from any offset *)
  assert (Hlast : forall off, ptr + n1 <= off ->
    agree_on ptr
      (match read_varint p off with
       | Ok (_, n3) => Z.min (len p) (off + n3 + pl)
       | _ => len p
       end) p p' ->
    read_varint p' ptr = read_varint p ptr
    /\ ('(_, n) <- read_varint p' off ;;
        parse_record (slice p' (off + n) (off + n + pl)) 0 pl)
       = ('(_, n) <- read_varint p off ;;
          parse_record (slice p (off + n) (off + n + pl)) 0 pl)).
  { intros off Hoff Hag3.
    destruct (read_varint_outcome p off) as [[v3 [n3 [H3 [Hn3 _]]]]|H3];
      rewrite H3 in Hag3.
    - pose proof (read_varint_within _ _ _ _ H3) as Hw3.
      split.
      + apply (read_varint_local ptr (ptr + n1)); auto.
        * rewrite H1. cbn. lia.
        * eapply agree_on_narrow; [exact Hag3|lia|lia].
      + rewrite (read_varint_local off (off + n3)); auto; try lia.
        * rewrite H3. cbn [bind].
          rewrite slice_local; auto; try lia.
          intros j Hj Hjab.
          destruct (Z.lt_ge_cases j (len p)).
          -- apply Hag3; lia.
          -- rewrite !nth_overflow; [reflexivity| |]; unfold len in *; lia.
        * rewrite H3. cbn. lia.
        * eapply agree_on_narrow; [exact Hag3|lia|lia].
    - split.
      + apply (read_varint_local ptr (len p)); auto.
        rewrite H1. cbn. lia.
      + destruct (Z.lt_ge_cases off (len p)) as [Hin|Hout].
        * rewrite (read_varint_local off (len p)); auto; try lia.
          -- rewrite H3. reflexivity.
          -- rewrite H3. cbn. lia.
          -- eapply agree_on_narrow; [exact Hag3|lia|lia].
        * rewrite H3.
          destruct (read_varint_outcome p' off) as [[v [n [H [_ Hlt]]]]|H];
            [lia|]. rewrite H. reflexivity. }
  destruct (page_type =? 5).
  - (* interior page: the left-child varint *)
    destruct (read_varint_outcome p (ptr + n1))
      as [[v2 [n2 [H2 [Hn2 _]]]]|H2];
      rewrite H2 in Hag; cbn [bind] in Hag.
    + pose proof (read_varint_within _ _ _ _ H2) as Hw2.
      destruct (Hlast (ptr + n1 + n2) ltac:(lia) Hag) as [E1 E3].
      rewrite E1, H1. cbn [bind].
      assert (Hext : ptr + n1 + n2
                     <= match read_varint p (ptr + n1 + n2) with
                        | Ok (_, n3) =>
                            Z.min (len p) (ptr + n1 + n2 + n3 + pl)
                        | _ => len p
                        end).
      { destruct (read_varint_outcome p (ptr + n1 + n2))
          as [[v3 [n3 [H3 [Hn3 _]]]]|H3]; rewrite H3; [|lia].
        pose proof (read_varint_within _ _ _ _ H3). lia. }
      rewrite (read_varint_local (ptr + n1) (ptr + n1 + n2)); auto;
        try lia.
      * rewrite H2. cbn [bind]. exact E3.
      * rewrite H2. cbn. lia.
      * eapply agree_on_narrow; [exact Hag|lia|exact Hext].
    + rewrite (read_varint_local ptr (len p)), H1; auto;
        [|rewrite H1; cbn; lia].
      cbn [bind].
      destruct (Z.lt_ge_cases (ptr + n1) (len p)) as [Hin|Hout].
      * rewrite (read_varint_local (ptr + n1) (len p)); auto; try lia.
        -- rewrite H2. reflexivity.
        -- rewrite H2. cbn. lia.
        -- eapply agree_on_narrow; [exact Hag|lia|lia].
      * rewrite H2.
        destruct (read_varint_outcome p' (ptr + n1))
          as [[v [n [H [_ Hlt]]]]|H]; [lia|].
        rewrite H. reflexivity.
  - cbn [bind] in Hag |- *.
    destruct (Hlast (ptr + n1) ltac:(lia) Hag) as [E1 E3].
    rewrite E1, H1. cbn [bind]. exact E3.
Qed.

Lemma header_end_lower : 8 <= header_end p.
Proof.
  unfold header_end, header_size_of, num_cells_of.
  pose proof (be_uint_nonneg (slice p 3 5)).
  destruct (page_type_of p =? 13); lia.
Qed.

(** Two pages that agree up to the end of the pointer array have the
    same kind, the same cell count and the same cell pointers. *)
Lemma header_local :
  agree_on 0 (header_end p) p p' ->
  page_type_of p' = page_type_of p
  /\ page_cell_pointers p' = page_cell_pointers p.
Proof.
  intros Hag. pose proof header_end_lower as Hhe.
  assert (Htype : page_type_of p' = page_type_of p).
  { unfold page_type_of. f_equal. apply (Hag 0); lia. }
  split; [exact Htype|].
  unfold page_cell_pointers, is_table_page. rewrite Htype, same_length.
  destruct ((5 <=? len p)
            && ((page_type_of p =? 13) || (page_type_of p =? 5)));
    [|reflexivity].
  assert (Hn : num_cells_of p' = num_cells_of p).
  { unfold num_cells_of. rewrite slice_local; auto; try lia.
    eapply agree_on_narrow; [exact Hag|lia|lia]. }
  rewrite Hn. apply flat_map_ext_on. intros i Hi. apply in_range in Hi.
  unfold pointer_at. rewrite same_length.
  pose proof (header_size_nonneg (page_type_of p)) as Hhs.
  destruct (header_size_of (page_type_of p) + i * 2 + 2 >? len p);
    [reflexivity|].
  rewrite slice_local; auto; try lia.
  eapply agree_on_narrow; [exact Hag|lia|]. unfold header_end. lia.
Qed.

End Locality.

Lemma length_cell_rows (page_type : Z) (page_data : bytes) (ptr : Z) :
  (length (cell_rows page_type page_data ptr) <= 1)%nat.
Proof.
  unfold cell_rows.
  destruct (read_cell page_type page_data ptr) as [[[|v vs]|]|e|]; cbn; lia.
Qed.

(** C6: let two images give, at the same page, two page slices of the
    same length that differ only within the byte range [lo, hi), a range
    that lies after the cell-pointer array.  If the page parser returns on
    the first image, it returns on the second one too; both runs go
    through the same cell pointers in the same order, and every cell that
    has no byte in the range, whatever the other cells are, adds the same
    row in both runs, or none in both.  A cell that has a byte in the
    range adds at most one row in either run, so the runs differ at most
    in the rows of those cells. *)
Theorem cell_corruption_is_local
    (data data' : bytes) (page_number page_size : Z)
    (records : list (list value)) (lo hi : Z) :
  let p := page_of data page_number page_size in
  let p' := page_of data' page_number page_size in
  let page_type := page_type_of p in
  agree_outside lo hi p p' = true ->
  header_end p <= lo ->
  forall out,
    parse_page data page_number page_size records = Ok out ->
    out = records ++ flat_map (cell_rows page_type p) (page_cell_pointers p)
    /\ parse_page data' page_number page_size records
       = Ok (records
             ++ flat_map (cell_rows page_type p') (page_cell_pointers p))
    /\ (forall ptr,
          In ptr (page_cell_pointers p) ->
          cells_clear_of page_type p lo hi [ptr] = true ->
          cell_rows page_type p' ptr = cell_rows page_type p ptr)
    /\ (forall ptr,
          (length (cell_rows page_type p ptr) <= 1)%nat
          /\ (length (cell_rows page_type p' ptr) <= 1)%nat).
Proof.
  intros p p' page_type Hout Hhdr out Hrun.
  assert (Hlen : len p' = len p).
  { unfold agree_outside in Hout. apply andb_true_iff in Hout.
    apply Z.eqb_eq. exact (proj1 Hout). }
  pose proof (agree_outside_spec p p' Hlen lo hi Hout) as Hagree.
  destruct (header_local p p' Hlen (Hagree 0 (header_end p) (or_introl Hhdr)))
    as [Htype Hptrs].
  rewrite parse_page_spec in Hrun. fold p in Hrun.
  rewrite parse_page_spec. fold p'.
  rewrite Hlen, Htype.
  destruct ((0 <? len p) && (len p <? 5)
            && ((page_type_of p =? 13) || (page_type_of p =? 5)));
    [discriminate|].
  injection Hrun as <-.
  unfold page_rows. rewrite Htype, Hptrs. fold page_type.
  split; [reflexivity|]. split; [reflexivity|]. split.
  - intros ptr Hin Hclear. unfold cells_clear_of in Hclear.
    cbn [forallb] in Hclear. rewrite andb_true_r in Hclear.
    apply page_cell_pointers_nonneg in Hin.
    unfold cell_rows. rewrite (read_cell_local p p' Hlen); auto.
    apply Hagree. apply orb_true_iff in Hclear.
    destruct Hclear as [H|H]; [left; apply Z.leb_le|right; apply Z.leb_le];
      exact H.
  - intros ptr. split; apply length_cell_rows.
Qed.

Lemma cell_corruption_is_local_witness :
  agree_outside 28 35 (page_of long_page 0 35)
    (page_of long_page_corrupted 0 35) = true
  /\ header_end (page_of long_page 0 35) <= 28
  /\ parse_page long_page 0 35 []
     = Ok [[VInt 42; VStr [104]]; [VInt 43; VStr [105]];
           [VInt 44; VStr [106]]]
  /\ parse_page long_page_corrupted 0 35 []
     = Ok [[VInt 42; VStr [104]]; [VInt 43; VStr [105]]]
  /\ cells_clear_of 0x0D (page_of long_page 0 35) 28 35 [21] = false
  /\ In 14 (page_cell_pointers (page_of long_page 0 35))
  /\ cells_clear_of 0x0D (page_of long_page 0 35) 28 35 [14] = true
  /\ cell_rows 0x0D (page_of long_page_corrupted 0 35) 14
     = cell_rows 0x0D (page_of long_page 0 35) 14.
Proof.
  assert (H1 : agree_outside 28 35 (page_of long_page 0 35)
                 (page_of long_page_corrupted 0 35) = true)
    by (vm_compute; reflexivity).
  assert (H2 : header_end (page_of long_page 0 35) <= 28)
    by (vm_compute; discriminate).
  assert (H3 : parse_page long_page 0 35 []
               = Ok [[VInt 42; VStr [104]]; [VInt 43; VStr [105]];
                     [VInt 44; VStr [106]]])
    by (vm_compute; reflexivity).
  assert (H4 : In 14 (page_cell_pointers (page_of long_page 0 35)))
    by (vm_compute; left; reflexivity).
  assert (H5 : cells_clear_of 0x0D (page_of long_page 0 35) 28 35 [14] = true)
    by (vm_compute; reflexivity).
  pose proof (cell_corruption_is_local long_page long_page_corrupted 0 35 []
                28 35 H1 H2 _ H3) as (_ & Hrun & Hcell & _).
  split; [exact H1|]. split; [exact H2|]. split; [exact H3|].
  split; [exact Hrun|]. split; [vm_compute; reflexivity|].
  split; [exact H4|]. split; [exact H5|].
  exact (Hcell 14 H4 H5).
Defined.

(** ** 4.5 Free-list walker: termination *)

(** Once its condition is false the loop returns, whatever fuel is left. *)
Lemma trunk_loop_done (fuel : nat) (data : bytes) (page_size total : Z)
    (w : walker) :
  negb (next_trunk_page w =? 0) && (pages_collected w <? total) = false ->
  trunk_loop fuel data page_size total w = Ok (w, None).
Proof.
  intros H. destruct fuel; cbn [trunk_loop]; rewrite H; reflexivity.
Qed.

(** On [cyclic_image] a turn of the loop leaves the trunk and the count of
    collected pages as they were. *)
Lemma trunk_body_cyclic (fl : list Z) (pr : list message) :
  trunk_body cyclic_image 512 (Walker fl 0 2 pr)
  = (Walker (fl ++ [1]) 0 2 pr, Next).
Proof.
  vm_compute. reflexivity.
Qed.

Lemma trunk_loop_cyclic (fuel : nat) :
  forall fl pr,
    trunk_loop fuel cyclic_image 512 1 (Walker fl 0 2 pr) = OutOfFuel.
Proof.
  induction fuel as [|fuel IH]; intros fl pr.
  - reflexivity.
  - cbn [trunk_loop next_trunk_page pages_collected].
    change (negb (2 =? 0) && (0 <? 1)) with true. cbv iota.
    rewrite trunk_body_cyclic. apply IH.
Qed.

(** The header fields of the two images built on [header_with_freelist]. *)
Ltac read_header image :=
  unfold main;
  replace (len image <? 100) with false by (vm_compute; reflexivity);
  replace (bytes_eqb (slice (slice image 0 100) 0 16) magic)
    with true by (vm_compute; reflexivity);
  replace (unpack_H (slice (slice image 0 100) 16 18))
    with (@Ok Z 512) by (vm_compute; reflexivity);
  replace (unpack_I (slice (slice image 0 100) 32 36))
    with (@Ok Z 2) by (vm_compute; reflexivity);
  replace (unpack_I (slice (slice image 0 100) 36 40))
    with (@Ok Z 1) by (vm_compute; reflexivity);
  cbn -[get_freelist_pages image parse_pages range floordiv].

(** C3: on [cyclic_image] the trunk names itself as next trunk and lists
    no leaf, so [pages_collected] stays 0 and the loop is still running
    after any number of turns; the driver does not return either. *)
Theorem get_freelist_pages_cycle_diverges :
  (forall fuel, get_freelist_pages fuel cyclic_image 512 2 1 = OutOfFuel)
  /\ (forall fuel, snd (main fuel cyclic_image) = OutOfFuel).
Proof.
  assert (H : forall fuel,
             get_freelist_pages fuel cyclic_image 512 2 1 = OutOfFuel).
  { intros fuel. unfold get_freelist_pages.
    rewrite trunk_loop_cyclic. reflexivity. }
  split; [exact H|].
  intros fuel. read_header cyclic_image.
  rewrite H. reflexivity.
Qed.

(** ** 4.6 Recovery driver *)

Lemma bytes_eqb_eq (a b : bytes) : bytes_eqb a b = true <-> a = b.
Proof.
  unfold bytes_eqb. destruct (list_eq_dec byte_eq_dec a b); split;
    congruence.
Qed.

(** C7: an input shorter than 100 bytes, or one whose first 16 bytes are
    not the magic string, makes the driver exit with status 1 having handed
    no row to the writer (whatever the fuel of the free-list walk). *)
Theorem main_fatal_on_bad_header (fuel : nat) (data : bytes) :
  len data < 100 \/ firstn 16 data <> magic ->
  snd (main fuel data) = Raise (SystemExit 1)
  /\ forall row, ~ In (Emit row) (fst (main fuel data)).
Proof.
  intros H. unfold main.
  destruct (Z.ltb_spec (len data) 100) as [Hshort|Hlong].
  - simpl. split; [reflexivity|]. intros row [Hin|[]]. discriminate.
  - destruct H as [H|H]; [lia|].
    assert (Hmagic : bytes_eqb (slice (slice data 0 100) 0 16) magic = false).
    { destruct (bytes_eqb (slice (slice data 0 100) 0 16) magic) eqn:E;
        [|reflexivity].
      apply bytes_eqb_eq in E. exfalso. apply H.
      rewrite <- E, !slice_0 by lia.
      rewrite firstn_firstn. reflexivity. }
    rewrite Hmagic. simpl.
    split; [reflexivity|]. intros row [Hin|[]]. discriminate.
Qed.

Lemma main_fatal_on_bad_header_witness :
  (len zero_image < 100 \/ firstn 16 zero_image <> magic)
  /\ snd (main 0 zero_image) = Raise (SystemExit 1)
  /\ forall row, ~ In (Emit row) (fst (main 0 zero_image)).
Proof.
  assert (H : len zero_image < 100 \/ firstn 16 zero_image <> magic)
    by (right; vm_compute; discriminate).
  split; [exact H|].
  exact (main_fatal_on_bad_header 0 zero_image H).
Defined.

(** *** Faults of the page parser that reach the driver *)

(** On [partial_page_image] the free-list walk ends after one trunk and
    names pages 1 and 2 (0-based). *)
Lemma get_freelist_pages_partial (fuel : nat) :
  get_freelist_pages (S fuel) partial_page_image 512 2 1 = Ok ([], [1; 2]).
Proof.
  unfold get_freelist_pages.
  cbn [trunk_loop next_trunk_page pages_collected].
  change (negb (2 =? 0) && (0 <? 1)) with true. cbv iota.
  replace (trunk_body partial_page_image 512 (Walker [] 0 2 []))
    with (Walker [1; 2] 1 0 [], Next) by (vm_compute; reflexivity).
  rewrite trunk_loop_done by reflexivity. reflexivity.
Qed.

(** C2: a page slice of one byte 0x0D makes [parse_page] raise
    [struct.error] at the cell-count read, outside every [try]; on
    [partial_page_image], whose free list names the trailing one-byte page,
    the fault ends the driver. *)
Theorem parse_page_short_page_raises :
  parse_page short_leaf_page 0 4096 [] = Raise StructError
  /\ forall fuel, snd (main (S fuel) partial_page_image) = Raise StructError.
Proof.
  split; [vm_compute; reflexivity|].
  intros fuel. read_header partial_page_image.
  rewrite get_freelist_pages_partial.
  vm_compute. reflexivity.
Qed.

(** * Further properties *)

(** ** 4.1 Varint decoder: bounds, failure, round trip *)

Lemma read_varint_loop_upper (k : nat) :
  forall data offset i value v n,
    0 <= i -> i + Z.of_nat k = 9 ->
    0 <= value < 2 ^ (7 * i) ->
    read_varint_loop k data offset i value = Ok (v, n) ->
    v < 2 ^ (7 * n).
Proof.
  induction k as [|k IH]; intros data offset i value v n Hi Hik Hval H.
  - cbn in H. assert (v = value /\ n = 9) as [-> ->] by (split; congruence).
    replace 9 with i by lia. lia.
  - cbn [read_varint_loop] in H.
    destruct (offset + i >=? len data); [discriminate|].
    destruct (index_outcome data (offset + i)) as [[b [Hb Hr]]|Hb];
      rewrite Hb in H; cbn [bind] in H; [|discriminate].
    assert (Hpow : 2 ^ (7 * (i + 1)) = 2 ^ (7 * i) * 128).
    { replace (7 * (i + 1)) with (7 * i + 7) by lia.
      rewrite Z.pow_add_r by lia. reflexivity. }
    destruct (Z.ltb_spec b 128).
    + assert (Hv : v = Z.lor (Z.shiftl value 7) b /\ n = i + 1)
        by (split; congruence).
      destruct Hv as [-> ->]. rewrite lor_shiftl_low by lia. nia.
    + eapply (IH data offset (i + 1)); [lia|lia| |exact H].
      change 127 with 0x7F. rewrite land_7f.
      pose proof (Z.mod_pos_bound b 128 ltac:(lia)).
      rewrite lor_shiftl_low by lia. nia.
Qed.

(** X1: a varint that is read has consumed 1 to 9 bytes, all of them
    within the data, and its value is non-negative and below 2^(7n) for
    [n] bytes consumed, so below 2^63 in every case. *)
Theorem read_varint_bounds (data : bytes) (offset v n : Z) :
  read_varint data offset = Ok (v, n) ->
  1 <= n <= 9 /\ offset + n <= len data /\ 0 <= v < 2 ^ (7 * n)
  /\ v < 2 ^ 63.
Proof.
  intros H.
  assert (Hn : 1 <= n <= 9).
  { destruct (read_varint_outcome data offset) as [[v' [n' [H' [Hn _]]]]|H'];
      rewrite H in H'; [|discriminate].
    assert (n = n') by congruence. lia. }
  assert (Hup : v < 2 ^ (7 * n)).
  { apply (read_varint_loop_upper 9 data offset 0 0 v n); try lia.
    exact H. }
  split; [exact Hn|]. split; [eapply read_varint_within; exact H|].
  split; [split; [eapply read_varint_nonneg; exact H|exact Hup]|].
  apply Z.lt_le_trans with (2 ^ (7 * n)); [exact Hup|].
  apply Z.pow_le_mono_r; lia.
Qed.

Lemma read_varint_bounds_witness :
  read_varint [x81; x00] 0 = Ok (128, 2)
  /\ 1 <= 2 <= 9 /\ 0 + 2 <= len [x81; x00] /\ 0 <= 128 < 2 ^ (7 * 2)
  /\ 128 < 2 ^ 63.
Proof.
  assert (H : read_varint [x81; x00] 0 = Ok (128, 2)) by reflexivity.
  split; [exact H|].
  exact (read_varint_bounds [x81; x00] 0 128 2 H).
Defined.

Lemma varint_at_fails (k : nat) :
  forall bs i value,
    varint_at k bs i value = Raise IndexError
    <-> (length bs < k)%nat
        /\ forallb (fun b => 0x80 <=? Z_of_byte b) bs = true.
Proof.
  induction k as [|k IH]; intros bs i value.
  - cbn. split; [discriminate|]. intros [H _]. lia.
  - destruct bs as [|b rest]; cbn [varint_at forallb length].
    + split; [intros _; split; [lia|reflexivity]|reflexivity].
    + destruct (Z.ltb_spec (Z_of_byte b) 128) as [Hlow|Hhigh].
      * replace (128 <=? Z_of_byte b) with false
          by (symmetry; apply Z.leb_gt; lia).
        cbn [andb]. split; [discriminate|]. intros [_ H]. discriminate.
      * replace (128 <=? Z_of_byte b) with true
          by (symmetry; apply Z.leb_le; lia).
        cbn [andb]. rewrite IH. split; intros [H1 H2]; split; auto; lia.
Qed.

(** X2: from a non-negative offset, reading a varint fails, with
    [IndexError], exactly when fewer than nine bytes are left and
    every one of them has its high bit set (in particular when none is
    left). *)
Theorem read_varint_fails_iff (data : bytes) (offset : Z) :
  0 <= offset ->
  (read_varint data offset = Raise IndexError
   <-> (length (skipn (Z.to_nat offset) data) < 9)%nat
       /\ forallb (fun b => 0x80 <=? Z_of_byte b)
                  (skipn (Z.to_nat offset) data) = true).
Proof.
  intros H. rewrite read_varint_varint_at by exact H.
  apply varint_at_fails.
Qed.

Lemma read_varint_fails_iff_witness :
  0 <= 1
  /\ (read_varint [x00; xff; x80] 1 = Raise IndexError
      <-> (length (skipn (Z.to_nat 1) [x00; xff; x80]) < 9)%nat
          /\ forallb (fun b => 0x80 <=? Z_of_byte b)
                     (skipn (Z.to_nat 1) [x00; xff; x80]) = true).
Proof.
  assert (H : 0 <= 1) by lia.
  split; [exact H|].
  exact (read_varint_fails_iff [x00; xff; x80] 1 H).
Defined.

(** *** Round trip *)

(** The decoder's accumulation over continuation bytes. *)
Lemma varint_at_groups (bs : bytes) :
  forall k i value rest,
    0 <= value ->
    (length bs <= k)%nat ->
    Forall (fun b => 128 <= Z_of_byte b) bs ->
    varint_at k (bs ++ rest) i value
    = varint_at (k - length bs) rest (i + len bs)
        (fold_left (fun acc b => acc * 128 + Z_of_byte b mod 128) bs value).
Proof.
  induction bs as [|b bs IH]; intros k i value rest Hval Hk Hall.
  - cbn. rewrite Nat.sub_0_r. unfold len. cbn. now rewrite Z.add_0_r.
  - destruct k as [|k]; [cbn in Hk; lia|].
    inversion Hall as [|? ? Hb Hbs]; subst.
    cbn [app varint_at length fold_left].
    replace (Z_of_byte b <? 128) with false by (symmetry; apply Z.ltb_ge; lia).
    rewrite land_7f.
    pose proof (Z.mod_pos_bound (Z_of_byte b) 128 ltac:(lia)).
    rewrite lor_shiftl_low by lia.
    rewrite IH; try assumption; [|nia|cbn in Hk; lia].
    cbn [Nat.sub]. f_equal. unfold len. cbn [length]. lia.
Qed.

Lemma varint_groups_facts (k : nat) :
  forall u,
    0 <= u < 128 ^ Z.of_nat k ->
    (length (varint_groups k u) <= k)%nat
    /\ Forall (fun b => 128 <= Z_of_byte b) (varint_groups k u)
    /\ forall value,
        fold_left (fun acc b => acc * 128 + Z_of_byte b mod 128)
          (varint_groups k u) value
        = value * 128 ^ len (varint_groups k u) + u.
Proof.
  induction k as [|k IH]; intros u Hu.
  - cbn in *. split; [lia|]. split; [constructor|]. intros value.
    unfold len. cbn. lia.
  - cbn [varint_groups]. destruct (Z.eqb_spec u 0) as [->|Hnz].
    + split; [cbn; lia|]. split; [constructor|]. intros value.
      unfold len. cbn. lia.
    + assert (Hq : 0 <= u / 128 < 128 ^ Z.of_nat k).
      { replace (Z.of_nat (S k)) with (Z.of_nat k + 1) in Hu by lia.
        rewrite Z.pow_add_r in Hu by lia. change (128 ^ 1) with 128 in Hu.
        split; [apply Z.div_pos; lia|].
        apply Z.div_lt_upper_bound; lia. }
      destruct (IH (u / 128) Hq) as [Hlen [Hall Hfold]].
      pose proof (Z.mod_pos_bound u 128 ltac:(lia)) as Hm.
      assert (Hlast : Z_of_byte (byte_of_Z (128 + u mod 128)) = 128 + u mod 128)
        by (apply Z_of_byte_of_Z_small; lia).
      split; [rewrite length_app; cbn; lia|].
      split.
      * apply Forall_app. split; [exact Hall|].
        constructor; [|constructor]. rewrite Hlast. lia.
      * intros value. rewrite fold_left_app. cbn [fold_left].
        rewrite Hfold, Hlast.
        replace ((128 + u mod 128) mod 128) with (u mod 128)
          by (rewrite <- Z.add_mod_idemp_l, Z.mod_same, Z.add_0_l,
                Z.mod_mod by lia; reflexivity).
        unfold len. rewrite length_app. cbn [length].
        replace (Z.of_nat (length (varint_groups k (u / 128)) + 1))
          with (Z.of_nat (length (varint_groups k (u / 128))) + 1) by lia.
        rewrite Z.pow_add_r by lia. change (128 ^ 1) with 128.
        pose proof (Z.div_mod u 128 ltac:(lia)). nia.
Qed.

Lemma len_encode_varint (v : Z) :
  0 <= v < 2 ^ 56 -> 1 <= len (encode_varint v) <= 8.
Proof.
  intros Hv. unfold encode_varint, len. rewrite length_app. cbn [length].
  destruct (varint_groups_facts 7 (v / 128)) as [Hlen _]; [|lia].
  split; [apply Z.div_pos; lia|].
  apply Z.div_lt_upper_bound; [lia|]. change (128 * 128 ^ Z.of_nat 7) with (2 ^ 56).
  lia.
Qed.

(** Reading where the data holds the varint of [v]. *)
Lemma read_varint_of_encoding (data : bytes) (offset v : Z) (rest : bytes) :
  0 <= offset -> 0 <= v < 2 ^ 56 ->
  skipn (Z.to_nat offset) data = encode_varint v ++ rest ->
  read_varint data offset = Ok (v, len (encode_varint v)).
Proof.
  intros Hoff Hv Hsk.
  rewrite read_varint_varint_at, Hsk by exact Hoff.
  unfold encode_varint. rewrite <- app_assoc.
  assert (Hq : 0 <= v / 128 < 128 ^ Z.of_nat 7).
  { split; [apply Z.div_pos; lia|].
    apply Z.div_lt_upper_bound; [lia|].
    change (128 * 128 ^ Z.of_nat 7) with (2 ^ 56). lia. }
  destruct (varint_groups_facts 7 (v / 128) Hq) as [Hlen [Hall Hfold]].
  rewrite varint_at_groups by (try assumption; lia).
  rewrite Hfold. cbn [app].
  pose proof (Z.mod_pos_bound v 128 ltac:(lia)) as Hm.
  destruct (9 - length (varint_groups 7 (v / 128)))%nat as [|k] eqn:Hk; [lia|].
  cbn [varint_at]. rewrite Z_of_byte_of_Z_small by lia.
  replace (v mod 128 <? 128) with true by (symmetry; apply Z.ltb_lt; lia).
  rewrite lor_shiftl_low by lia.
  f_equal. f_equal.
  - pose proof (Z.div_mod v 128 ltac:(lia)). lia.
  - unfold len. rewrite length_app. cbn [length]. lia.
Qed.

(** X3: for every value below 2^56, reading its SQLite varint, wherever
    it lies in the data, gives the value back and consumes exactly the 1 to
    8 bytes of the varint. *)
Theorem read_varint_round_trip (v : Z) (pre post : bytes) :
  0 <= v < 2 ^ 56 ->
  read_varint (pre ++ encode_varint v ++ post) (len pre)
  = Ok (v, len (encode_varint v))
  /\ 1 <= len (encode_varint v) <= 8.
Proof.
  intros Hv. split; [|apply len_encode_varint; exact Hv].
  apply (read_varint_of_encoding _ _ _ post); [apply len_nonneg|exact Hv|].
  unfold len. rewrite Nat2Z.id, skipn_app, skipn_all, Nat.sub_diag.
  reflexivity.
Qed.

Lemma read_varint_round_trip_witness :
  0 <= 2 ^ 49 < 2 ^ 56
  /\ read_varint ([xff] ++ encode_varint (2 ^ 49) ++ [x00]) (len [xff])
     = Ok (2 ^ 49, len (encode_varint (2 ^ 49)))
  /\ 1 <= len (encode_varint (2 ^ 49)) <= 8.
Proof.
  assert (H : 0 <= 2 ^ 49 < 2 ^ 56) by (split; [lia|reflexivity]).
  split; [exact H|].
  exact (read_varint_round_trip (2 ^ 49) [xff] [x00] H).
Defined.

(** ** 4.2 Serial-type decoder: ranges, lengths, windows *)

Lemma be_uint_acc_upper (bs : bytes) :
  forall acc, 0 <= acc ->
    fold_left (fun acc b => acc * 256 + Z_of_byte b) bs acc
    < (acc + 1) * 256 ^ len bs.
Proof.
  induction bs as [|b bs IH]; intros acc Hacc.
  - unfold len. cbn. lia.
  - cbn [fold_left]. pose proof (Z_of_byte_range b) as Hb.
    specialize (IH (acc * 256 + Z_of_byte b) ltac:(lia)).
    unfold len in *. cbn [length].
    replace (Z.of_nat (S (length bs))) with (Z.of_nat (length bs) + 1) by lia.
    rewrite Z.pow_add_r by lia. change (256 ^ 1) with 256.
    assert (0 < 256 ^ Z.of_nat (length bs)) by (apply Z.pow_pos_nonneg; lia).
    nia.
Qed.

Lemma be_uint_upper (bs : bytes) : be_uint bs < 256 ^ len bs.
Proof.
  pose proof (be_uint_acc_upper bs 0 ltac:(lia)) as H. unfold be_uint. lia.
Qed.

Lemma pow_256 (k : Z) : 0 <= k -> 256 ^ k = 2 ^ (8 * k).
Proof.
  intros H. change 256 with (2 ^ 8). rewrite <- Z.pow_mul_r by lia.
  reflexivity.
Qed.

Lemma to_signed_range (w u : Z) :
  0 < w -> 0 <= u < 2 ^ (8 * w) ->
  - 2 ^ (8 * w - 1) <= to_signed w u < 2 ^ (8 * w - 1).
Proof.
  intros Hw Hu. unfold to_signed.
  assert (Hpow : 2 ^ (8 * w) = 2 * 2 ^ (8 * w - 1)).
  { replace (8 * w) with (1 + (8 * w - 1)) at 1 by lia.
    rewrite Z.pow_add_r by lia. reflexivity. }
  destruct (Z.geb_spec u (2 ^ (8 * w - 1))); lia.
Qed.

Lemma unpack_signed_range (w : Z) (bs : bytes) (z : Z) :
  0 < w -> unpack_signed w bs = Ok z ->
  - 2 ^ (8 * w - 1) <= z < 2 ^ (8 * w - 1).
Proof.
  intros Hw H. unfold unpack_signed in H.
  destruct (Z.eqb_spec (len bs) w) as [Hlen|]; [|discriminate].
  assert (z = to_signed w (be_uint bs)) by congruence. subst z.
  apply to_signed_range; [exact Hw|].
  split; [apply be_uint_nonneg|].
  rewrite <- Hlen, <- pow_256 by apply len_nonneg. apply be_uint_upper.
Qed.

(** The signed reading of at most [w] bytes fits [w] bytes. *)
Lemma int_from_bytes_signed_range (w : Z) (bs : bytes) :
  0 < w -> len bs <= w ->
  - 2 ^ (8 * w - 1) <= int_from_bytes_signed bs < 2 ^ (8 * w - 1).
Proof.
  intros Hw Hlen. unfold int_from_bytes_signed.
  assert (Hpos : 0 < 2 ^ (8 * w - 1)) by (apply Z.pow_pos_nonneg; lia).
  destruct bs as [|b bs]; [lia|].
  set (l := b :: bs) in *.
  assert (Hl : 0 < len l) by (unfold len, l; cbn [length]; lia).
  pose proof (to_signed_range (len l) (be_uint l) Hl) as Hr.
  rewrite <- pow_256 in Hr by lia.
  specialize (Hr (conj (be_uint_nonneg l) (be_uint_upper l))).
  assert (Hmono : 2 ^ (8 * len l - 1) <= 2 ^ (8 * w - 1))
    by (apply Z.pow_le_mono_r; lia).
  lia.
Qed.

Lemma len_slice_le {A} (data : list A) (offset w : Z) :
  0 <= w -> len (slice data offset (offset + w)) <= w.
Proof.
  intros Hw. unfold slice, len. rewrite length_firstn.
  unfold clamp, len.
  destruct (Z.ltb_spec offset 0); destruct (Z.ltb_spec (offset + w) 0); lia.
Qed.

(** X4: an integer comes only from the serial types 1 to 6, 8 and 9; it
    fits the signed width of its type (1, 2, 3, 4, 6 or 8 bytes), also
    when a 3- or 6-byte integer is read from fewer bytes, and so always
    fits 64 bits. *)
Theorem parse_serial_type_int_range (data : bytes) (offset st z n : Z) :
  parse_serial_type data offset st = Ok (VInt z, n) ->
  ((1 <= st <= 6 /\ n = serial_type_length st /\ 1 <= n <= 8
    /\ - 2 ^ (8 * n - 1) <= z < 2 ^ (8 * n - 1))
   \/ (st = 8 /\ z = 0 /\ n = 0)
   \/ (st = 9 /\ z = 1 /\ n = 0))
  /\ - 2 ^ 63 <= z < 2 ^ 63.
Proof.
  intros H.
  assert (Hcases :
    (1 <= st <= 6 /\ n = serial_type_length st /\ 1 <= n <= 8
     /\ - 2 ^ (8 * n - 1) <= z < 2 ^ (8 * n - 1))
    \/ (st = 8 /\ z = 0 /\ n = 0)
    \/ (st = 9 /\ z = 1 /\ n = 0)).
  { revert H. serial_cases st; cbn; intros H; try discriminate.
    all: unfold unpack_b, unpack_h, unpack_i, unpack_q, unpack_d in H.
    all: try match type of H with
         | bind (unpack_signed ?w ?bs) _ = _ =>
             destruct (unpack_signed w bs) as [u| |] eqn:Hu;
             cbn [bind] in H; try discriminate;
             apply unpack_signed_range in Hu; [|lia];
             assert (z = u /\ n = w) as [-> ->] by (split; congruence);
             left; repeat split; try lia; exact (proj1 Hu) || exact (proj2 Hu)
         | bind (unpack_unsigned ?w ?bs) _ = _ =>
             destruct (unpack_unsigned w bs); cbn [bind] in H; discriminate
         end.
    - (* 3 bytes *)
      assert (z = int_from_bytes_signed (slice data offset (offset + 3))
              /\ n = 3) as [-> ->] by (split; congruence).
      left. repeat split; try lia;
        apply (int_from_bytes_signed_range 3); try lia;
        apply len_slice_le; lia.
    - (* 6 bytes *)
      assert (z = int_from_bytes_signed (slice data offset (offset + 6))
              /\ n = 6) as [-> ->] by (split; congruence).
      left. repeat split; try lia;
        apply (int_from_bytes_signed_range 6); try lia;
        apply len_slice_le; lia.
    - right. left. repeat split; congruence.
    - right. right. repeat split; congruence. }
  split; [exact Hcases|].
  destruct Hcases as [(Hst & Hn & Hn8 & Hz)|[(_ & -> & _)|(_ & -> & _)]];
    [|split; [lia|reflexivity] ..].
  assert (2 ^ (8 * n - 1) <= 2 ^ 63) by (apply Z.pow_le_mono_r; lia). lia.
Qed.

Lemma parse_serial_type_int_range_witness :
  parse_serial_type [xff; xfe] 0 2 = Ok (VInt (-2), 2)
  /\ ((1 <= 2 <= 6 /\ 2 = serial_type_length 2 /\ 1 <= 2 <= 8
       /\ - 2 ^ (8 * 2 - 1) <= -2 < 2 ^ (8 * 2 - 1))
      \/ (2 = 8 /\ -2 = 0 /\ 2 = 0)
      \/ (2 = 9 /\ -2 = 1 /\ 2 = 0))
  /\ - 2 ^ 63 <= -2 < 2 ^ 63.
Proof.
  assert (H : parse_serial_type [xff; xfe] 0 2 = Ok (VInt (-2), 2))
    by reflexivity.
  split; [exact H|].
  exact (parse_serial_type_int_range [xff; xfe] 0 2 (-2) 2 H).
Defined.

Lemma serial_type_length_nonneg (st : Z) : 0 <= serial_type_length st.
Proof.
  unfold serial_type_length.
  destruct ((st >=? 12) && (st mod 2 =? 0)) eqn:Hblob.
  { apply andb_true_iff in Hblob. destruct Hblob as [H _].
    apply Z.geb_le in H. apply Z.div_pos; lia. }
  destruct ((st >=? 13) && (st mod 2 =? 1)) eqn:Htext.
  { apply andb_true_iff in Htext. destruct Htext as [H _].
    apply Z.geb_le in H. apply Z.div_pos; lia. }
  repeat match goal with
    | |- context [st =? ?c] => destruct (st =? c); [lia|]
    end.
  lia.
Qed.

(** The length reported is that of the serial type. *)
Lemma parse_serial_type_reports (data : bytes) (offset st : Z) v n :
  parse_serial_type data offset st = Ok (v, n) -> n = serial_type_length st.
Proof.
  pose proof (parse_serial_type_cases data offset st) as H.
  destruct (fixed_width st) as [w|] eqn:Hw.
  - rewrite (fixed_width_length _ _ Hw).
    destruct (len (slice data offset (offset + w)) =? w).
    + destruct H as [v' H]. rewrite H. congruence.
    + rewrite H. discriminate.
  - rewrite H. congruence.
Qed.

(** X5: the length reported for a value is fixed by its serial type,
    whatever the data: a blob is cut to the bytes that are left, down to
    none, and still reports its declared length. *)
Theorem parse_serial_type_length_is_declared
    (data : bytes) (offset st : Z) (v : value) (n : Z) :
  parse_serial_type data offset st = Ok (v, n) ->
  n = serial_type_length st /\ 0 <= n
  /\ forall b, v = VBytes b -> 0 <= offset ->
       b = firstn (Z.to_nat n) (skipn (Z.to_nat offset) data)
       /\ len b = Z.min n (Z.max 0 (len data - offset)).
Proof.
  intros H. pose proof (parse_serial_type_reports _ _ _ _ _ H) as Hn.
  pose proof (serial_type_length_nonneg st) as Hpos.
  split; [exact Hn|]. split; [lia|].
  intros b -> Hoff.
  assert (Hb : b = slice data offset (offset + n)).
  { revert H. rewrite Hn. serial_cases st; cbn; intros H; try congruence.
    all: match type of H with
         | bind ?m _ = _ => destruct m; cbn in H; discriminate
         end. }
  rewrite Hb, len_slice, slice_firstn_skipn by lia.
  split; [f_equal; f_equal; lia|lia].
Qed.

Lemma parse_serial_type_length_is_declared_witness :
  parse_serial_type [x61; x62] 1 18 = Ok (VBytes [x62], 3)
  /\ 3 = serial_type_length 18 /\ 0 <= 3
  /\ forall b, VBytes [x62] = VBytes b -> 0 <= 1 ->
       b = firstn (Z.to_nat 3) (skipn (Z.to_nat 1) [x61; x62])
       /\ len b = Z.min 3 (Z.max 0 (len [x61; x62] - 1)).
Proof.
  assert (H : parse_serial_type [x61; x62] 1 18 = Ok (VBytes [x62], 3))
    by reflexivity.
  split; [exact H|].
  exact (parse_serial_type_length_is_declared [x61; x62] 1 18
           (VBytes [x62]) 3 H).
Defined.

(** X6: a text value is a string of Unicode scalar values, whatever the
    bytes it is decoded from: no surrogate, nothing above U+10FFFF. *)
Theorem parse_serial_type_text_is_scalar
    (data : bytes) (offset st : Z) (s : list Z) (n : Z) :
  parse_serial_type data offset st = Ok (VStr s, n) ->
  13 <= st /\ st mod 2 = 1
  /\ Forall (fun cp => Utf8.is_scalar cp = true) s.
Proof.
  serial_cases st; cbn; intros H; try discriminate.
  - apply andb_true_iff in Htext. destruct Htext as [Hge Hodd].
    apply Z.geb_le in Hge. apply Z.eqb_eq in Hodd.
    split; [lia|]. split; [exact Hodd|].
    assert (Hs : s = Utf8.decode
                       (slice data offset (offset + (st - 13) / 2)))
      by congruence.
    rewrite Hs. apply Utf8Facts.decode_scalar.
  - destruct (unpack_b _); cbn in H; discriminate.
  - destruct (unpack_h _); cbn in H; discriminate.
  - destruct (unpack_i _); cbn in H; discriminate.
  - destruct (unpack_q _); cbn in H; discriminate.
  - destruct (unpack_d _); cbn in H; discriminate.
Qed.

Lemma parse_serial_type_text_is_scalar_witness :
  parse_serial_type [xed; xa0; x80] 0 19 = Ok (VStr [0xFFFD; 0xFFFD; 0xFFFD], 3)
  /\ 13 <= 19 /\ 19 mod 2 = 1
  /\ Forall (fun cp => Utf8.is_scalar cp = true) [0xFFFD; 0xFFFD; 0xFFFD].
Proof.
  assert (H : parse_serial_type [xed; xa0; x80] 0 19
              = Ok (VStr [0xFFFD; 0xFFFD; 0xFFFD], 3)) by reflexivity.
  split; [exact H|].
  exact (parse_serial_type_text_is_scalar [xed; xa0; x80] 0 19
           [0xFFFD; 0xFFFD; 0xFFFD] 3 H).
Defined.

Lemma slice_window_again {A} (data : list A) (offset w : Z) :
  0 <= w ->
  slice (slice data offset (offset + w)) 0 (0 + w)
  = slice data offset (offset + w).
Proof.
  intros Hw. rewrite Z.add_0_l, slice_0 by exact Hw.
  apply firstn_all2. pose proof (len_slice_le data offset w Hw).
  unfold len in *. lia.
Qed.

(** Decoding a value looks at its window of the data only. *)
Lemma parse_serial_type_window (data : bytes) (offset st : Z) :
  parse_serial_type data offset st
  = parse_serial_type
      (slice data offset (offset + serial_type_length st)) 0 st.
Proof.
  serial_cases st; cbn -[slice]; rewrite ?slice_window_again by lia;
    try reflexivity.
  - apply andb_true_iff in Hblob. destruct Hblob as [H _].
    apply Z.geb_le in H.
    rewrite slice_window_again by (apply Z.div_pos; lia). reflexivity.
  - apply andb_true_iff in Htext. destruct Htext as [H _].
    apply Z.geb_le in H.
    rewrite slice_window_again by (apply Z.div_pos; lia). reflexivity.
Qed.

(** X7: the decoder looks at no byte outside the window that the serial
    type declares: two data and offsets that show the same bytes in that
    window give the same value, or the same fault. *)
Theorem parse_serial_type_is_local
    (data data' : bytes) (offset offset' st : Z) :
  slice data offset (offset + serial_type_length st)
  = slice data' offset' (offset' + serial_type_length st) ->
  parse_serial_type data offset st = parse_serial_type data' offset' st.
Proof.
  intros H.
  rewrite (parse_serial_type_window data), (parse_serial_type_window data').
  now rewrite H.
Qed.

Lemma parse_serial_type_is_local_witness :
  slice [x00; x2a; xff] 1 (1 + serial_type_length 1)
  = slice [x2a] 0 (0 + serial_type_length 1)
  /\ parse_serial_type [x00; x2a; xff] 1 1 = parse_serial_type [x2a] 0 1.
Proof.
  assert (H : slice [x00; x2a; xff] 1 (1 + serial_type_length 1)
              = slice [x2a] 0 (0 + serial_type_length 1)) by reflexivity.
  split; [exact H|].
  exact (parse_serial_type_is_local [x00; x2a; xff] [x2a] 1 0 1 H).
Defined.

(** ** 4.3 Record decoder: round trip *)

Lemma slice_all {A} (l : list A) (n : Z) : n = len l -> slice l 0 n = l.
Proof.
  intros ->. rewrite slice_0 by apply len_nonneg.
  unfold len. rewrite Nat2Z.id. apply firstn_all.
Qed.

Lemma skipn_len_app {A} (l rest : list A) :
  skipn (Z.to_nat (len l)) (l ++ rest) = rest.
Proof.
  unfold len. rewrite Nat2Z.id, skipn_app, skipn_all, Nat.sub_diag.
  reflexivity.
Qed.

Lemma slice_of_skipn {A} (data mid rest : list A) (offset n : Z) :
  0 <= offset ->
  skipn (Z.to_nat offset) data = mid ++ rest ->
  n = len mid ->
  slice data offset (offset + n) = mid.
Proof.
  intros Hoff Hsk ->. pose proof (len_nonneg mid).
  rewrite slice_firstn_skipn, Hsk by lia.
  replace (offset + len mid - offset) with (len mid) by lia.
  unfold len. rewrite Nat2Z.id, firstn_app, firstn_all, Nat.sub_diag.
  cbn. apply app_nil_r.
Qed.

Lemma has_serial_type_length (st : Z) (v : value) :
  has_serial_type st v = true ->
  serial_type_length st = len (encode_value st v) /\ 0 <= st.
Proof.
  intros H. destruct v as [|z|bits|b|s]; cbn [has_serial_type encode_value] in H |- *.
  - apply Z.eqb_eq in H. subst. split; [reflexivity|lia].
  - unfold int_width in *. unfold serial_type_length.
    repeat match type of H with
      | context [st =? ?c] =>
          destruct (Z.eqb_spec st c); [subst; split; [reflexivity|lia]|]
      end.
    bool_facts; subst; split; (reflexivity || lia).
  - bool_facts. subst. split; [reflexivity|lia].
  - bool_facts. unfold serial_type_length.
    match goal with
    | Hge : (st >=? 12) = true, Hev : st mod 2 = 0 |- _ =>
        rewrite Hge; apply Z.geb_le in Hge;
        replace (st mod 2 =? 0) with true by (symmetry; apply Z.eqb_eq; lia)
    end.
    cbn [andb]. split; [congruence|lia].
  - bool_facts. unfold serial_type_length.
    match goal with
    | Hge : (st >=? 13) = true, Hodd : st mod 2 = 1 |- _ =>
        rewrite Hge; apply Z.geb_le in Hge;
        replace (st mod 2 =? 0) with false by (symmetry; apply Z.eqb_neq; lia);
        replace (st mod 2 =? 1) with true by (symmetry; apply Z.eqb_eq; lia)
    end.
    rewrite andb_false_r. cbn [andb]. split; [congruence|lia].
Qed.

(** Decoding the on-disk form of a value, alone in the data. *)
Lemma parse_serial_type_encoded (st : Z) (v : value) :
  has_serial_type st v = true ->
  parse_serial_type (encode_value st v) 0 st
  = Ok (v, len (encode_value st v)).
Proof.
  intros Hty.
  destruct v as [|z|bits|b|s]; cbn [has_serial_type encode_value] in *.
  - apply Z.eqb_eq in Hty. subst. reflexivity.
  - destruct (int_width st) as [w|] eqn:Hw.
    + apply andb_true_iff in Hty. destruct Hty as [Hlo Hhi].
      apply Z.leb_le in Hlo. apply Z.ltb_lt in Hhi.
      unfold int_width in Hw. unfold parse_serial_type.
      repeat match type of Hw with
        | context [st =? ?c] =>
            destruct (Z.eqb_spec st c);
            [subst; injection Hw as <-; cbn [andb Z.geb Z.compare Z.eqb];
             cbn -[slice be_bytes Z.pow Z.mul unpack_signed len
                     int_from_bytes_signed]|]
        end; try discriminate.
      all: rewrite slice_all
        by (unfold len; rewrite length_be_bytes; reflexivity).
      all: unfold unpack_b, unpack_h, unpack_i, unpack_q.
      all: try (rewrite (unpack_signed_be_bytes 1)
                || rewrite (unpack_signed_be_bytes 2)
                || rewrite (unpack_signed_be_bytes 4)
                || rewrite (unpack_signed_be_bytes 8));
        try rewrite int_from_bytes_signed_be_bytes;
        try lia; try (split; assumption).
      all: cbn [bind]; unfold len; rewrite length_be_bytes; reflexivity.
    + apply orb_true_iff in Hty.
      destruct Hty as [H|H]; apply andb_true_iff in H; destruct H as [Hst Hz];
        apply Z.eqb_eq in Hst, Hz; subst; reflexivity.
  - bool_facts. subst. unfold parse_serial_type.
    cbn -[slice be_bytes unpack_d len].
    rewrite slice_all by (unfold len; rewrite length_be_bytes; reflexivity).
    unfold unpack_d, unpack_unsigned, len.
    rewrite length_be_bytes.
    cbn [Z.of_nat Pos.of_succ_nat Pos.succ Z.eqb Pos.eqb].
    rewrite be_uint_be_bytes, Z.mod_small by (cbn; lia).
    reflexivity.
  - apply andb_true_iff in Hty. destruct Hty as [Hty Hlen].
    apply Z.eqb_eq in Hlen.
    unfold parse_serial_type. rewrite Hty, Z.add_0_l.
    rewrite slice_all by (symmetry; exact Hlen).
    rewrite Hlen. reflexivity.
  - apply andb_true_iff in Hty. destruct Hty as [Hty Hlen].
    apply andb_true_iff in Hty. destruct Hty as [Hty Hscalar].
    apply Z.eqb_eq in Hlen.
    unfold parse_serial_type. rewrite Hty, Z.add_0_l.
    apply andb_true_iff in Hty. destruct Hty as [Hge Hodd].
    apply Z.eqb_eq in Hodd.
    replace ((st >=? 12) && (st mod 2 =? 0)) with false
      by (symmetry; apply andb_false_iff; right; apply Z.eqb_neq; lia).
    rewrite slice_all by (symmetry; exact Hlen).
    rewrite Utf8Facts.decode_encode by exact Hscalar.
    rewrite Hlen. reflexivity.
Qed.

(** Decoding where the data holds the on-disk form of a value. *)
Lemma parse_serial_type_of_encoding
    (data : bytes) (offset st : Z) (v : value) (rest : bytes) :
  0 <= offset ->
  has_serial_type st v = true ->
  skipn (Z.to_nat offset) data = encode_value st v ++ rest ->
  parse_serial_type data offset st = Ok (v, len (encode_value st v)).
Proof.
  intros Hoff Hty Hsk.
  destruct (has_serial_type_length st v Hty) as [Hlen _].
  rewrite parse_serial_type_window.
  rewrite (slice_of_skipn data (encode_value st v) rest) by auto.
  apply parse_serial_type_encoded. exact Hty.
Qed.

Lemma read_serial_types_of_encoding (sts : list Z) :
  forall fuel data header_offset bytes_read header_length acc rest,
    0 <= header_offset ->
    Forall (fun st => 0 <= st < 2 ^ 56) sts ->
    skipn (Z.to_nat header_offset) data = flat_map encode_varint sts ++ rest ->
    bytes_read + len (flat_map encode_varint sts) = header_length ->
    (Z.to_nat (len data - header_offset) < fuel)%nat ->
    read_serial_types fuel data header_offset bytes_read header_length acc
    = Ok (acc ++ sts).
Proof.
  induction sts as [|st sts IH];
    intros fuel data ho br hl acc rest Hho Hall Hsk Hlen Hfuel.
  - cbn in Hlen. unfold len in Hlen. cbn in Hlen.
    destruct fuel; cbn [read_serial_types];
      replace (br <? hl) with false by (symmetry; apply Z.ltb_ge; lia);
      now rewrite app_nil_r.
  - apply Forall_cons_iff in Hall. destruct Hall as [Hst Hsts].
    cbn [flat_map] in Hsk, Hlen. rewrite <- app_assoc in Hsk.
    pose proof (len_encode_varint st Hst) as Hn.
    pose proof (read_varint_of_encoding data ho st _ Hho Hst Hsk) as Hread.
    destruct (read_varint_outcome data ho) as [[v [n [Hv [_ Hlt]]]]|Hv];
      [|congruence].
    unfold len in Hlen, Hn. rewrite length_app in Hlen.
    destruct fuel as [|fuel]; [lia|].
    cbn [read_serial_types].
    replace (br <? hl) with true by (symmetry; apply Z.ltb_lt; lia).
    rewrite Hread. cbn [bind].
    rewrite (IH fuel data _ _ hl (acc ++ [st]) rest).
    + now rewrite <- app_assoc.
    + unfold len. lia.
    + exact Hsts.
    + rewrite skipn_add, Hsk by (unfold len; lia). apply skipn_len_app.
    + unfold len. lia.
    + unfold len in *. lia.
Qed.

Lemma decode_values_of_encoding (cols : list (Z * value)) :
  forall data value_offset acc rest,
    0 <= value_offset ->
    forallb (fun c => has_serial_type (fst c) (snd c)) cols = true ->
    skipn (Z.to_nat value_offset) data
    = flat_map (fun c => encode_value (fst c) (snd c)) cols ++ rest ->
    decode_values data value_offset (map fst cols) acc
    = Ok (acc ++ map snd cols).
Proof.
  induction cols as [|[st v] cols IH]; intros data vo acc rest Hvo Hall Hsk.
  - cbn. now rewrite app_nil_r.
  - cbn [forallb fst snd] in Hall. apply andb_true_iff in Hall.
    destruct Hall as [Hty Hall].
    cbn [flat_map fst snd map] in Hsk |- *. rewrite <- app_assoc in Hsk.
    cbn [decode_values].
    rewrite (parse_serial_type_of_encoding data vo st v _ Hvo Hty Hsk).
    cbn [bind]. pose proof (len_nonneg (encode_value st v)).
    rewrite (IH data _ (acc ++ [v]) rest).
    + now rewrite <- app_assoc.
    + lia.
    + exact Hall.
    + rewrite skipn_add, Hsk by lia. apply skipn_len_app.
Qed.

Lemma well_formed_record_facts (hl : Z) (cols : list (Z * value)) :
  well_formed_record hl cols = true ->
  forallb (fun c => has_serial_type (fst c) (snd c)) cols = true
  /\ Forall (fun st => 0 <= st < 2 ^ 56) (map fst cols)
  /\ 0 <= hl < 2 ^ 56
  /\ hl = len (encode_header hl (map fst cols)).
Proof.
  unfold well_formed_record. intros H.
  repeat (apply andb_true_iff in H; destruct H as [H ?]).
  rewrite forallb_forall in H.
  split; [|split; [|split]].
  - apply forallb_forall. intros c Hc. specialize (H c Hc).
    apply andb_true_iff in H. tauto.
  - apply Forall_forall. intros st Hst. apply in_map_iff in Hst.
    destruct Hst as [c [<- Hc]]. specialize (H c Hc).
    apply andb_true_iff in H. destruct H as [Hty Hlt].
    apply Z.ltb_lt in Hlt.
    destruct (has_serial_type_length _ _ Hty). lia.
  - bool_facts. lia.
  - bool_facts. assumption.
Qed.

(** Decoding where the data holds a well-formed record. *)
Lemma parse_record_of_encoding
    (data : bytes) (offset payload_length hl : Z) (cols : list (Z * value))
    (rest : bytes) :
  0 <= offset ->
  well_formed_record hl cols = true ->
  hl <= payload_length ->
  skipn (Z.to_nat offset) data = encode_record hl cols ++ rest ->
  parse_record data offset payload_length = Ok (Some (map snd cols)).
Proof.
  intros Hoff Hwf Hpl Hsk.
  destruct (well_formed_record_facts hl cols Hwf) as (Hty & Hsts & Hhl & Hlen).
  unfold encode_record, encode_header in Hsk. rewrite <- !app_assoc in Hsk.
  pose proof (len_encode_varint hl Hhl) as Hn.
  unfold parse_record.
  rewrite (read_varint_of_encoding data offset hl _ Hoff Hhl Hsk).
  cbn [bind].
  replace (hl >? payload_length) with false
    by (symmetry; rewrite Z.gtb_ltb; apply Z.ltb_ge; lia).
  assert (Hsk1 : skipn (Z.to_nat (offset + len (encode_varint hl))) data
                 = flat_map encode_varint (map fst cols)
                   ++ flat_map (fun c => encode_value (fst c) (snd c)) cols
                   ++ rest).
  { rewrite skipn_add, Hsk by lia. apply skipn_len_app. }
  unfold encode_header in Hlen. unfold len in Hlen. rewrite length_app in Hlen.
  rewrite (read_serial_types_of_encoding (map fst cols)
             (header_fuel data (offset + len (encode_varint hl))) data
             (offset + len (encode_varint hl)) (len (encode_varint hl)) hl []
             (flat_map (fun c => encode_value (fst c) (snd c)) cols ++ rest));
    [|lia|exact Hsts|exact Hsk1|unfold len; lia|unfold header_fuel; lia].
  cbn [bind app].
  rewrite (decode_values_of_encoding cols data (offset + hl) [] rest).
  - reflexivity.
  - lia.
  - exact Hty.
  - replace (offset + hl)
      with (offset + len (encode_varint hl)
            + len (flat_map encode_varint (map fst cols)))
      by (unfold len; lia).
    rewrite skipn_add, Hsk1 by (unfold len; lia). apply skipn_len_app.
Qed.

(** X8: a well-formed record is read back: wherever its bytes lie in the
    data, [parse_record] returns the values of its columns, in order,
    for every declared payload length that is at least the header
    length. *)
Theorem parse_record_round_trip
    (hl payload_length : Z) (cols : list (Z * value)) (pre post : bytes) :
  well_formed_record hl cols = true ->
  hl <= payload_length ->
  parse_record (pre ++ encode_record hl cols ++ post) (len pre) payload_length
  = Ok (Some (map snd cols)).
Proof.
  intros Hwf Hpl.
  apply (parse_record_of_encoding _ _ _ hl cols post);
    [apply len_nonneg|exact Hwf|exact Hpl|].
  apply skipn_len_app.
Qed.

Lemma parse_record_round_trip_witness :
  well_formed_record 3 [(1, VInt 42); (17, VStr [104; 105])] = true
  /\ 3 <= 6
  /\ parse_record
       ([xff] ++ encode_record 3 [(1, VInt 42); (17, VStr [104; 105])] ++ [x00])
       (len [xff]) 6
     = Ok (Some (map snd [(1, VInt 42); (17, VStr [104; 105])])).
Proof.
  assert (H : well_formed_record 3 [(1, VInt 42); (17, VStr [104; 105])]
              = true) by reflexivity.
  assert (Hpl : 3 <= 6) by lia.
  split; [exact H|]. split; [exact Hpl|].
  exact (parse_record_round_trip 3 6 [(1, VInt 42); (17, VStr [104; 105])]
           [xff] [x00] H Hpl).
Defined.

(** ** 4.4 Page parser: outcomes, bounds, layout, round trip *)

(** X9: [parse_page] leaves the accumulator as it is on an empty page
    slice (a page past the end of the file) and on a page whose first
    byte is neither 0x0D nor 0x05; on a slice of at least 5 bytes it
    returns, keeping the rows it was given in front of those it adds; and
    its only fault is [struct.error], on a table page of 1 to 4 bytes. *)
Theorem parse_page_outcomes
    (data : bytes) (page_number page_size : Z) (records : list (list value)) :
  let page_data := page_of data page_number page_size in
  (len page_data = 0 ->
   parse_page data page_number page_size records = Ok records)
  /\ (page_type_of page_data <> 0x0D -> page_type_of page_data <> 0x05 ->
      parse_page data page_number page_size records = Ok records)
  /\ (5 <= len page_data ->
      parse_page data page_number page_size records
      = Ok (records ++ page_rows page_data))
  /\ (forall e, parse_page data page_number page_size records = Raise e ->
      e = StructError /\ 0 < len page_data < 5
      /\ (page_type_of page_data = 0x0D \/ page_type_of page_data = 0x05))
  /\ parse_page data page_number page_size records <> OutOfFuel.
Proof.
  intros page_data.
  pose proof (parse_page_spec data page_number page_size records) as H.
  fold page_data in H. cbv zeta in H.
  assert (Hnil : is_table_page page_data = false -> page_rows page_data = []).
  { intros Hf. unfold page_rows, page_cell_pointers. rewrite Hf. reflexivity. }
  repeat split.
  - intros H0. rewrite H, H0. cbn [Z.ltb Z.compare andb].
    rewrite Hnil, app_nil_r; [reflexivity|].
    unfold is_table_page. rewrite H0. reflexivity.
  - intros H13 H5. rewrite H.
    replace (page_type_of page_data =? 13) with false
      by (symmetry; apply Z.eqb_neq; exact H13).
    replace (page_type_of page_data =? 5) with false
      by (symmetry; apply Z.eqb_neq; exact H5).
    rewrite andb_false_r, Hnil, app_nil_r; [reflexivity|].
    unfold is_table_page.
    replace (page_type_of page_data =? 13) with false
      by (symmetry; apply Z.eqb_neq; exact H13).
    replace (page_type_of page_data =? 5) with false
      by (symmetry; apply Z.eqb_neq; exact H5).
    apply andb_false_r.
  - intros H5. rewrite H.
    replace (len page_data <? 5) with false by (symmetry; apply Z.ltb_ge; lia).
    rewrite andb_false_r. reflexivity.
  - rewrite H in H0. destruct (_ && _) in H0; congruence.
  - rewrite H in H0.
    destruct ((0 <? len page_data) && (len page_data <? 5)
              && ((page_type_of page_data =? 13)
                  || (page_type_of page_data =? 5))) eqn:E; [|discriminate].
    bool_facts; lia.
  - rewrite H in H0.
    destruct ((0 <? len page_data) && (len page_data <? 5)
              && ((page_type_of page_data =? 13)
                  || (page_type_of page_data =? 5))) eqn:E; [|discriminate].
    bool_facts; lia.
  - rewrite H in H0.
    destruct ((0 <? len page_data) && (len page_data <? 5)
              && ((page_type_of page_data =? 13)
                  || (page_type_of page_data =? 5))) eqn:E; [|discriminate].
    bool_facts; auto.
  - rewrite H. destruct (_ && _); discriminate.
Qed.

Lemma parse_page_outcomes_witness :
  len (page_of [x0d; x00] 5 4096) = 0
  /\ parse_page [x0d; x00] 5 4096 [[VNone]] = Ok [[VNone]].
Proof.
  assert (H : len (page_of [x0d; x00] 5 4096) = 0) by reflexivity.
  split; [exact H|].
  exact (proj1 (parse_page_outcomes [x0d; x00] 5 4096 [[VNone]]) H).
Defined.

Lemma length_flat_map_le {A B} (f : A -> list B) (l : list A) :
  (forall a, length (f a) <= 1)%nat ->
  (length (flat_map f l) <= length l)%nat.
Proof.
  intros Hf. induction l as [|a l IH]; cbn; [lia|].
  rewrite length_app. specialize (Hf a). lia.
Qed.

Lemma length_pointer_at (page_data : bytes) (header_size i : Z) :
  (length (pointer_at page_data header_size i) <= 1)%nat.
Proof.
  unfold pointer_at.
  destruct (header_size + i * 2 + 2 >? len page_data); cbn; lia.
Qed.

Lemma num_cells_upper (page_data : bytes) : num_cells_of page_data < 65536.
Proof.
  unfold num_cells_of.
  pose proof (be_uint_upper (slice page_data 3 5)) as H.
  pose proof (len_slice_le page_data 3 2 ltac:(lia)) as Hlen.
  change (3 + 2) with 5 in Hlen.
  pose proof (len_nonneg (slice page_data 3 5)).
  assert (256 ^ len (slice page_data 3 5) <= 256 ^ 2)
    by (apply Z.pow_le_mono_r; lia).
  change (256 ^ 2) with 65536 in *. lia.
Qed.

Lemma length_range (n : Z) : length (range n) = Z.to_nat n.
Proof. unfold range. now rewrite length_map, length_seq. Qed.

(** X10: a page adds at most one row per cell pointer, and no more rows
    than the cell count of its header, which is below 65536. *)
Theorem parse_page_rows_bound
    (data : bytes) (page_number page_size : Z)
    (records out : list (list value)) :
  parse_page data page_number page_size records = Ok out ->
  let page_data := page_of data page_number page_size in
  len records <= len out
  /\ len out - len records <= len (page_cell_pointers page_data)
  /\ len (page_cell_pointers page_data) <= num_cells_of page_data
  /\ num_cells_of page_data < 65536.
Proof.
  intros H page_data. rewrite parse_page_spec in H. fold page_data in H.
  destruct (_ && _) in H; [discriminate|].
  assert (out = records ++ page_rows page_data) by congruence. subst out.
  assert (Hrows : (length (page_rows page_data)
                   <= length (page_cell_pointers page_data))%nat).
  { unfold page_rows. apply length_flat_map_le. intros ptr.
    apply length_cell_rows. }
  assert (Hptrs : len (page_cell_pointers page_data)
                  <= num_cells_of page_data).
  { unfold page_cell_pointers, len.
    destruct (is_table_page page_data);
      [|cbn; apply be_uint_nonneg].
    pose proof (length_flat_map_le
                  (pointer_at page_data
                     (header_size_of (page_type_of page_data)))
                  (range (num_cells_of page_data))
                  (length_pointer_at page_data _)) as Hle.
    rewrite length_range in Hle.
    pose proof (be_uint_nonneg (slice page_data 3 5)).
    unfold num_cells_of in *. lia. }
  unfold len in *. rewrite length_app.
  repeat split; try lia. apply num_cells_upper.
Qed.

Lemma parse_page_rows_bound_witness :
  parse_page leaf_page_with_empty_row 0 23 []
  = Ok [[VInt 42; VStr [104]]]
  /\ len (@nil (list value)) <= len [[VInt 42; VStr [104]]]
  /\ len [[VInt 42; VStr [104]]] - len (@nil (list value))
     <= len (page_cell_pointers (page_of leaf_page_with_empty_row 0 23))
  /\ len (page_cell_pointers (page_of leaf_page_with_empty_row 0 23))
     <= num_cells_of (page_of leaf_page_with_empty_row 0 23)
  /\ num_cells_of (page_of leaf_page_with_empty_row 0 23) < 65536.
Proof.
  assert (H : parse_page leaf_page_with_empty_row 0 23 []
              = Ok [[VInt 42; VStr [104]]]) by reflexivity.
  split; [exact H|].
  exact (parse_page_rows_bound leaf_page_with_empty_row 0 23 []
           [[VInt 42; VStr [104]]] H).
Defined.

(** X11: on a table-leaf page every cell is read as a payload-length
    varint, a rowid varint whose value is dropped, and then
    [payload_length] bytes given to the record decoder; no left-child
    varint is read. *)
Theorem leaf_cells_read_without_left_child
    (data : bytes) (page_number page_size : Z) (records : list (list value)) :
  let page_data := page_of data page_number page_size in
  is_table_page page_data = true ->
  page_type_of page_data = 0x0D ->
  parse_page data page_number page_size records
  = Ok (records
        ++ flat_map (fun ptr =>
                       spec_cell_rows false (skipn (Z.to_nat ptr) page_data))
                    (page_cell_pointers page_data)).
Proof.
  intros page_data Htable Htype.
  rewrite parse_page_spec. fold page_data.
  unfold is_table_page in Htable. apply andb_true_iff in Htable.
  destruct Htable as [Hlen _]. apply Z.leb_le in Hlen.
  replace (len page_data <? 5) with false by (symmetry; apply Z.ltb_ge; lia).
  rewrite andb_false_r. cbn [andb]. do 2 f_equal.
  unfold page_rows. apply flat_map_ext_on. intros ptr Hptr.
  apply page_cell_pointers_nonneg in Hptr.
  unfold cell_rows, spec_cell_rows.
  rewrite read_cell_spec_cell by exact Hptr.
  rewrite Htype. reflexivity.
Qed.

Lemma leaf_cells_read_without_left_child_witness :
  is_table_page (page_of leaf_page_with_empty_row 0 23) = true
  /\ page_type_of (page_of leaf_page_with_empty_row 0 23) = 0x0D
  /\ parse_page leaf_page_with_empty_row 0 23 [] = Ok [[VInt 42; VStr [104]]].
Proof.
  assert (H1 : is_table_page (page_of leaf_page_with_empty_row 0 23) = true)
    by reflexivity.
  assert (H2 : page_type_of (page_of leaf_page_with_empty_row 0 23) = 0x0D)
    by reflexivity.
  split; [exact H1|]. split; [exact H2|].
  exact (leaf_cells_read_without_left_child leaf_page_with_empty_row 0 23 []
           H1 H2).
Defined.

(** X12: a cell pointer at or past the end of the page (0xFFFF on a
    4096-byte page, say) adds no row and raises nothing: the cell is
    skipped and the cells after it are still read. *)
Theorem stray_cell_pointer_is_skipped
    (page_type : Z) (page_data : bytes) (records : list (list value))
    (ptr : Z) (rest : list Z) :
  len page_data <= ptr ->
  parse_cell page_type page_data records ptr = Ok records
  /\ parse_cells page_type page_data (ptr :: rest) records
     = parse_cells page_type page_data rest records.
Proof.
  intros Hptr.
  assert (Hread : read_varint page_data ptr = Raise IndexError).
  { unfold read_varint. cbn [read_varint_loop].
    replace (ptr + 0 >=? len page_data) with true
      by (symmetry; apply Z.geb_le; lia).
    reflexivity. }
  assert (Hcell : parse_cell page_type page_data records ptr = Ok records).
  { unfold parse_cell, read_cell. rewrite Hread. reflexivity. }
  split; [exact Hcell|].
  cbn [parse_cells]. rewrite Hcell. reflexivity.
Qed.

Lemma stray_cell_pointer_is_skipped_witness :
  len leaf_page_with_empty_row <= 0xFFFF
  /\ parse_cell 0x0D leaf_page_with_empty_row [] 0xFFFF = Ok []
  /\ parse_cells 0x0D leaf_page_with_empty_row [0xFFFF; 12] []
     = parse_cells 0x0D leaf_page_with_empty_row [12] [].
Proof.
  assert (H : len leaf_page_with_empty_row <= 0xFFFF)
    by (vm_compute; discriminate).
  split; [exact H|].
  exact (stray_cell_pointer_is_skipped 0x0D leaf_page_with_empty_row []
           0xFFFF [12] H).
Defined.

Lemma skipn_past {A} (data mid rest : list A) (offset : Z) :
  0 <= offset ->
  skipn (Z.to_nat offset) data = mid ++ rest ->
  skipn (Z.to_nat (offset + len mid)) data = rest.
Proof.
  intros Hoff Hsk. unfold len.
  replace (Z.to_nat (offset + Z.of_nat (length mid)))
    with (length mid + Z.to_nat offset)%nat by lia.
  rewrite <- skipn_skipn, Hsk, skipn_app, skipn_all, Nat.sub_diag.
  reflexivity.
Qed.

Lemma holds_cell_skipn (page_data : bytes) (ptr : Z) (c : cell) :
  holds_cell page_data ptr c = true ->
  exists rest, skipn (Z.to_nat ptr) page_data = cell_bytes c ++ rest.
Proof.
  unfold holds_cell. intros H. apply bytes_eqb_eq in H.
  exists (skipn (length (cell_bytes c)) (skipn (Z.to_nat ptr) page_data)).
  rewrite <- H at 1. symmetry. apply firstn_skipn.
Qed.

Lemma read_cell_of_encoding
    (page_type : Z) (page_data : bytes) (ptr : Z) (c : cell) :
  0 <= ptr ->
  well_formed_cell page_type c = true ->
  holds_cell page_data ptr c = true ->
  read_cell page_type page_data ptr = Ok (Some (map snd (cell_columns c))).
Proof.
  intros Hptr Hwf Hholds.
  destruct (holds_cell_skipn page_data ptr c Hholds) as [rest Hsk].
  unfold well_formed_cell in Hwf.
  apply andb_true_iff in Hwf. destruct Hwf as [Hwf Hlc].
  apply andb_true_iff in Hwf. destruct Hwf as [Hwf Hpl].
  apply andb_true_iff in Hwf. destruct Hwf as [Hwf Hrow1].
  apply andb_true_iff in Hwf. destruct Hwf as [Hrec Hrow0].
  apply Z.leb_le in Hrow0. apply Z.ltb_lt in Hrow1, Hpl.
  set (payload := encode_record (cell_header_length c) (cell_columns c)) in *.
  pose proof (len_nonneg payload) as Hpl0.
  unfold cell_bytes, encode_cell in Hsk. fold payload in Hsk.
  rewrite <- !app_assoc in Hsk.
  unfold read_cell.
  rewrite (read_varint_of_encoding page_data ptr (len payload) _ Hptr
             ltac:(lia) Hsk).
  cbn [bind].
  pose proof (len_encode_varint (len payload) ltac:(lia)) as Hn1.
  apply skipn_past in Hsk; [|exact Hptr].
  set (off1 := ptr + len (encode_varint (len payload))) in *.
  assert (Hrow : exists off2,
    0 <= off2
    /\ (if page_type =? 5
        then '(_, n) <- read_varint page_data off1 ;; Ok (off1 + n)
        else Ok off1) = Ok off2
    /\ skipn (Z.to_nat off2) page_data
       = encode_varint (cell_rowid c) ++ payload ++ rest).
  { destruct (cell_left_child c) as [page|].
    - repeat (apply andb_true_iff in Hlc; destruct Hlc as [Hlc ?]).
      rewrite Hlc.
      assert (0 <= page < 2 ^ 56) as Hpage by lia.
      rewrite (read_varint_of_encoding page_data off1 page _ ltac:(lia)
                 Hpage Hsk).
      cbn [bind].
      pose proof (len_encode_varint page Hpage).
      exists (off1 + len (encode_varint page)).
      split; [lia|]. split; [reflexivity|].
      apply skipn_past in Hsk; [exact Hsk|lia].
    - apply negb_true_iff in Hlc. rewrite Hlc.
      exists off1. split; [lia|]. split; [reflexivity|].
      exact Hsk. }
  destruct Hrow as (off2 & Hoff2 & -> & Hsk2). cbn [bind].
  rewrite (read_varint_of_encoding page_data off2 (cell_rowid c) _ Hoff2
             ltac:(lia) Hsk2).
  cbn [bind].
  apply skipn_past in Hsk2; [|exact Hoff2].
  pose proof (len_encode_varint (cell_rowid c) ltac:(lia)) as Hn3.
  rewrite (slice_of_skipn page_data payload rest
             (off2 + len (encode_varint (cell_rowid c))) (len payload)
             ltac:(lia) Hsk2 eq_refl).
  destruct (well_formed_record_facts _ _ Hrec) as (_ & _ & _ & Hhl).
  apply (parse_record_of_encoding payload 0 (len payload)
           (cell_header_length c) (cell_columns c) []);
    [lia|exact Hrec| |now rewrite app_nil_r].
  rewrite Hhl at 1. unfold payload, encode_record, len.
  rewrite length_app. lia.
Qed.

Lemma cell_rows_of_encoding
    (page_type : Z) (page_data : bytes) (ptr : Z) (c : cell) :
  0 <= ptr ->
  well_formed_cell page_type c = true ->
  holds_cell page_data ptr c = true ->
  cell_rows page_type page_data ptr = row_of_cell c.
Proof.
  intros Hptr Hwf Hholds. unfold cell_rows, row_of_cell.
  rewrite (read_cell_of_encoding page_type page_data ptr c Hptr Hwf Hholds).
  destruct (map snd (cell_columns c)); reflexivity.
Qed.

(** X13: a well-formed cell is read back: wherever the bytes of the
    cell begin in the page, the cell reader returns the values of its
    record in order; the rowid and the left child are read and dropped. *)
Theorem read_cell_round_trip
    (page_type : Z) (page_data : bytes) (ptr : Z) (c : cell) :
  0 <= ptr ->
  well_formed_cell page_type c = true ->
  holds_cell page_data ptr c = true ->
  read_cell page_type page_data ptr = Ok (Some (map snd (cell_columns c)))
  /\ parse_cell page_type page_data [] ptr = Ok (row_of_cell c).
Proof.
  intros Hptr Hwf Hholds.
  pose proof (read_cell_of_encoding page_type page_data ptr c Hptr Hwf Hholds)
    as Hread.
  split; [exact Hread|].
  unfold parse_cell. rewrite Hread. unfold row_of_cell.
  destruct (map snd (cell_columns c)); reflexivity.
Qed.

Lemma read_cell_round_trip_witness :
  0 <= 12
  /\ well_formed_cell 0x05 (Cell (Some 7) 1 3 [(1, VInt 42); (15, VStr [104])])
     = true
  /\ holds_cell interior_cell_page 12
       (Cell (Some 7) 1 3 [(1, VInt 42); (15, VStr [104])]) = true
  /\ read_cell 0x05 interior_cell_page 12 = Ok (Some [VInt 42; VStr [104]])
  /\ parse_cell 0x05 interior_cell_page [] 12 = Ok [[VInt 42; VStr [104]]].
Proof.
  assert (H0 : 0 <= 12) by lia.
  assert (H1 : well_formed_cell 0x05
                 (Cell (Some 7) 1 3 [(1, VInt 42); (15, VStr [104])]) = true)
    by reflexivity.
  assert (H2 : holds_cell interior_cell_page 12
                 (Cell (Some 7) 1 3 [(1, VInt 42); (15, VStr [104])]) = true)
    by reflexivity.
  split; [exact H0|]. split; [exact H1|]. split; [exact H2|].
  exact (read_cell_round_trip 0x05 interior_cell_page 12 _ H0 H1 H2).
Defined.

(** X14: a table page whose cell pointers each point at a well-formed
    cell gives back exactly the rows of those cells, in pointer order;
    cells without columns give no row. *)
Theorem parse_page_recovers_cells
    (data : bytes) (page_number page_size : Z) (records : list (list value))
    (cells : list cell) :
  let page_data := page_of data page_number page_size in
  is_table_page page_data = true ->
  Forall2 (fun ptr c =>
             well_formed_cell (page_type_of page_data) c = true
             /\ holds_cell page_data ptr c = true)
          (page_cell_pointers page_data) cells ->
  parse_page data page_number page_size records
  = Ok (records ++ flat_map row_of_cell cells).
Proof.
  intros page_data Htable Hcells.
  rewrite parse_page_spec. fold page_data.
  unfold is_table_page in Htable. apply andb_true_iff in Htable.
  destruct Htable as [Hlen _]. apply Z.leb_le in Hlen.
  replace (len page_data <? 5) with false by (symmetry; apply Z.ltb_ge; lia).
  rewrite andb_false_r. cbn [andb]. do 2 f_equal.
  unfold page_rows.
  assert (Hnonneg : Forall (fun ptr => 0 <= ptr)
                           (page_cell_pointers page_data)).
  { apply Forall_forall. apply page_cell_pointers_nonneg. }
  induction Hcells as [|ptr c ptrs cs [Hwf Hholds] _ IH]; [reflexivity|].
  apply Forall_cons_iff in Hnonneg. destruct Hnonneg as [Hptr Hrest].
  cbn [flat_map]. rewrite (IH Hrest).
  now rewrite (cell_rows_of_encoding _ _ _ c Hptr Hwf Hholds).
Qed.

Lemma parse_page_recovers_cells_witness :
  is_table_page (page_of leaf_page_with_empty_row 0 23) = true
  /\ parse_page leaf_page_with_empty_row 0 23 [] = Ok [[VInt 42; VStr [104]]].
Proof.
  assert (H1 : is_table_page (page_of leaf_page_with_empty_row 0 23) = true)
    by reflexivity.
  split; [exact H1|].
  apply (parse_page_recovers_cells leaf_page_with_empty_row 0 23 []
           [Cell None 1 3 [(1, VInt 42); (15, VStr [104])]; Cell None 2 1 []]
           H1).
  repeat constructor.
Defined.

(** ** 4.5 Free-list walker: what the walk can and cannot do *)

Lemma unpack_I_in_bounds (d : bytes) (a : Z) :
  0 <= a -> a + 4 <= len d ->
  unpack_I (slice d a (a + 4)) = Ok (be_uint (slice d a (a + 4)))
  /\ 0 <= be_uint (slice d a (a + 4)) < 2 ^ 32.
Proof.
  intros Ha Hb.
  assert (Hlen : len (slice d a (a + 4)) = 4)
    by (apply slice_full_iff; lia).
  split.
  - unfold unpack_I, unpack_unsigned. now rewrite Hlen.
  - pose proof (be_uint_nonneg (slice d a (a + 4))).
    pose proof (be_uint_upper (slice d a (a + 4))) as Hup.
    rewrite Hlen in Hup. change (256 ^ 4) with (2 ^ 32) in Hup. lia.
Qed.

(** The inner loop never raises; it leaves the next trunk alone, adds
    one page number in [-1, 2^32 - 2] per collected leaf and prints
    nothing but its own line. *)
Lemma leaf_loop_inv (k : nat) :
  forall i page_data w w' f,
    0 <= i ->
    leaf_loop k i page_data w = (w', f) ->
    (f = Next \/ f = Break)
    /\ next_trunk_page w' = next_trunk_page w
    /\ pages_collected w <= pages_collected w'
    /\ exists leaves msgs,
         freelist_pages w' = freelist_pages w ++ leaves
         /\ Forall (fun p => -1 <= p < 2 ^ 32 - 1) leaves
         /\ printed w' = printed w ++ msgs
         /\ forallb is_walk_diagnostic msgs = true.
Proof.
  induction k as [|k IH]; intros i page_data w w' f Hi H; cbn [leaf_loop] in H.
  - injection H as <- <-. split; [now left|]. split; [reflexivity|].
    split; [lia|]. exists [], []. now rewrite !app_nil_r.
  - destruct (Z.gtb_spec (8 + i * 4 + 4) (len page_data)) as [Hout|Hin].
    + injection H as <- <-. split; [now right|]. split; [reflexivity|].
      split; [cbn; lia|].
      exists [], [InsufficientLeafData i (next_trunk_page w)].
      cbn. now rewrite app_nil_r.
    + destruct (unpack_I_in_bounds page_data (8 + i * 4) ltac:(lia) Hin)
        as [Hread Hrange].
      rewrite Hread in H. cbn [attempt] in H.
      apply IH in H; [|lia].
      destruct H as (Hf & Hnext & Hcount & leaves & msgs & Hfl & Hleaves
                     & Hpr & Hmsgs).
      cbn in Hnext, Hcount, Hfl, Hpr.
      split; [exact Hf|]. split; [exact Hnext|]. split; [lia|].
      exists ((be_uint (slice page_data (8 + i * 4) (8 + i * 4 + 4)) - 1)
              :: leaves), msgs.
      rewrite Hfl, <- app_assoc. split; [reflexivity|].
      split; [constructor; [lia|exact Hleaves]|]. now split.
Qed.

(** A turn of the outer loop never raises either; the pages it adds are
    the trunk it visits and the leaves of that trunk. *)
Lemma trunk_body_inv (data : bytes) (page_size : Z) (w w' : walker) (f : flow) :
  trunk_body data page_size w = (w', f) ->
  (f = Next \/ f = Break)
  /\ (next_trunk_page w' = next_trunk_page w
      \/ 0 <= next_trunk_page w' < 2 ^ 32)
  /\ pages_collected w <= pages_collected w'
  /\ exists added msgs,
       freelist_pages w' = freelist_pages w ++ added
       /\ Forall (fun p => p = next_trunk_page w - 1 \/ -1 <= p < 2 ^ 32 - 1)
                 added
       /\ printed w' = printed w ++ msgs
       /\ forallb is_walk_diagnostic msgs = true.
Proof.
  unfold trunk_body. intros H.
  set (page_offset := (next_trunk_page w - 1) * page_size) in *.
  destruct (page_offset + page_size >? len data).
  { injection H as <- <-. split; [now right|]. split; [now left|].
    split; [cbn; lia|].
    exists [], [PageOffsetOutOfBounds page_offset].
    cbn. now rewrite app_nil_r. }
  set (page_data := slice data page_offset (page_offset + page_size)) in *.
  destruct (Z.ltb_spec (len page_data) 8) as [Hshort|Hlong].
  { injection H as <- <-. split; [now right|]. split; [now left|].
    split; [cbn; lia|].
    exists [next_trunk_page w - 1],
           [InsufficientTrunkData (next_trunk_page w)].
    cbn. split; [reflexivity|]. split; [|now split].
    constructor; [now left|constructor]. }
  destruct (unpack_I_in_bounds page_data 0 ltac:(lia) ltac:(lia))
    as [Hnext Hnext_range].
  destruct (unpack_I_in_bounds page_data 4 ltac:(lia) ltac:(lia))
    as [Hn Hn_range].
  change (0 + 4) with 4 in *. change (4 + 4) with 8 in *.
  rewrite Hnext in H. cbn [attempt] in H.
  rewrite Hn in H. cbn [attempt] in H.
  destruct (leaf_loop _ 0 page_data _) as [w1 f1] eqn:Hloop.
  apply leaf_loop_inv in Hloop; [|lia].
  destruct Hloop as (Hf & Hnt & Hcount & leaves & msgs & Hfl & Hleaves
                     & Hpr & Hmsgs).
  cbn in Hnt, Hcount, Hfl, Hpr.
  assert (Hw : w' = w1 /\ f = Next)
    by (destruct Hf; subst f1; injection H as <- <-; now split).
  destruct Hw as [-> ->].
  split; [now left|]. split; [right; rewrite Hnt; exact Hnext_range|].
  split; [exact Hcount|].
  exists ((next_trunk_page w - 1) :: leaves), msgs.
  rewrite Hfl, <- app_assoc. split; [reflexivity|].
  split; [|now split].
  constructor; [now left|].
  eapply Forall_impl; [|exact Hleaves]. intros p Hp. now right.
Qed.

Lemma trunk_loop_inv (fuel : nat) (data : bytes) (page_size total trunk : Z) :
  forall w w' raised,
    (next_trunk_page w = trunk \/ 0 <= next_trunk_page w < 2 ^ 32) ->
    Forall (fun p => p = trunk - 1 \/ -1 <= p < 2 ^ 32 - 1) (freelist_pages w) ->
    forallb is_walk_diagnostic (printed w) = true ->
    trunk_loop fuel data page_size total w = Ok (w', raised) ->
    raised = None
    /\ Forall (fun p => p = trunk - 1 \/ -1 <= p < 2 ^ 32 - 1)
              (freelist_pages w')
    /\ forallb is_walk_diagnostic (printed w') = true.
Proof.
  induction fuel as [|fuel IH]; intros w w' raised Hnt Hfl Hpr H;
    cbn [trunk_loop] in H;
    destruct (negb (next_trunk_page w =? 0)
              && (pages_collected w <? total)) eqn:Hcond;
    try discriminate;
    try (injection H as <- <-; now repeat split).
  apply andb_true_iff in Hcond. destruct Hcond as [Hnz _].
  apply negb_true_iff, Z.eqb_neq in Hnz.
  destruct (trunk_body data page_size w) as [w1 f1] eqn:Hbody.
  apply trunk_body_inv in Hbody.
  destruct Hbody as (Hf & Hnt1 & _ & added & msgs & Hfl1 & Hadded & Hpr1
                     & Hmsgs).
  assert (Hfl' : Forall (fun p => p = trunk - 1 \/ -1 <= p < 2 ^ 32 - 1)
                        (freelist_pages w1)).
  { rewrite Hfl1. apply Forall_app. split; [exact Hfl|].
    eapply Forall_impl; [|exact Hadded].
    intros p [->|Hp]; [|now right].
    destruct Hnt as [->|Hnt]; [now left|right; lia]. }
  assert (Hpr' : forallb is_walk_diagnostic (printed w1) = true)
    by (rewrite Hpr1, forallb_app, Hpr, Hmsgs; reflexivity).
  destruct Hf as [-> | ->].
  - apply IH in H; [exact H| |exact Hfl'|exact Hpr'].
    destruct Hnt1 as [Heq|Hr]; [rewrite Heq; exact Hnt|now right].
  - injection H as <- <-. now repeat split.
Qed.

(** X15: a walk that ends has raised nothing.  No read of the walk can
    raise: the trunk fields are unpacked from a slice of at least 8 bytes
    and each leaf entry only after its offset has been checked against
    the page.  So a walk that ends, by its condition or by a [break],
    returns its list having printed only its own three diagnostics, never
    the line of the [except] clause, and every page number in the list is
    the first trunk's or lies in [-1, 2^32 - 2].  (A walk that does not
    end is not covered: there the lists grow until [list.append] fails.) *)
Theorem get_freelist_pages_ends_quietly
    (fuel : nat) (data : bytes)
    (page_size freelist_trunk_page total_freelist_pages : Z)
    (msgs : list message) (pages : list Z) :
  get_freelist_pages fuel data page_size freelist_trunk_page
    total_freelist_pages = Ok (msgs, pages) ->
  forallb is_walk_diagnostic msgs = true
  /\ (forall e, ~ In (ErrorReadingFreelist e) msgs)
  /\ Forall (fun p => p = freelist_trunk_page - 1 \/ -1 <= p < 2 ^ 32 - 1)
            pages.
Proof.
  unfold get_freelist_pages.
  destruct (trunk_loop fuel data page_size total_freelist_pages
              (Walker [] 0 freelist_trunk_page []))
    as [[w raised]|e|] eqn:Hloop; try discriminate.
  apply (trunk_loop_inv fuel data page_size total_freelist_pages
           freelist_trunk_page) in Hloop;
    [|now left|constructor|reflexivity].
  destruct Hloop as (-> & Hpages & Hmsgs).
  cbn [bind]. intros H. injection H as <- <-.
  split; [exact Hmsgs|]. split; [|exact Hpages].
  intros e Hin.
  rewrite forallb_forall in Hmsgs. apply Hmsgs in Hin. discriminate.
Qed.

Lemma get_freelist_pages_ends_quietly_witness :
  get_freelist_pages 2 two_trunk_image 12 1 2 = Ok ([], [0; 4; 1; -1])
  /\ forallb is_walk_diagnostic [] = true
  /\ (forall e, ~ In (ErrorReadingFreelist e) [])
  /\ Forall (fun p => p = 1 - 1 \/ -1 <= p < 2 ^ 32 - 1) [0; 4; 1; -1].
Proof.
  assert (H : get_freelist_pages 2 two_trunk_image 12 1 2
              = Ok ([], [0; 4; 1; -1])) by (vm_compute; reflexivity).
  split; [exact H|].
  exact (get_freelist_pages_ends_quietly 2 two_trunk_image 12 1 2
           [] [0; 4; 1; -1] H).
Defined.

(** A turn of the loop on a trunk page that lies within the file and lists
    at least one leaf: if the loop goes on, a page has been collected and
    the next trunk is the one the page names. *)
Lemma trunk_body_collects (data : bytes) (page_size : Z) (w w' : walker) :
  12 <= page_size ->
  1 <= next_trunk_page w ->
  1 <= leaf_count data page_size (next_trunk_page w) ->
  trunk_body data page_size w = (w', Next) ->
  pages_collected w + 1 <= pages_collected w'
  /\ next_trunk_page w'
     = be_uint (slice (page_of data (next_trunk_page w - 1) page_size) 0 4)
  /\ (next_trunk_page w - 1) * page_size + page_size <= len data.
Proof.
  intros Hps Ht Hleaf. unfold trunk_body.
  unfold leaf_count, page_of in *.
  set (page_offset := (next_trunk_page w - 1) * page_size) in *.
  destruct (Z.gtb_spec (page_offset + page_size) (len data)) as [Hout|Hin];
    [discriminate|].
  set (page_data := slice data page_offset (page_offset + page_size)) in *.
  assert (Hoff : 0 <= page_offset) by (unfold page_offset; nia).
  assert (Hlen : len page_data = page_size).
  { unfold page_data. apply slice_full_iff; lia. }
  destruct (Z.ltb_spec (len page_data) 8) as [Hshort|Hlong]; [lia|].
  destruct (unpack_I_in_bounds page_data 0 ltac:(lia) ltac:(lia))
    as [Hnext _].
  destruct (unpack_I_in_bounds page_data 4 ltac:(lia) ltac:(lia))
    as [Hn _].
  change (0 + 4) with 4 in *. change (4 + 4) with 8 in *.
  rewrite Hnext. cbn [attempt]. rewrite Hn. cbn [attempt].
  destruct (Z.to_nat (be_uint (slice page_data 4 8))) as [|k] eqn:Hk; [lia|].
  cbn [leaf_loop].
  destruct (Z.gtb_spec (8 + 0 * 4 + 4) (len page_data)) as [Hbad|_]; [lia|].
  destruct (unpack_I_in_bounds page_data (8 + 0 * 4) ltac:(lia) ltac:(lia))
    as [Hfirst _].
  rewrite Hfirst. cbn [attempt].
  destruct (leaf_loop k _ page_data _) as [w1 f1] eqn:Hloop.
  apply leaf_loop_inv in Hloop; [|lia].
  destruct Hloop as (Hf & Hnt & Hcount & _). cbn in Hcount, Hnt.
  intros H.
  assert (w' = w1) by (destruct Hf; subst f1; congruence).
  subst w'. split; [lia|]. split; [exact Hnt|exact Hin].
Qed.

Lemma trunk_chain_shorter (f : Z -> bool) (data : bytes) (page_size : Z)
    (k : nat) :
  forall k' t,
    (k <= k')%nat ->
    forallb f (trunk_chain k' data page_size t) = true ->
    forallb f (trunk_chain k data page_size t) = true.
Proof.
  induction k as [|k IH]; intros k' t Hk H; [reflexivity|].
  destruct k' as [|k']; [lia|].
  cbn [trunk_chain] in *.
  destruct ((t =? 0) || ((t - 1) * page_size + page_size >? len data));
    [reflexivity|].
  cbn [forallb] in *. apply andb_true_iff in H. destruct H as [Ht Hrest].
  rewrite Ht. cbn [andb]. apply (IH k'); [lia|exact Hrest].
Qed.

Lemma trunk_loop_returns (data : bytes) (page_size total : Z) :
  12 <= page_size ->
  forall fuel w,
    1 <= next_trunk_page w ->
    (Z.to_nat (total - pages_collected w) <= fuel)%nat ->
    forallb (fun t => 1 <=? leaf_count data page_size t)
            (trunk_chain (Z.to_nat (total - pages_collected w)) data
               page_size (next_trunk_page w)) = true ->
    exists w', trunk_loop fuel data page_size total w = Ok (w', None).
Proof.
  intros Hps.
  induction fuel as [|fuel IH]; intros w Ht Hfuel Hchain; cbn [trunk_loop];
    destruct (negb (next_trunk_page w =? 0)
              && (pages_collected w <? total)) eqn:Hcond;
    try (now eexists).
  - apply andb_true_iff in Hcond. destruct Hcond as [_ Hlt].
    apply Z.ltb_lt in Hlt. lia.
  - apply andb_true_iff in Hcond. destruct Hcond as [_ Hlt].
    apply Z.ltb_lt in Hlt.
    destruct (trunk_body data page_size w) as [w1 f1] eqn:Hbody.
    pose proof (trunk_body_inv _ _ _ _ _ Hbody) as (Hf & Hnt & _).
    destruct Hf as [-> | ->]; [|now eexists].
    destruct (Z.to_nat (total - pages_collected w)) as [|m] eqn:Hm; [lia|].
    cbn [trunk_chain] in Hchain.
    assert (Hin : (next_trunk_page w - 1) * page_size + page_size
                  <= len data).
    { unfold trunk_body in Hbody.
      destruct (Z.gtb_spec ((next_trunk_page w - 1) * page_size + page_size)
                  (len data)); [discriminate|lia]. }
    replace ((next_trunk_page w =? 0)
             || ((next_trunk_page w - 1) * page_size + page_size
                 >? len data)) with false in Hchain
      by (symmetry; apply orb_false_iff; split;
          [apply Z.eqb_neq; lia|rewrite Z.gtb_ltb; apply Z.ltb_ge; lia]).
    cbn [forallb] in Hchain. apply andb_true_iff in Hchain.
    destruct Hchain as [Hleaf Hrest]. apply Z.leb_le in Hleaf.
    destruct (trunk_body_collects data page_size w w1 Hps Ht Hleaf Hbody)
      as (Hmore & Hnext & _).
    destruct (Z.eq_dec (next_trunk_page w1) 0) as [Hz|Hnz].
    + exists w1. apply trunk_loop_done. now rewrite Hz.
    + apply IH; [lia|lia|].
      rewrite Hnext.
      apply (trunk_chain_shorter _ data page_size _ m); [lia|exact Hrest].
Qed.

(** X16: the walk returns when a page has room for a leaf entry and each
    trunk page it goes through, as long as the trunk lies within the file,
    lists at least one leaf: each turn then collects a page or ends the
    loop, so as many turns as pages declared in the header are enough.
    Pages that are not on the trunk chain do not matter. *)
Theorem get_freelist_pages_returns
    (fuel : nat) (data : bytes)
    (page_size freelist_trunk_page total_freelist_pages : Z) :
  12 <= page_size ->
  1 <= freelist_trunk_page ->
  forallb (fun t => 1 <=? leaf_count data page_size t)
          (trunk_chain (Z.to_nat total_freelist_pages) data page_size
             freelist_trunk_page) = true ->
  (Z.to_nat total_freelist_pages <= fuel)%nat ->
  exists msgs pages,
    get_freelist_pages fuel data page_size freelist_trunk_page
      total_freelist_pages = Ok (msgs, pages).
Proof.
  intros Hps Ht Hleaf Hfuel. unfold get_freelist_pages.
  destruct (trunk_loop_returns data page_size total_freelist_pages Hps
              fuel (Walker [] 0 freelist_trunk_page []))
    as [w' Hloop]; cbn [next_trunk_page pages_collected];
    rewrite ?Z.sub_0_r; try assumption.
  rewrite Hloop. cbn [bind]. now eexists _, _.
Qed.

Lemma get_freelist_pages_returns_witness :
  12 <= 12
  /\ 1 <= 1
  /\ trunk_chain (Z.to_nat 2) two_trunks_and_zero_page 12 1 = [1; 2]
  /\ leaf_count two_trunks_and_zero_page 12 3 = 0
  /\ forallb (fun t => 1 <=? leaf_count two_trunks_and_zero_page 12 t)
             (trunk_chain (Z.to_nat 2) two_trunks_and_zero_page 12 1) = true
  /\ (Z.to_nat 2 <= 2)%nat
  /\ exists msgs pages,
       get_freelist_pages 2 two_trunks_and_zero_page 12 1 2
       = Ok (msgs, pages).
Proof.
  assert (H1 : 12 <= 12) by lia.
  assert (H2 : 1 <= 1) by lia.
  assert (H3 : forallb
                 (fun t => 1 <=? leaf_count two_trunks_and_zero_page 12 t)
                 (trunk_chain (Z.to_nat 2) two_trunks_and_zero_page 12 1)
               = true) by (vm_compute; reflexivity).
  assert (H4 : (Z.to_nat 2 <= 2)%nat) by (vm_compute; lia).
  split; [exact H1|]. split; [exact H2|].
  split; [vm_compute; reflexivity|]. split; [vm_compute; reflexivity|].
  split; [exact H3|]. split; [exact H4|].
  exact (get_freelist_pages_returns 2 two_trunks_and_zero_page 12 1 2
           H1 H2 H3 H4).
Defined.

(** ** 4.6 Recovery driver: the sweep and the rows handed out *)

Lemma parse_pages_rows (data : bytes) (page_size : Z) (pages : list Z) :
  forall records out,
    parse_pages data page_size pages records = Ok out ->
    out = records ++ rows_of_pages data page_size pages.
Proof.
  induction pages as [|n pages IH]; intros records out H; cbn in H.
  - injection H as <-. cbn. now rewrite app_nil_r.
  - rewrite parse_page_spec in H.
    destruct (_ && _) in H; [discriminate|]. cbn [bind] in H.
    apply IH in H. rewrite H. unfold rows_of_pages. cbn [flat_map].
    now rewrite app_assoc.
Qed.

Lemma parse_pages_sound_pages (data : bytes) (page_size : Z) (pages : list Z) :
  Forall (fun n => len (page_of data n page_size) = 0
                   \/ 5 <= len (page_of data n page_size)) pages ->
  forall records,
    parse_pages data page_size pages records
    = Ok (records ++ rows_of_pages data page_size pages).
Proof.
  induction 1 as [|n pages Hn _ IH]; intros records; cbn.
  - now rewrite app_nil_r.
  - rewrite parse_page_spec.
    replace ((0 <? len (page_of data n page_size))
             && (len (page_of data n page_size) <? 5)) with false
      by (symmetry; apply andb_false_iff;
          destruct Hn; [left; apply Z.ltb_ge|right; apply Z.ltb_ge]; lia).
    cbn [andb bind]. rewrite IH. unfold rows_of_pages. cbn [flat_map].
    now rewrite app_assoc.
Qed.

(** Every page of the linear sweep is a full page. *)
Lemma swept_page_is_full (data : bytes) (page_size n : Z) :
  0 < page_size ->
  In n (range (len data / page_size)) ->
  len (page_of data n page_size) = page_size.
Proof.
  intros Hps Hn. apply in_range in Hn.
  pose proof (Z.mul_div_le (len data) page_size Hps).
  unfold page_of. apply slice_full_iff; nia.
Qed.

Lemma sweep_rows (data : bytes) (page_size : Z) (records : list (list value)) :
  5 <= page_size ->
  parse_pages data page_size (range (len data / page_size)) records
  = Ok (records
        ++ rows_of_pages data page_size (range (len data / page_size))).
Proof.
  intros Hps. apply parse_pages_sound_pages.
  apply Forall_forall. intros n Hn. right.
  rewrite (swept_page_is_full data page_size n); [lia|lia|exact Hn].
Qed.

(** X17: with a page size of at least 5 the linear sweep cannot fault:
    every page it reads is a full page, and the sweep returns the rows of
    pages 0, 1, ... in order after the rows it was given. *)
Theorem linear_sweep_never_faults
    (data : bytes) (page_size : Z) (records : list (list value)) :
  5 <= page_size ->
  parse_pages data page_size (range (len data / page_size)) records
  = Ok (records
        ++ rows_of_pages data page_size (range (len data / page_size)))
  /\ forall n, In n (range (len data / page_size)) ->
               len (page_of data n page_size) = page_size.
Proof.
  intros Hps. split; [now apply sweep_rows|].
  intros n Hn. apply swept_page_is_full; [lia|exact Hn].
Qed.

Lemma linear_sweep_never_faults_witness :
  5 <= 128
  /\ parse_pages plain_image 128 (range (len plain_image / 128)) []
     = Ok ([] ++ rows_of_pages plain_image 128 (range (len plain_image / 128)))
  /\ forall n, In n (range (len plain_image / 128)) ->
               len (page_of plain_image n 128) = 128.
Proof.
  assert (H : 5 <= 128) by lia.
  split; [exact H|].
  exact (linear_sweep_never_faults plain_image 128 [] H).
Defined.

Lemma page_outside_file_empty (data : bytes) (page_number page_size : Z) :
  0 < page_size ->
  page_number = -1 \/ len data <= page_number * page_size ->
  page_of data page_number page_size = [].
Proof.
  intros Hps Hout. pose proof (len_nonneg data) as Hlen.
  unfold page_of, slice, clamp.
  replace (Z.to_nat _) with 0%nat; [reflexivity|].
  destruct Hout as [-> | Hout].
  - replace (-1 * page_size + page_size) with 0 by lia.
    destruct (Z.ltb_spec (-1 * page_size) 0); [|lia].
    cbn [Z.ltb Z.compare]. lia.
  - destruct (Z.ltb_spec (page_number * page_size) 0); [lia|].
    destruct (Z.ltb_spec (page_number * page_size + page_size) 0); lia.
Qed.

(** X18: a page number outside the file adds nothing and raises nothing:
    page -1, which the free-list walk produces for a leaf entry 0, and
    any page that starts at or after the end of the data. *)
Theorem parse_page_outside_file
    (data : bytes) (page_number page_size : Z) (records : list (list value)) :
  0 < page_size ->
  page_number = -1 \/ len data <= page_number * page_size ->
  parse_page data page_number page_size records = Ok records.
Proof.
  intros Hps Hout.
  pose proof (page_outside_file_empty data page_number page_size Hps Hout)
    as Hempty.
  unfold page_of in Hempty. unfold parse_page. rewrite Hempty. reflexivity.
Qed.

Lemma parse_page_outside_file_witness :
  0 < 128
  /\ (-1 = -1 \/ len plain_image <= -1 * 128)
  /\ parse_page plain_image (-1) 128 [] = Ok [].
Proof.
  assert (H1 : 0 < 128) by lia.
  assert (H2 : -1 = -1 \/ len plain_image <= -1 * 128) by (left; reflexivity).
  split; [exact H1|]. split; [exact H2|].
  exact (parse_page_outside_file plain_image (-1) 128 [] H1 H2).
Defined.

(** *** The header seen from the whole file *)

Lemma header_slice (data : bytes) (a b : Z) :
  100 <= len data -> 0 <= a <= b -> b <= 100 ->
  slice (slice data 0 100) a b = slice data a b.
Proof.
  intros Hlen Hab Hb.
  rewrite (slice_firstn_skipn (slice data 0 100)) by lia.
  rewrite slice_0, (slice_firstn_skipn data a b) by lia.
  rewrite skipn_firstn_comm, firstn_firstn. f_equal. lia.
Qed.

Lemma unpack_unsigned_in_bounds (w : Z) (d : bytes) (a : Z) :
  0 <= w -> 0 <= a -> a + w <= len d ->
  unpack_unsigned w (slice d a (a + w)) = Ok (be_uint (slice d a (a + w))).
Proof.
  intros Hw Ha Hb. unfold unpack_unsigned.
  replace (len (slice d a (a + w))) with w
    by (symmetry; apply slice_full_iff; lia).
  now rewrite Z.eqb_refl.
Qed.

Lemma emit_all_spec (rows : list (list value)) :
  emit_all rows = (map Emit rows, Ok tt).
Proof.
  induction rows as [|row rows IH]; [reflexivity|].
  cbn [emit_all]. rewrite IH. reflexivity.
Qed.

Lemma io_bind_lift_ok {A B} (a : A) (k : A -> io B) :
  io_bind (lift (Ok a)) k = k a.
Proof. unfold io_bind, lift. destruct (k a). reflexivity. Qed.

Lemma io_bind_ret {A B} (a : A) (k : A -> io B) : io_bind (io_ret a) k = k a.
Proof. apply io_bind_lift_ok. Qed.

Lemma io_bind_ok {A B} (out : list event) (a : A) (k : A -> io B) :
  io_bind (out, Ok a) k = (out ++ fst (k a), snd (k a)).
Proof. unfold io_bind. destruct (k a). reflexivity. Qed.

(** The driver past its two header checks. *)
Lemma main_valid_header (fuel : nat) (data : bytes) :
  100 <= len data -> firstn 16 data = magic ->
  main fuel data
  = (let page_size := page_size_of data in
     let freelist_trunk_page := be_uint (slice data 32 36) in
     let total_freelist_pages := be_uint (slice data 36 40) in
     freelist_pages <~
       (if negb (freelist_trunk_page =? 0) then
          walked <~ lift (get_freelist_pages fuel data page_size
                            freelist_trunk_page total_freelist_pages) ;;
          (map Print (fst walked), Ok (snd walked))
        else io_ret []) ;;
     num_pages <~ lift (floordiv (len data) page_size) ;;
     records <~ lift (parse_pages data page_size (range num_pages) []) ;;
     records <~
       (match freelist_pages with
        | _ :: _ => lift (parse_pages data page_size freelist_pages records)
        | [] => say NoFreelistPages ;;; io_ret records
        end) ;;
     match records with
     | [] => say NoRecordsRecovered ;;; sys_exit 1
     | _ :: _ =>
         let max_fields := max_fields_of records in
         emit_all (map (pad max_fields) records)
     end).
Proof.
  intros Hlen Hmagic. unfold main.
  replace (len data <? 100) with false by (symmetry; apply Z.ltb_ge; lia).
  rewrite !header_slice by lia.
  replace (bytes_eqb (slice data 0 16) magic) with true
    by (symmetry; apply bytes_eqb_eq; rewrite slice_0 by lia; exact Hmagic).
  cbn [negb].
  unfold unpack_H, unpack_I.
  pose proof (unpack_unsigned_in_bounds 2 data 16) as Hsize.
  pose proof (unpack_unsigned_in_bounds 4 data 32) as Htrunk.
  pose proof (unpack_unsigned_in_bounds 4 data 36) as Htotal.
  change (16 + 2) with 18 in Hsize. change (32 + 4) with 36 in Htrunk.
  change (36 + 4) with 40 in Htotal.
  rewrite Hsize, Htrunk, Htotal by lia.
  rewrite !io_bind_lift_ok. reflexivity.
Qed.

(** With page size 0 the first trunk page is an empty slice, and the
    walk stops at it. *)
Lemma get_freelist_pages_zero_page_size
    (fuel : nat) (data : bytes) (freelist_trunk_page total_freelist_pages : Z) :
  exists msgs pages,
    get_freelist_pages (S fuel) data 0 freelist_trunk_page
      total_freelist_pages = Ok (msgs, pages).
Proof.
  unfold get_freelist_pages. cbn [trunk_loop].
  destruct (negb _ && _); [|cbn; now eexists _, _].
  unfold trunk_body. cbn [next_trunk_page].
  rewrite Z.mul_0_r. pose proof (len_nonneg data).
  replace (0 + 0 >? len data) with false
    by (symmetry; rewrite Z.gtb_ltb; apply Z.ltb_ge; lia).
  rewrite slice_0 by lia. cbn. now eexists _, _.
Qed.

Lemma no_emit_in_prints (msgs : list message) (row : list value) :
  ~ In (Emit row) (map Print msgs).
Proof.
  intros H. apply in_map_iff in H. destruct H as [m [H _]]. discriminate.
Qed.

(** X19: a header whose page-size field is 0 ends the driver with
    [ZeroDivisionError] at [len(data) // page_size], after the two header
    checks have passed and before any row is handed out. *)
Theorem main_zero_page_size (fuel : nat) (data : bytes) :
  100 <= len data -> firstn 16 data = magic ->
  be_uint (slice data 16 18) = 0 ->
  snd (main (S fuel) data) = Raise ZeroDivisionError
  /\ forall row, ~ In (Emit row) (fst (main (S fuel) data)).
Proof.
  intros Hlen Hmagic Hfield.
  rewrite main_valid_header by assumption.
  unfold page_size_of. rewrite Hfield. cbn [Z.eqb].
  cbv zeta.
  destruct (negb (be_uint (slice data 32 36) =? 0)).
  - destruct (get_freelist_pages_zero_page_size fuel data
                (be_uint (slice data 32 36)) (be_uint (slice data 36 40)))
      as (msgs & pages & ->).
    cbn. rewrite !app_nil_r. split; [reflexivity|].
    intros row. apply no_emit_in_prints.
  - cbn. split; [reflexivity|]. intros row [].
Qed.

Lemma main_zero_page_size_witness :
  100 <= len zero_page_size_image
  /\ firstn 16 zero_page_size_image = magic
  /\ be_uint (slice zero_page_size_image 16 18) = 0
  /\ snd (main 1 zero_page_size_image) = Raise ZeroDivisionError
  /\ forall row, ~ In (Emit row) (fst (main 1 zero_page_size_image)).
Proof.
  assert (H1 : 100 <= len zero_page_size_image) by (vm_compute; discriminate).
  assert (H2 : firstn 16 zero_page_size_image = magic) by reflexivity.
  assert (H3 : be_uint (slice zero_page_size_image 16 18) = 0) by reflexivity.
  split; [exact H1|]. split; [exact H2|]. split; [exact H3|].
  exact (main_zero_page_size 0 zero_page_size_image H1 H2 H3).
Defined.

(** *** The rows handed to the writer *)

Lemma fold_max_fields (records : list (list value)) :
  forall acc,
    let m := fold_left (fun max_fields record =>
                          if len record >? max_fields then len record
                          else max_fields) records acc in
    acc <= m /\ forall r, In r records -> len r <= m.
Proof.
  induction records as [|r0 records IH]; intros acc; cbn.
  - split; [lia|]. intros r [].
  - destruct (IH (if len r0 >? acc then len r0 else acc)) as [Hacc Hall].
    destruct (Z.gtb_spec (len r0) acc); (split; [lia|]);
      intros r [<-|Hin]; try lia; now apply Hall.
Qed.

Lemma max_fields_of_ge (records : list (list value)) (r : list value) :
  In r records -> len r <= max_fields_of records.
Proof. intros H. now apply (fold_max_fields records 0). Qed.

Lemma len_pad (max_fields : Z) (record : list value) :
  len record <= max_fields -> len (pad max_fields record) = max_fields.
Proof.
  intros H. unfold pad.
  destruct (Z.ltb_spec (len record) max_fields); [|lia].
  unfold len in *. rewrite length_app, repeat_length. lia.
Qed.

Lemma rows_of_pages_nonempty (data : bytes) (page_size : Z) (pages : list Z)
    (row : list value) :
  In row (rows_of_pages data page_size pages) -> row <> [].
Proof.
  unfold rows_of_pages, page_rows. intros H.
  apply in_flat_map in H. destruct H as [n [_ H]].
  apply in_flat_map in H. destruct H as [ptr [_ H]].
  eapply cell_rows_nonempty, H.
Qed.

(** A step of the driver that hands out no row leaves the property of the
    rows to what follows it. *)
Lemma rows_after_step {A} (m : io A) (k : A -> io unit) :
  (forall row, ~ In (Emit row) (fst m)) ->
  (forall a, snd m = Ok a ->
     forall row, In (Emit row) (fst (k a)) ->
       snd (k a) = Ok tt
       /\ 1 <= len row
       /\ forall row', In (Emit row') (fst (k a)) -> len row' = len row) ->
  forall row, In (Emit row) (fst (io_bind m k)) ->
    snd (io_bind m k) = Ok tt
    /\ 1 <= len row
    /\ forall row', In (Emit row') (fst (io_bind m k)) -> len row' = len row.
Proof.
  intros Hm Hk row. destruct m as [out [a|e|]]; cbn in *;
    try (intros H; now apply Hm in H).
  specialize (Hk a eq_refl). destruct (k a) as [out' r]. cbn in *.
  intros Hin. apply in_app_or in Hin.
  destruct Hin as [Hin|Hin]; [now apply Hm in Hin|].
  destruct (Hk row Hin) as (Hr & Hlen & Hsame).
  split; [exact Hr|]. split; [exact Hlen|].
  intros row' Hin'. apply in_app_or in Hin'.
  destruct Hin' as [Hin'|Hin']; [now apply Hm in Hin'|].
  now apply Hsame.
Qed.

Lemma rows_of_emit_all (records : list (list value)) :
  Forall (fun r => r <> []) records ->
  forall row,
    In (Emit row) (fst (emit_all (map (pad (max_fields_of records)) records))) ->
    snd (emit_all (map (pad (max_fields_of records)) records)) = Ok tt
    /\ 1 <= len row
    /\ forall row',
         In (Emit row')
            (fst (emit_all (map (pad (max_fields_of records)) records))) ->
         len row' = len row.
Proof.
  intros Hne row. rewrite emit_all_spec. cbn [fst snd].
  assert (Hwidth : forall x,
            In (Emit x) (map Emit (map (pad (max_fields_of records)) records)) ->
            len x = max_fields_of records
            /\ exists r, In r records /\ r <> []).
  { intros x Hx. apply in_map_iff in Hx. destruct Hx as [y [Hy Hx]].
    injection Hy as ->. apply in_map_iff in Hx. destruct Hx as [r [<- Hr]].
    split; [apply len_pad, max_fields_of_ge, Hr|].
    exists r. split; [exact Hr|].
    rewrite Forall_forall in Hne. now apply Hne. }
  intros Hin. destruct (Hwidth row Hin) as [Hrow [r [Hr Hrne]]].
  split; [reflexivity|]. split.
  - rewrite Hrow. pose proof (max_fields_of_ge records r Hr).
    destruct r; [congruence|]. unfold len in *. cbn [length] in *. lia.
  - intros row' Hin'. destruct (Hwidth row' Hin') as [Hrow' _]. lia.
Qed.

(** X20: whatever the input, the rows the driver hands to the writer all
    have the same number of fields, at least one, and rows are handed out
    only by a run that ends without a fault and without [sys.exit]. *)
Theorem main_rows_rectangular (fuel : nat) (data : bytes) (row : list value) :
  In (Emit row) (fst (main fuel data)) ->
  snd (main fuel data) = Ok tt
  /\ 1 <= len row
  /\ forall row', In (Emit row') (fst (main fuel data)) -> len row' = len row.
Proof.
  unfold main.
  destruct (len data <? 100);
    [cbn; intros [H|[]]; discriminate|].
  destruct (negb _);
    [cbn; intros [H|[]]; discriminate|].
  revert row.
  apply rows_after_step; [intros row []|intros page_size _].
  apply rows_after_step; [intros row []|intros freelist_trunk_page _].
  apply rows_after_step; [intros row []|intros total_freelist_pages _].
  apply rows_after_step.
  { intros row. destruct (negb _); [|intros []].
    destruct (get_freelist_pages _ _ _ _ _) as [[msgs pages]|e|]; cbn;
      try (intros []).
    rewrite ?app_nil_r. apply no_emit_in_prints. }
  intros freelist_pages _.
  apply rows_after_step; [intros row []|intros num_pages _].
  apply rows_after_step; [intros row []|intros records Hrecords].
  cbn [lift snd] in Hrecords. apply parse_pages_rows in Hrecords.
  cbn [app] in Hrecords.
  apply rows_after_step.
  { intros row. destruct freelist_pages; cbn; [|intros []].
    intros [H|[]]. discriminate. }
  intros records' Hrecords'.
  assert (Hne : Forall (fun r => r <> []) records').
  { apply Forall_forall. intros r Hr.
    destruct freelist_pages as [|p ps].
    - cbn in Hrecords'. injection Hrecords' as <-. subst records.
      eapply rows_of_pages_nonempty, Hr.
    - cbn [lift snd] in Hrecords'. apply parse_pages_rows in Hrecords'.
      subst records' records. apply in_app_or in Hr.
      destruct Hr as [Hr|Hr]; eapply rows_of_pages_nonempty, Hr. }
  destruct records' as [|r0 rest].
  - cbn. intros row [H|[]]. discriminate.
  - apply rows_of_emit_all, Hne.
Qed.

Lemma main_rows_rectangular_witness :
  In (Emit [VInt 42; VStr [104]]) (fst (main 0 plain_image))
  /\ snd (main 0 plain_image) = Ok tt
  /\ 1 <= len [VInt 42; VStr [104]]
  /\ forall row', In (Emit row') (fst (main 0 plain_image)) ->
                  len row' = len [VInt 42; VStr [104]].
Proof.
  assert (H : In (Emit [VInt 42; VStr [104]]) (fst (main 0 plain_image)))
    by (vm_compute; right; left; reflexivity).
  split; [exact H|].
  exact (main_rows_rectangular 0 plain_image [VInt 42; VStr [104]] H).
Defined.

(** *** The driver up to its output stage *)

Lemma main_recovery_valid_header (fuel : nat) (data : bytes) :
  100 <= len data -> firstn 16 data = magic ->
  main_recovery fuel data
  = (let page_size := page_size_of data in
     let freelist_trunk_page := be_uint (slice data 32 36) in
     let total_freelist_pages := be_uint (slice data 36 40) in
     freelist_pages <~
       (if negb (freelist_trunk_page =? 0) then
          walked <~ lift (get_freelist_pages fuel data page_size
                            freelist_trunk_page total_freelist_pages) ;;
          (map Print (fst walked), Ok (snd walked))
        else io_ret []) ;;
     num_pages <~ lift (floordiv (len data) page_size) ;;
     records <~ lift (parse_pages data page_size (range num_pages) []) ;;
     records <~
       (match freelist_pages with
        | _ :: _ => lift (parse_pages data page_size freelist_pages records)
        | [] => say NoFreelistPages ;;; io_ret records
        end) ;;
     match records with
     | [] => say NoRecordsRecovered ;;; sys_exit 1
     | _ :: _ => io_ret (records, max_fields_of records)
     end).
Proof.
  intros Hlen Hmagic. unfold main_recovery.
  replace (len data <? 100) with false by (symmetry; apply Z.ltb_ge; lia).
  rewrite !header_slice by lia.
  replace (bytes_eqb (slice data 0 16) magic) with true
    by (symmetry; apply bytes_eqb_eq; rewrite slice_0 by lia; exact Hmagic).
  cbn [negb].
  unfold unpack_H, unpack_I.
  pose proof (unpack_unsigned_in_bounds 2 data 16) as Hsize.
  pose proof (unpack_unsigned_in_bounds 4 data 32) as Htrunk.
  pose proof (unpack_unsigned_in_bounds 4 data 36) as Htotal.
  change (16 + 2) with 18 in Hsize. change (32 + 4) with 36 in Htrunk.
  change (36 + 4) with 40 in Htotal.
  rewrite Hsize, Htrunk, Htotal by lia.
  rewrite !io_bind_lift_ok. reflexivity.
Qed.

(** The end of the recovery, from the recovered rows on. *)
Lemma main_recovery_end (records : list (list value)) :
  match records with
  | [] => say NoRecordsRecovered ;;; sys_exit 1
  | _ :: _ => io_ret (records, max_fields_of records)
  end
  = match records with
    | [] => ([Print NoRecordsRecovered], Raise (SystemExit 1))
    | _ :: _ => ([], Ok (records, max_fields_of records))
    end.
Proof. destruct records; reflexivity. Qed.

Lemma io_bind_assoc {A B C} (m : io A) (k : A -> io B) (k' : B -> io C) :
  io_bind (io_bind m k) k' = io_bind m (fun a => io_bind (k a) k').
Proof.
  destruct m as [out [a|e|]]; cbn; try reflexivity.
  destruct (k a) as [out1 [b|e|]]; cbn; try reflexivity.
  destruct (k' b) as [out2 r]. now rewrite app_assoc.
Qed.

Lemma io_bind_ext {A B} (m : io A) (k k' : A -> io B) :
  (forall a, k a = k' a) -> io_bind m k = io_bind m k'.
Proof.
  intros H. destruct m as [out [a|e|]]; cbn; try reflexivity.
  now rewrite H.
Qed.

(** [main] is its recovery followed by the output of the rows, each padded
    to [max_fields]. *)
Lemma main_recovery_then_output (fuel : nat) (data : bytes) :
  main fuel data
  = (recovered <~ main_recovery fuel data ;;
     emit_all (map (pad (snd recovered)) (fst recovered))).
Proof.
  unfold main, main_recovery.
  destruct (len data <? 100); [reflexivity|].
  destruct (negb _); [reflexivity|].
  repeat (rewrite io_bind_assoc; apply io_bind_ext; intro).
  match goal with |- context [match ?r with [] => _ | _ :: _ => _ end] =>
    destruct r end; [reflexivity|].
  now rewrite io_bind_ret.
Qed.

(** X21: a database without a free list and with a page size of at least
    5: the driver prints the line about the free list and reaches its
    output stage with, as [records], the rows of pages 0, 1, ... in order
    and, as [max_fields], the length of the longest row; with no row at
    all it prints that no record was recovered and exits with status 1.
    What the writer then does with the rows is not part of the
    statement. *)
Theorem main_without_free_list (fuel : nat) (data : bytes) :
  100 <= len data -> firstn 16 data = magic ->
  be_uint (slice data 32 36) = 0 ->
  5 <= page_size_of data ->
  let rows := rows_of_pages data (page_size_of data)
                (range (len data / page_size_of data)) in
  main_recovery fuel data
  = match rows with
    | [] => ([Print NoFreelistPages; Print NoRecordsRecovered],
             Raise (SystemExit 1))
    | _ :: _ => ([Print NoFreelistPages], Ok (rows, max_fields_of rows))
    end.
Proof.
  intros Hlen Hmagic Htrunk Hps rows.
  rewrite main_recovery_valid_header by assumption.
  rewrite Htrunk. cbv zeta. cbn [Z.eqb negb].
  rewrite io_bind_ret. unfold floordiv.
  replace (page_size_of data =? 0) with false
    by (symmetry; apply Z.eqb_neq; lia).
  rewrite io_bind_lift_ok, sweep_rows by exact Hps.
  rewrite io_bind_lift_ok. cbn [app]. fold rows.
  change (say NoFreelistPages ;;; io_ret rows)
    with ([Print NoFreelistPages], @Ok (list (list value)) rows).
  rewrite io_bind_ok, main_recovery_end.
  destruct rows; reflexivity.
Qed.

Lemma main_without_free_list_witness :
  100 <= len plain_image
  /\ firstn 16 plain_image = magic
  /\ be_uint (slice plain_image 32 36) = 0
  /\ 5 <= page_size_of plain_image
  /\ main_recovery 0 plain_image
     = ([Print NoFreelistPages], Ok ([[VInt 42; VStr [104]]], 2)).
Proof.
  assert (H1 : 100 <= len plain_image) by (vm_compute; discriminate).
  assert (H2 : firstn 16 plain_image = magic) by reflexivity.
  assert (H3 : be_uint (slice plain_image 32 36) = 0) by reflexivity.
  assert (H4 : 5 <= page_size_of plain_image) by (vm_compute; discriminate).
  split; [exact H1|]. split; [exact H2|]. split; [exact H3|].
  split; [exact H4|].
  exact (main_without_free_list 0 plain_image H1 H2 H3 H4).
Defined.

(** X22: a database with a free list whose pages are whole pages of the
    file (or lie outside it): after the lines of the walk, the driver
    reaches its output stage with, as [records], the rows of the linear
    sweep followed, once more, by the rows of the pages the walk named:
    a free page within the file has its rows twice in the list.  What
    the writer then does with the rows is not part of the statement. *)
Theorem main_with_free_list
    (fuel : nat) (data : bytes) (msgs : list message)
    (freelist_pages : list Z) :
  100 <= len data -> firstn 16 data = magic ->
  be_uint (slice data 32 36) <> 0 ->
  5 <= page_size_of data ->
  get_freelist_pages fuel data (page_size_of data)
    (be_uint (slice data 32 36)) (be_uint (slice data 36 40))
  = Ok (msgs, freelist_pages) ->
  freelist_pages <> [] ->
  Forall (fun n => len (page_of data n (page_size_of data)) = 0
                   \/ 5 <= len (page_of data n (page_size_of data)))
         freelist_pages ->
  let rows := rows_of_pages data (page_size_of data)
                (range (len data / page_size_of data))
              ++ rows_of_pages data (page_size_of data) freelist_pages in
  main_recovery fuel data
  = match rows with
    | [] => (map Print msgs ++ [Print NoRecordsRecovered],
             Raise (SystemExit 1))
    | _ :: _ => (map Print msgs, Ok (rows, max_fields_of rows))
    end.
Proof.
  intros Hlen Hmagic Htrunk Hps Hwalk Hne Hpages rows.
  destruct freelist_pages as [|p ps]; [congruence|].
  rewrite main_recovery_valid_header by assumption.
  cbv zeta.
  replace (be_uint (slice data 32 36) =? 0) with false
    by (symmetry; now apply Z.eqb_neq).
  cbn [negb]. rewrite Hwalk, io_bind_lift_ok. cbn [fst snd].
  rewrite io_bind_ok. unfold floordiv.
  replace (page_size_of data =? 0) with false
    by (symmetry; apply Z.eqb_neq; lia).
  rewrite io_bind_lift_ok, sweep_rows by exact Hps.
  rewrite io_bind_lift_ok. cbn [app].
  rewrite parse_pages_sound_pages by exact Hpages.
  rewrite io_bind_lift_ok, main_recovery_end. fold rows.
  destruct rows; cbn [fst snd]; rewrite ?app_nil_r; reflexivity.
Qed.

Lemma main_with_free_list_witness :
  100 <= len free_leaf_image
  /\ firstn 16 free_leaf_image = magic
  /\ be_uint (slice free_leaf_image 32 36) <> 0
  /\ 5 <= page_size_of free_leaf_image
  /\ get_freelist_pages 1 free_leaf_image (page_size_of free_leaf_image)
       (be_uint (slice free_leaf_image 32 36))
       (be_uint (slice free_leaf_image 36 40))
     = Ok ([], [1; 2])
  /\ main_recovery 1 free_leaf_image
     = ([], Ok ([[VInt 42; VStr [104]]; [VInt 42; VStr [104]]], 2)).
Proof.
  assert (H1 : 100 <= len free_leaf_image) by (vm_compute; discriminate).
  assert (H2 : firstn 16 free_leaf_image = magic) by reflexivity.
  assert (H3 : be_uint (slice free_leaf_image 32 36) <> 0)
    by (vm_compute; discriminate).
  assert (H4 : 5 <= page_size_of free_leaf_image)
    by (vm_compute; discriminate).
  assert (H5 : get_freelist_pages 1 free_leaf_image
                 (page_size_of free_leaf_image)
                 (be_uint (slice free_leaf_image 32 36))
                 (be_uint (slice free_leaf_image 36 40))
               = Ok ([], [1; 2])) by (vm_compute; reflexivity).
  assert (H6 : [1; 2] <> @nil Z) by discriminate.
  assert (H7 : Forall (fun n =>
                         len (page_of free_leaf_image n
                                (page_size_of free_leaf_image)) = 0
                         \/ 5 <= len (page_of free_leaf_image n
                                        (page_size_of free_leaf_image)))
                      [1; 2])
    by (apply Forall_cons; [right; vm_compute; discriminate|];
        apply Forall_cons; [right; vm_compute; discriminate|];
        apply Forall_nil).
  split; [exact H1|]. split; [exact H2|]. split; [exact H3|].
  split; [exact H4|]. split; [exact H5|].
  exact (main_with_free_list 1 free_leaf_image [] [1; 2]
           H1 H2 H3 H4 H5 H6 H7).
Defined.

(** ** 4.7 Image signatures *)

Lemma startswith_iff (data prefix : bytes) :
  startswith data prefix = true <-> exists tail, data = prefix ++ tail.
Proof.
  unfold startswith. rewrite bytes_eqb_eq. split.
  - intros H. exists (skipn (length prefix) data).
    pose proof (firstn_skipn (length prefix) data) as Hsplit.
    rewrite H in Hsplit. now symmetry.
  - intros [tail ->].
    rewrite firstn_app, firstn_all, Nat.sub_diag. cbn. apply app_nil_r.
Qed.

Lemma startswith_app (prefix tail : bytes) :
  startswith (prefix ++ tail) prefix = true.
Proof. apply startswith_iff. now exists tail. Qed.

Lemma startswith_firstn (n : nat) (data prefix : bytes) :
  (length prefix <= n)%nat ->
  startswith (firstn n data) prefix = startswith data prefix.
Proof.
  intros H. unfold startswith. rewrite firstn_firstn.
  now rewrite Nat.min_l by exact H.
Qed.

Lemma first_match_firstn (n : nat) (data : bytes)
    (sigs : list (bytes * image_format)) :
  Forall (fun s => (length (fst s) <= n)%nat) sigs ->
  first_match (firstn n data) sigs = first_match data sigs.
Proof.
  induction 1 as [|[sig fmt] sigs Hsig _ IH]; [reflexivity|].
  cbn [first_match]. rewrite startswith_firstn by exact Hsig.
  now rewrite IH.
Qed.

Lemma first_match_some (data : bytes) (sigs : list (bytes * image_format))
    (fmt : image_format) :
  first_match data sigs = Some fmt ->
  exists sig, In (sig, fmt) sigs /\ startswith data sig = true.
Proof.
  induction sigs as [|[sig0 fmt0] sigs IH]; [discriminate|].
  cbn [first_match]. destruct (startswith data sig0) eqn:E.
  - intros H. injection H as ->. exists sig0. split; [now left|exact E].
  - intros H. destruct (IH H) as [sig [Hin Hs]].
    exists sig. split; [now right|exact Hs].
Qed.

(** Cutting the blob to the longest signature changes nothing. *)
Lemma identify_image_first_match (blob_data : bytes) :
  identify_image blob_data = first_match blob_data signatures.
Proof.
  unfold identify_image. change max_sig_len with 8.
  rewrite slice_0 by lia.
  apply first_match_firstn.
  unfold signatures. repeat (apply Forall_cons; [cbn; lia|]).
  apply Forall_nil.
Qed.

(** X23: a blob is given a format exactly when it begins with one of the
    eight signatures, and the format is that of any signature it begins
    with: the order in which the signatures are tried never matters. *)
Theorem identify_image_spec (blob_data : bytes) (fmt : image_format) :
  identify_image blob_data = Some fmt
  <-> exists sig tail, In (sig, fmt) signatures /\ blob_data = sig ++ tail.
Proof.
  rewrite identify_image_first_match. split.
  - intros H. apply first_match_some in H. destruct H as [sig [Hin Hs]].
    apply startswith_iff in Hs. destruct Hs as [tail ->].
    now exists sig, tail.
  - intros (sig & tail & Hin & ->).
    unfold signatures in Hin. cbn [In] in Hin.
    repeat (destruct Hin as [Hin|Hin];
            [injection Hin as <- <-;
             unfold signatures; cbn [first_match];
             repeat first
               [ rewrite startswith_app; reflexivity
               | match goal with
                 | |- context [startswith ?b ?s] =>
                     let E := fresh "E" in
                     destruct (startswith b s) eqn:E;
                     [ first
                         [ reflexivity
                         | exfalso; apply startswith_iff in E;
                           destruct E as [t E]; cbn in E; discriminate E ]
                     | ]
                 end ]
            |]).
    destruct Hin.
Qed.
